(** * A shallow embedding of the mini 2D physics engine ([src/physics.ts])

    The engine is a fixed-step rigid body simulator for circles and
    rectangles.  This development embeds its data model, the functions
    of the simulation step and the functions that create and manage the
    bodies of a world, and proves properties of them.

    Modelling choices.

    - A JavaScript [number] is modelled as a real number: arithmetic is
      exact, and [NaN], the infinities, signed zeros and rounding are
      outside the model.  [Math.sqrt] and [** .5] are [sqrt], [Math.abs] is
      [Rabs], [Math.max]/[Math.min] are [Rmax]/[Rmin], [Math.cos]/[Math.sin]
      are [cos]/[sin], [Math.floor] is the integer part and [Math.hypot] the
      root of the sum of the squares.  A comparison of the source is the
      boolean decision of the same comparison on reals.
    - A [Body] is a mutable object shared between the arrays of the world
      ([all] in [worldStep] holds the same objects as [world.dynamicBodies]).
      Bodies therefore live in a heap, a map from addresses to bodies, and
      the arrays of the world are lists of addresses.  Every function that
      mutates a body is a heap transformer.
    - The vectors stored in a body are values.  The source mutates
      [velocity], [averageCenter] and [boundingBox] in place, but each of
      these objects is created fresh for its body, and [center] and
      [acceleration], which may be shared with the caller or with the
      world, are only ever replaced, never mutated, by the functions
      embedded here.  The one exception is [createCircle] and
      [createRectangle], which floor the coordinates of the [center] they
      are given in place: the body is modelled with the floored center,
      and the object of the caller is outside the model.
    - Division by zero, which yields an infinity or [NaN] in the source, is
      outside the model as well; no statement below relies on its value.
    - The opaque user payload [data] is never inspected and is left out. *)

From Stdlib Require Import Reals Lra Lia List Bool ZArith Arith FunctionalExtensionality.
Import ListNotations.

Open Scope R_scope.

(** ** Numbers *)

(** The comparisons of the source, as booleans. *)

Definition Rltb (a b : R) : bool := if Rlt_dec a b then true else false.
Definition Rgtb (a b : R) : bool := if Rgt_dec a b then true else false.
Definition Rleb (a b : R) : bool := if Rle_dec a b then true else false.
Definition Rgeb (a b : R) : bool := if Rge_dec a b then true else false.
Definition Reqb (a b : R) : bool := if Req_dec_T a b then true else false.

(** JavaScript truthiness of a number: every number but zero. *)
Definition truthy (a : R) : bool := negb (Reqb a 0).

(** [a || b] on numbers. *)
Definition orElse (a b : R) : R := if truthy a then a else b.

(** ** Data model *)

Inductive ShapeType : Type :=
| CIRCLE
| RECTANGLE.

Record Vector2 : Type := mkVector2 { x : R; y : R }.

Record Joint : Type := mkJoint {
  bodyA : Z;
  bodyB : Z;
  distance : R;
  rigidity : R;
  elasticity : R
}.

(** [end_] is the source's [end]. *)
Record CollisionDetails : Type := mkCollisionDetails {
  depth : R;
  normal : Vector2;
  start : Vector2;
  end_ : Vector2
}.

(** [cdepth] is the source's [depth]. *)
Record Collision : Type := mkCollision {
  bodyAId : Z;
  bodyBId : Z;
  cdepth : R
}.

(** [mass] holds the inverse mass, as in the source ([0] if immobile). *)
Record Body : Type := mkBody {
  id : Z;
  type : ShapeType;
  center : Vector2;
  averageCenter : Vector2;
  friction : R;
  restitution : R;
  mass : R;
  velocity : Vector2;
  acceleration : Vector2;
  angle : R;
  averageAngle : R;
  angularVelocity : R;
  angularAcceleration : R;
  bounds : R;
  boundingBox : Vector2;
  width : R;
  height : R;
  inertia : R;
  faceNormals : list Vector2;
  vertices : list Vector2;
  pinned : bool;
  restingTime : R;
  static : bool;
  permeability : R
}.

Definition set_center (v : Vector2) (b : Body) : Body :=
  mkBody (id b) (type b) v (averageCenter b) (friction b) (restitution b) (mass b) (velocity b) (acceleration b) (angle b) (averageAngle b) (angularVelocity b) (angularAcceleration b) (bounds b) (boundingBox b) (width b) (height b) (inertia b) (faceNormals b) (vertices b) (pinned b) (restingTime b) (static b) (permeability b).

Definition set_averageCenter (v : Vector2) (b : Body) : Body :=
  mkBody (id b) (type b) (center b) v (friction b) (restitution b) (mass b) (velocity b) (acceleration b) (angle b) (averageAngle b) (angularVelocity b) (angularAcceleration b) (bounds b) (boundingBox b) (width b) (height b) (inertia b) (faceNormals b) (vertices b) (pinned b) (restingTime b) (static b) (permeability b).

Definition set_velocity (v : Vector2) (b : Body) : Body :=
  mkBody (id b) (type b) (center b) (averageCenter b) (friction b) (restitution b) (mass b) v (acceleration b) (angle b) (averageAngle b) (angularVelocity b) (angularAcceleration b) (bounds b) (boundingBox b) (width b) (height b) (inertia b) (faceNormals b) (vertices b) (pinned b) (restingTime b) (static b) (permeability b).

Definition set_angle (v : R) (b : Body) : Body :=
  mkBody (id b) (type b) (center b) (averageCenter b) (friction b) (restitution b) (mass b) (velocity b) (acceleration b) v (averageAngle b) (angularVelocity b) (angularAcceleration b) (bounds b) (boundingBox b) (width b) (height b) (inertia b) (faceNormals b) (vertices b) (pinned b) (restingTime b) (static b) (permeability b).

Definition set_averageAngle (v : R) (b : Body) : Body :=
  mkBody (id b) (type b) (center b) (averageCenter b) (friction b) (restitution b) (mass b) (velocity b) (acceleration b) (angle b) v (angularVelocity b) (angularAcceleration b) (bounds b) (boundingBox b) (width b) (height b) (inertia b) (faceNormals b) (vertices b) (pinned b) (restingTime b) (static b) (permeability b).

Definition set_angularVelocity (v : R) (b : Body) : Body :=
  mkBody (id b) (type b) (center b) (averageCenter b) (friction b) (restitution b) (mass b) (velocity b) (acceleration b) (angle b) (averageAngle b) v (angularAcceleration b) (bounds b) (boundingBox b) (width b) (height b) (inertia b) (faceNormals b) (vertices b) (pinned b) (restingTime b) (static b) (permeability b).

Definition set_boundingBox (v : Vector2) (b : Body) : Body :=
  mkBody (id b) (type b) (center b) (averageCenter b) (friction b) (restitution b) (mass b) (velocity b) (acceleration b) (angle b) (averageAngle b) (angularVelocity b) (angularAcceleration b) (bounds b) v (width b) (height b) (inertia b) (faceNormals b) (vertices b) (pinned b) (restingTime b) (static b) (permeability b).

Definition set_faceNormals (v : list Vector2) (b : Body) : Body :=
  mkBody (id b) (type b) (center b) (averageCenter b) (friction b) (restitution b) (mass b) (velocity b) (acceleration b) (angle b) (averageAngle b) (angularVelocity b) (angularAcceleration b) (bounds b) (boundingBox b) (width b) (height b) (inertia b) v (vertices b) (pinned b) (restingTime b) (static b) (permeability b).

Definition set_vertices (v : list Vector2) (b : Body) : Body :=
  mkBody (id b) (type b) (center b) (averageCenter b) (friction b) (restitution b) (mass b) (velocity b) (acceleration b) (angle b) (averageAngle b) (angularVelocity b) (angularAcceleration b) (bounds b) (boundingBox b) (width b) (height b) (inertia b) (faceNormals b) v (pinned b) (restingTime b) (static b) (permeability b).

Definition set_restingTime (v : R) (b : Body) : Body :=
  mkBody (id b) (type b) (center b) (averageCenter b) (friction b) (restitution b) (mass b) (velocity b) (acceleration b) (angle b) (averageAngle b) (angularVelocity b) (angularAcceleration b) (bounds b) (boundingBox b) (width b) (height b) (inertia b) (faceNormals b) (vertices b) (pinned b) v (static b) (permeability b).

Definition set_mass (v : R) (b : Body) : Body :=
  mkBody (id b) (type b) (center b) (averageCenter b) (friction b) (restitution b) v (velocity b) (acceleration b) (angle b) (averageAngle b) (angularVelocity b) (angularAcceleration b) (bounds b) (boundingBox b) (width b) (height b) (inertia b) (faceNormals b) (vertices b) (pinned b) (restingTime b) (static b) (permeability b).

Definition set_inertia (v : R) (b : Body) : Body :=
  mkBody (id b) (type b) (center b) (averageCenter b) (friction b) (restitution b) (mass b) (velocity b) (acceleration b) (angle b) (averageAngle b) (angularVelocity b) (angularAcceleration b) (bounds b) (boundingBox b) (width b) (height b) v (faceNormals b) (vertices b) (pinned b) (restingTime b) (static b) (permeability b).

Definition set_pinned (v : bool) (b : Body) : Body :=
  mkBody (id b) (type b) (center b) (averageCenter b) (friction b) (restitution b) (mass b) (velocity b) (acceleration b) (angle b) (averageAngle b) (angularVelocity b) (angularAcceleration b) (bounds b) (boundingBox b) (width b) (height b) (inertia b) (faceNormals b) (vertices b) v (restingTime b) (static b) (permeability b).

Definition set_static (v : bool) (b : Body) : Body :=
  mkBody (id b) (type b) (center b) (averageCenter b) (friction b) (restitution b) (mass b) (velocity b) (acceleration b) (angle b) (averageAngle b) (angularVelocity b) (angularAcceleration b) (bounds b) (boundingBox b) (width b) (height b) (inertia b) (faceNormals b) (vertices b) (pinned b) (restingTime b) v (permeability b).


Record World : Type := mkWorld {
  dynamicBodies : list nat;
  staticBodies : list nat;
  disabledBodies : list nat;
  gravity : Vector2;
  angularDamp : R;
  damp : R;
  nextId : Z;
  joints : list Joint
}.

(** The heap of body objects.  Every address denotes a body, as every
    reference of the source does. *)
Definition Heap : Type := nat -> Body.

(** In-place mutation of the body at address [a]. *)
Definition upd (a : nat) (f : Body -> Body) (h : Heap) : Heap :=
  fun a' => if Nat.eqb a' a then f (h a') else h a'.

Definition allBodies (world : World) : list nat :=
  dynamicBodies world ++ staticBodies world ++ disabledBodies world.

Definition enabledBodies (world : World) : list nat :=
  dynamicBodies world ++ staticBodies world.

(** ** Vector arithmetic *)

Definition newVec2 (a b : R) : Vector2 := mkVector2 a b.

Definition addVec2 (v w : Vector2) : Vector2 := newVec2 (x v + x w) (y v + y w).

Definition scaleVec2 (v : Vector2) (n : R) : Vector2 := newVec2 (x v * n) (y v * n).

Definition subtractVec2 (v w : Vector2) : Vector2 := addVec2 v (scaleVec2 w (-1)).

Definition dotProduct (v w : Vector2) : R := x v * x w + y v * y w.

Definition crossProduct (v w : Vector2) : R := x v * y w - y v * x w.

Definition lengthVec2 (v : Vector2) : R := sqrt (dotProduct v v).

Definition rotateVec2 (v center0 : Vector2) (ang : R) : Vector2 :=
  let x0 := x v - x center0 in
  let y0 := y v - y center0 in
  newVec2 (x0 * cos ang - y0 * sin ang + x center0)
          (x0 * sin ang + y0 * cos ang + y center0).

(** The divisor [lengthVec2(v) || 1] of [normalize]. *)
Definition normalizeDivisor (v : Vector2) : R := orElse (lengthVec2 v) 1.

Definition normalize (v : Vector2) : Vector2 :=
  scaleVec2 v (1 / normalizeDivisor v).

(** ** Arrays of vectors *)

(** [arr[i]]; rectangles always carry four vertices and four normals, so
    the default is never read for the indices the source uses. *)
Definition arr_get (l : list Vector2) (i : nat) : Vector2 := nth i l (newVec2 0 0).

(** [arr[i] = v]: replaces slot [i], and extends the array when [i] is
    past its end, as a JavaScript array does. *)
Fixpoint arr_set (i : nat) (v : Vector2) (l : list Vector2) : list Vector2 :=
  match i, l with
  | O, [] => [v]
  | O, _ :: t => v :: t
  | S i', [] => newVec2 0 0 :: arr_set i' v []
  | S i', h :: t => h :: arr_set i' v t
  end.

(** The indices visited by [for (let i = n; i--;)]: n-1 down to 0. *)
Definition countdown (n : nat) : list nat := rev (seq 0 n).

(** ** Body geometry *)

Definition calcBoundingBox (body : Body) : Body :=
  match type body with
  | CIRCLE => set_boundingBox (newVec2 (bounds body) (bounds body)) body
  | RECTANGLE =>
      set_boundingBox
        (fold_left
           (fun bb v =>
              newVec2 (Rmax (x bb) (Rabs (x (center body) - x v)))
                      (Rmax (y bb) (Rabs (y (center body) - y v))))
           (vertices body) (newVec2 0 0))
        body
  end.

Definition computeRectNormals (shape : Body) : Body :=
  fold_left
    (fun b i =>
       set_faceNormals
         (arr_set i
            (normalize (subtractVec2 (arr_get (vertices b) ((i + 1) mod 4))
                                     (arr_get (vertices b) ((i + 2) mod 4))))
            (faceNormals b))
         b)
    (countdown 4) shape.

(** [_moveBody(body, v, force)] *)
Definition _moveBody (body : Body) (v : Vector2) (force : bool) : Body :=
  if negb force && (pinned body || Reqb (mass body) 0) then body
  else
    let body1 := set_center (addVec2 (center body) v) body in
    match type body1 with
    | CIRCLE => body1
    | RECTANGLE =>
        calcBoundingBox
          (fold_left
             (fun b i => set_vertices (arr_set i (addVec2 (arr_get (vertices b) i) v) (vertices b)) b)
             (countdown 4) body1)
    end.

(** The exported [moveBody] always forces the move. *)
Definition moveBody (body : Body) (v : Vector2) : Body := _moveBody body v true.

Definition rotateBody (body : Body) (ang : R) : Body :=
  let body1 := set_angle (angle body + ang) body in
  match type body1 with
  | CIRCLE => body1
  | RECTANGLE =>
      calcBoundingBox
        (computeRectNormals
           (fold_left
              (fun b i => set_vertices (arr_set i (rotateVec2 (arr_get (vertices b) i) (center b) ang) (vertices b)) b)
              (countdown 4) body1))
  end.

(** ** Collision detection *)

(** [setCollisionInfo] fills the (fresh) record of the caller; the embedding
    returns the filled record. *)
Definition setCollisionInfo (D : R) (N S : Vector2) : CollisionDetails :=
  mkCollisionDetails D (newVec2 (x N) (y N)) (newVec2 (x S) (y S))
                     (addVec2 S (scaleVec2 N D)).

Definition boundTest (s1 s2 : Body) : bool :=
  let coincideX := Rltb (Rabs (x (center s1) - x (center s2)))
                        (x (boundingBox s1) + x (boundingBox s2)) in
  let coincideY := Rltb (Rabs (y (center s1) - y (center s2)))
                        (y (boundingBox s1) + y (boundingBox s2)) in
  coincideX && coincideY.

(** The inner loop of [findAxisLeastPenetration]: the vertex of
    [otherRect] with the longest positive projection on [dir]. *)
Definition supportOn (otherRect : Body) (ptOnEdge dir : Vector2) : option Vector2 * R :=
  fold_left
    (fun (acc : option Vector2 * R) j =>
       let vToEdge := subtractVec2 (arr_get (vertices otherRect) j) ptOnEdge in
       let projection := dotProduct vToEdge dir in
       if Rgtb projection 0 && Rgtb projection (snd acc)
       then (Some (arr_get (vertices otherRect) j), projection)
       else acc)
    (countdown 4) (None, -1e9).

(** The outer loop, [for (i = 4; hasSupport && i--;)], on the faces still
    to visit.  The state is [bestDistance] and, once a face was recorded,
    [bestIndex] with its [supportPoint].  The result is [None] when
    [hasSupport] is false at the end of the loop. *)
Fixpoint axisLoop (rect otherRect : Body) (faces : list nat)
    (bestDistance : R) (best : option (nat * Vector2)) : option (R * option (nat * Vector2)) :=
  match faces with
  | [] => Some (bestDistance, best)
  | i :: rest =>
      let n := arr_get (faceNormals rect) i in
      match supportOn otherRect (arr_get (vertices rect) i) (scaleVec2 n (-1)) with
      | (None, _) => None
      | (Some tmpSupportPoint, tmpSupportPointDist) =>
          if Rltb tmpSupportPointDist bestDistance
          then axisLoop rect otherRect rest tmpSupportPointDist (Some (i, tmpSupportPoint))
          else axisLoop rect otherRect rest bestDistance best
      end
  end.

(** When every face has a support point but none was recorded (all
    projections at least 1e9) the source reads [faceNormals[-1]] and raises
    a [TypeError]; the embedding reports no collision there. *)
Definition findAxisLeastPenetration (rect otherRect : Body) : option CollisionDetails :=
  match axisLoop rect otherRect (countdown 4) 1e9 None with
  | Some (bestDistance, Some (bestIndex, supportPoint)) =>
      Some (setCollisionInfo bestDistance (arr_get (faceNormals rect) bestIndex)
              (addVec2 supportPoint (scaleVec2 (arr_get (faceNormals rect) bestIndex) bestDistance)))
  | _ => None
  end.

(** The face loop of the rectangle against circle test, with its [break]:
    the result is [(inside, bestDistance, nearestEdge)]. *)
Fixpoint nearestFace (c1 c2 : Body) (faces : list nat)
    (bestDistance : R) (nearestEdge : nat) : bool * R * nat :=
  match faces with
  | [] => (true, bestDistance, nearestEdge)
  | i :: rest =>
      let v := subtractVec2 (center c2) (arr_get (vertices c1) i) in
      let projection := dotProduct v (arr_get (faceNormals c1) i) in
      if Rgtb projection 0 then (false, projection, i)
      else if Rgtb projection bestDistance then nearestFace c1 c2 rest projection i
      else nearestFace c1 c2 rest bestDistance nearestEdge
  end.

Definition testCircleCircle (c1 c2 : Body) : option CollisionDetails :=
  let vFrom1to2 := subtractVec2 (center c2) (center c1) in
  let rSum := bounds c1 + bounds c2 in
  let dist := lengthVec2 vFrom1to2 in
  if Rleb dist (sqrt (rSum * rSum)) then
    let normalFrom2to1 := normalize (scaleVec2 vFrom1to2 (-1)) in
    let radiusC2 := scaleVec2 normalFrom2to1 (bounds c2) in
    Some (setCollisionInfo (rSum - dist) (normalize vFrom1to2) (addVec2 (center c2) radiusC2))
  else None.

Definition testRectRect (c1 c2 : Body) : option CollisionDetails :=
  match findAxisLeastPenetration c1 c2 with
  | Some collisionInfoR1 =>
      match findAxisLeastPenetration c2 c1 with
      | Some collisionInfoR2 =>
          if Rltb (depth collisionInfoR1) (depth collisionInfoR2)
          then Some (setCollisionInfo (depth collisionInfoR1) (normal collisionInfoR1)
                       (subtractVec2 (start collisionInfoR1)
                          (scaleVec2 (normal collisionInfoR1) (depth collisionInfoR1))))
          else Some (setCollisionInfo (depth collisionInfoR2)
                       (scaleVec2 (normal collisionInfoR2) (-1)) (start collisionInfoR2))
      | None => None
      end
  | None => None
  end.

(** [c1] is the rectangle and [c2] the circle. *)
Definition testRectCircle (c1 c2 : Body) : option CollisionDetails :=
  let '(inside, bestDistance, nearestEdge) := nearestFace c1 c2 (countdown 4) (-1e9) 0%nat in
  let circ2Pos := center c2 in
  if inside then
    Some (setCollisionInfo (bounds c2 - bestDistance) (arr_get (faceNormals c1) nearestEdge)
            (subtractVec2 circ2Pos (scaleVec2 (arr_get (faceNormals c1) nearestEdge) (bounds c2))))
  else
    let v1 := subtractVec2 circ2Pos (arr_get (vertices c1) nearestEdge) in
    let v2 := subtractVec2 (arr_get (vertices c1) ((nearestEdge + 1) mod 4))
                           (arr_get (vertices c1) nearestEdge) in
    if Rltb (dotProduct v1 v2) 0 then
      let dis := lengthVec2 v1 in
      if Rgtb dis (bounds c2) then None
      else
        let normal0 := normalize v1 in
        Some (setCollisionInfo (bounds c2 - dis) normal0
                (addVec2 circ2Pos (scaleVec2 normal0 (- bounds c2))))
    else
      let v1' := subtractVec2 circ2Pos (arr_get (vertices c1) ((nearestEdge + 1) mod 4)) in
      let v2' := scaleVec2 v2 (-1) in
      if Rltb (dotProduct v1' v2') 0 then
        let dis := lengthVec2 v1' in
        if Rgtb dis (bounds c2) then None
        else
          let normal0 := normalize v1' in
          Some (setCollisionInfo (bounds c2 - dis) normal0
                  (addVec2 circ2Pos (scaleVec2 normal0 (- bounds c2))))
      else if Rltb bestDistance (bounds c2) then
        Some (setCollisionInfo (bounds c2 - bestDistance) (arr_get (faceNormals c1) nearestEdge)
                (subtractVec2 circ2Pos (scaleVec2 (arr_get (faceNormals c1) nearestEdge) (bounds c2))))
      else None.

(** [testCollision]: [None] is the source's [false]; [Some info] is [true]
    with the record it filled.  The [world] argument is unused by the
    source. *)
Definition testCollision (c1 c2 : Body) : option CollisionDetails :=
  if Reqb (mass c1) 0 && Reqb (mass c2) 0 then None
  else
    match type c1, type c2 with
    | CIRCLE, CIRCLE => testCircleCircle c1 c2
    | RECTANGLE, RECTANGLE => testRectRect c1 c2
    | CIRCLE, RECTANGLE => testRectCircle c2 c1
    | RECTANGLE, CIRCLE => testRectCircle c1 c2
    end.

(** ** Collision response *)

(** The quantities [resolveCollision] computes, as functions of the two
    bodies [s1], [s2] they are read from and of the contact. *)

Definition correctionAmount (s1 s2 : Body) (collisionInfo : CollisionDetails) : Vector2 :=
  scaleVec2 (normal collisionInfo) (depth collisionInfo / (mass s1 + mass s2) * 0.8).

Definition contactPoint (s1 s2 : Body) (collisionInfo : CollisionDetails) : Vector2 :=
  let start0 := scaleVec2 (start collisionInfo) (mass s2 / (mass s1 + mass s2)) in
  let end0 := scaleVec2 (end_ collisionInfo) (mass s1 / (mass s1 + mass s2)) in
  addVec2 start0 end0.

Definition contactArm (s : Body) (p : Vector2) : Vector2 := subtractVec2 p (center s).

Definition relativeVelocity (s1 s2 : Body) (collisionInfo : CollisionDetails) : Vector2 :=
  let p := contactPoint s1 s2 collisionInfo in
  let r1 := contactArm s1 p in
  let r2 := contactArm s2 p in
  let v1 := addVec2 (velocity s1) (newVec2 (-1 * angularVelocity s1 * y r1) (angularVelocity s1 * x r1)) in
  let v2 := addVec2 (velocity s2) (newVec2 (-1 * angularVelocity s2 * y r2) (angularVelocity s2 * x r2)) in
  subtractVec2 v2 v1.

Definition rVelocityInNormal (s1 s2 : Body) (collisionInfo : CollisionDetails) : R :=
  dotProduct (relativeVelocity s1 s2 collisionInfo) (normal collisionInfo).

Definition newRestituion (s1 s2 : Body) : R := Rmin (restitution s1) (restitution s2).

Definition newFriction (s1 s2 : Body) : R := Rmin (friction s1) (friction s2).

(** The normal impulse scalar [jN]. *)
Definition normalImpulse (s1 s2 : Body) (collisionInfo : CollisionDetails) : R :=
  let n := normal collisionInfo in
  let p := contactPoint s1 s2 collisionInfo in
  let R1crossN := crossProduct (contactArm s1 p) n in
  let R2crossN := crossProduct (contactArm s2 p) n in
  (- (1 + newRestituion s1 s2) * rVelocityInNormal s1 s2 collisionInfo)
  / (mass s1 + mass s2 + R1crossN * R1crossN * inertia s1 + R2crossN * R2crossN * inertia s2).

Definition tangent (s1 s2 : Body) (collisionInfo : CollisionDetails) : Vector2 :=
  let n := normal collisionInfo in
  let rv := relativeVelocity s1 s2 collisionInfo in
  scaleVec2 (normalize (subtractVec2 rv (scaleVec2 n (dotProduct rv n)))) (-1).

(** The friction impulse scalar [jT] as first computed. *)
Definition frictionImpulseRaw (s1 s2 : Body) (collisionInfo : CollisionDetails) : R :=
  let p := contactPoint s1 s2 collisionInfo in
  let t := tangent s1 s2 collisionInfo in
  let R1crossT := crossProduct (contactArm s1 p) t in
  let R2crossT := crossProduct (contactArm s2 p) t in
  (- (1 + newRestituion s1 s2) * dotProduct (relativeVelocity s1 s2 collisionInfo) t * newFriction s1 s2)
  / (mass s1 + mass s2 + R1crossT * R1crossT * inertia s1 + R2crossT * R2crossT * inertia s2).

(** [if (jT > jN) { jT = jN; }] *)
Definition clampFriction (jT jN : R) : R := if Rgtb jT jN then jN else jT.

(** The friction impulse scalar [jT] that is applied. *)
Definition frictionImpulse (s1 s2 : Body) (collisionInfo : CollisionDetails) : R :=
  clampFriction (frictionImpulseRaw s1 s2 collisionInfo) (normalImpulse s1 s2 collisionInfo).

(** The blocks guarded by [!s1.static] and [!s2.static]: [s1] loses the
    impulse, [s2] gains it. *)
Definition subtractImpulse (impulse : Vector2) (Rcross j : R) (s : Body) : Body :=
  let s' := set_velocity (subtractVec2 (velocity s) (scaleVec2 impulse (mass s))) s in
  set_angularVelocity (angularVelocity s' - Rcross * j * inertia s') s'.

Definition addImpulse (impulse : Vector2) (Rcross j : R) (s : Body) : Body :=
  let s' := set_velocity (addVec2 (velocity s) (scaleVec2 impulse (mass s))) s in
  set_angularVelocity (angularVelocity s' + Rcross * j * inertia s') s'.

(** The damping that follows the friction impulse, and the reset of the
    velocity of a pinned body. *)
Definition dampBody (world : World) (s : Body) : Body :=
  let s1 := set_velocity (newVec2 (x (velocity s) * damp world) (y (velocity s) * damp world)) s in
  let s2 := set_angularVelocity (angularVelocity s1 * angularDamp world) s1 in
  if pinned s2 then set_velocity (newVec2 0 0) s2 else s2.

Definition unlessStatic (f : Body -> Body) (s : Body) : Body :=
  if static s then s else f s.

(** The position correction of [resolveCollision]: the two moves are not
    forced.  The second move reads the heap the first one left. *)
Definition correctPositions (s1 s2 : nat) (collisionInfo : CollisionDetails) (h : Heap) : Heap :=
  let correction := correctionAmount (h s1) (h s2) collisionInfo in
  let h1 := upd s1 (fun b => _moveBody b (scaleVec2 correction (- mass b)) false) h in
  upd s2 (fun b => _moveBody b (scaleVec2 correction (mass b)) false) h1.

(** The impulses of [resolveCollision], applied to the heap the position
    correction left, whose bodies at [s1] and [s2] are [b1] and [b2]. *)
Definition applyImpulses (world : World) (s1 s2 : nat) (collisionInfo : CollisionDetails)
    (h2 : Heap) : Heap :=
  let n := normal collisionInfo in
  let b1 := h2 s1 in
  let b2 := h2 s2 in
  let p := contactPoint b1 b2 collisionInfo in
  let r1 := contactArm b1 p in
  let r2 := contactArm b2 p in
  let jN := normalImpulse b1 b2 collisionInfo in
  let h3 := upd s1 (unlessStatic (subtractImpulse (scaleVec2 n jN) (crossProduct r1 n) jN)) h2 in
  let h4 := upd s2 (unlessStatic (addImpulse (scaleVec2 n jN) (crossProduct r2 n) jN)) h3 in
  let t := tangent b1 b2 collisionInfo in
  let jT := frictionImpulse b1 b2 collisionInfo in
  let h5 := upd s1 (unlessStatic (fun s =>
              dampBody world (subtractImpulse (scaleVec2 t jT) (crossProduct r1 t) jT s))) h4 in
  upd s2 (unlessStatic (fun s =>
            dampBody world (addImpulse (scaleVec2 t jT) (crossProduct r2 t) jT s))) h5.

(** [resolveCollision(world, s1, s2, collisionInfo)], on the addresses of
    the two bodies. *)
Definition resolveCollision (world : World) (s1 s2 : nat) (collisionInfo : CollisionDetails)
    (h : Heap) : Heap * bool :=
  if negb (truthy (mass (h s1))) && negb (truthy (mass (h s2))) then (h, false)
  else
    let correction := correctionAmount (h s1) (h s2) collisionInfo in
    if Reqb (x correction) 0 && Reqb (y correction) 0 then (h, false)
    else
      let h2 := correctPositions s1 s2 collisionInfo h in
      if Rgtb (rVelocityInNormal (h2 s1) (h2 s2) collisionInfo) 0 then (h2, false)
      else (applyImpulses world s1 s2 collisionInfo h2, true).

(** ** The simulation step *)

(** The body of the first loop of [worldStep]. *)
Definition integrateBody (fps : R) (body : Body) : Body :=
  let b1 := set_velocity (addVec2 (velocity body) (scaleVec2 (acceleration body) (1 / fps))) body in
  let b2 := _moveBody b1 (scaleVec2 (velocity b1) (1 / fps)) false in
  let b3 := set_angularVelocity (angularVelocity b2 + angularAcceleration b2 * 1 / fps) b2 in
  rotateBody b3 (angularVelocity b3 * 1 / fps).

Definition integrate (fps : R) (world : World) (h : Heap) : Heap :=
  fold_left (fun h0 body => upd body (integrateBody fps) h0) (dynamicBodies world) h.

(** [world.joints.filter(j => j.bodyA === body.id || j.bodyB === body.id)] *)
Definition jointsOf (world : World) (bodyId : Z) : list Joint :=
  filter (fun j => Z.eqb (bodyA j) bodyId || Z.eqb (bodyB j) bodyId) (joints world).

(** [all.find(b => b.id === otherId)] *)
Definition findBody (all : list nat) (otherId : Z) (h : Heap) : option nat :=
  find (fun b => Z.eqb (id (h b)) otherId) all.

Definition applyJoint (fps : R) (all : list nat) (body : nat) (joint : Joint) (h : Heap) : Heap :=
  let otherId := if Z.eqb (bodyA joint) (id (h body)) then bodyB joint else bodyA joint in
  match findBody all otherId h with
  | Some other =>
      let vec := subtractVec2 (center (h other)) (center (h body)) in
      let distance0 := lengthVec2 vec in
      let diff := distance0 - distance joint in
      if negb (Reqb diff 0) then
        let vec' :=
          if Rgtb diff 0
          then scaleVec2 vec ((1 / distance0) * diff * (1 - elasticity joint)
                              * (if Reqb (mass (h other)) 0 then 1 else 0.5))
          else scaleVec2 vec ((1 / distance0) * diff * rigidity joint
                              * (if Reqb (mass (h other)) 0 then 1 else 0.5)) in
        let h1 := upd body (fun b => _moveBody b vec' false) h in
        upd body (fun b => set_velocity (addVec2 (velocity b) (scaleVec2 vec' fps)) b) h1
      else h
  | None => h
  end.

Definition applyJoints (fps : R) (world : World) (all : list nat) (h : Heap) : Heap :=
  fold_left
    (fun h0 body =>
       fold_left (fun h1 joint => applyJoint fps all body joint h1)
                 (jointsOf world (id (h0 body))) h0)
    (dynamicBodies world) h.

(** The pass-through branch: the velocity of [bodyI] is scaled in place. *)
Definition passThrough (k : R) (b : Body) : Body :=
  let b1 := set_velocity (newVec2 (x (velocity b) * (1 - k)) (y (velocity b))) b in
  let b2 := set_velocity (newVec2 (x (velocity b1)) (y (velocity b1) * (1 - k))) b1 in
  set_angularVelocity (angularVelocity b2 * (1 - k)) b2.

(** The normal is made to point from [bodyI] to [bodyJ]. *)
Definition orient (collisionInfo : CollisionDetails) (bodyI bodyJ : Body) : CollisionDetails :=
  if Rltb (dotProduct (normal collisionInfo) (subtractVec2 (center bodyJ) (center bodyI))) 0
  then mkCollisionDetails (depth collisionInfo) (scaleVec2 (normal collisionInfo) (-1))
                          (end_ collisionInfo) (start collisionInfo)
  else collisionInfo.

(** The state of a resolution pass: the heap, the [collisions] array and
    the [collision] flag of the pass. *)
Definition PassState : Type := (Heap * list Collision * bool)%type.

(** The body of the inner loop, for the indices [i] and [j].  The loops
    keep [i] and [j] within the two arrays, so the default of [nth] is
    never read. *)
Definition collidePair (world : World) (all : list nat) (i j : nat) (st : PassState) : PassState :=
  let '(h, collisions, collision) := st in
  if Nat.eqb i j then st
  else
    let bodyI := nth i (dynamicBodies world) 0%nat in
    let bodyJ := nth j all 0%nat in
    if boundTest (h bodyI) (h bodyJ) then
      match testCollision (h bodyI) (h bodyJ) with
      | Some collisionInfo =>
          if Rgtb (permeability (h bodyJ)) 0
          then (upd bodyI (passThrough (permeability (h bodyJ))) h, collisions, collision)
          else
            let collisionInfo' := orient collisionInfo (h bodyI) (h bodyJ) in
            let '(h', resolved) := resolveCollision world bodyI bodyJ collisionInfo' h in
            if resolved
            then (h', collisions ++ [mkCollision (id (h' bodyI)) (id (h' bodyJ)) (depth collisionInfo')], true)
            else (h', collisions, collision)
      | None => st
      end
    else st.

(** The indices visited by [for (let j = n; j-- > i;)]: n-1 down to i. *)
Definition countdownTo (i n : nat) : list nat := rev (seq i (n - i)).

(** One pass over the pairs; the [collision] flag starts at [false]. *)
Definition collisionPass (world : World) (all : list nat) (st : Heap * list Collision)
    : PassState :=
  fold_left
    (fun st0 i =>
       fold_left (fun st1 j => collidePair world all i j st1)
                 (countdownTo i (length all)) st0)
    (countdown (length (dynamicBodies world)))
    (fst st, snd st, false).

(** [for (let k = 9; k--;)] with its [break], on the passes [k] still
    allowed.  The first component counts the passes that were run. *)
Fixpoint resolveLoop (k : nat) (world : World) (all : list nat) (st : Heap * list Collision)
    : nat * (Heap * list Collision) :=
  match k with
  | O => (O, st)
  | S k' =>
      let '(h, collisions, collision) := collisionPass world all st in
      if collision
      then let '(n, st') := resolveLoop k' world all (h, collisions) in (S n, st')
      else (1%nat, (h, collisions))
  end.

(** The body of the last loop of [worldStep]. *)
Definition trackBody (fps : R) (body : Body) : Body :=
  if Rgtb (mass body) 0 then
    let b1 := set_restingTime (restingTime body + 1 / fps) body in
    let b2 :=
      if Rgtb (Rabs (x (center b1) - x (averageCenter b1))) 1
      then set_restingTime 0
             (set_averageCenter (newVec2 (x (center b1)) (y (averageCenter b1))) b1)
      else b1 in
    let b3 :=
      if Rgtb (Rabs (y (center b2) - y (averageCenter b2))) 1
      then set_restingTime 0
             (set_averageCenter (newVec2 (x (averageCenter b2)) (y (center b2))) b2)
      else b2 in
    if Rgeb (Rabs (angle b3 - averageAngle b3)) 0.1
    then set_restingTime 0 (set_averageAngle (angle b3) b3)
    else b3
  else
    let b1 := set_averageCenter (newVec2 (x (center body)) (y (averageCenter body))) body in
    let b2 := set_averageCenter (newVec2 (x (averageCenter b1)) (y (center b1))) b1 in
    set_averageAngle (angle b2) b2.

Definition trackStability (fps : R) (world : World) (h : Heap) : Heap :=
  fold_left (fun h0 body => upd body (trackBody fps) h0) (allBodies world) h.

(** The step up to the end of the resolution loop, with the number of
    passes the loop ran. *)
Definition stepPhysics (fps : R) (world : World) (h : Heap) : nat * (Heap * list Collision) :=
  let all := enabledBodies world in
  let h1 := integrate fps world h in
  let h2 := applyJoints fps world all h1 in
  resolveLoop 9 world all (h2, []).

Definition worldStep (fps : R) (world : World) (h : Heap) : Heap * list Collision :=
  let '(_, (h3, collisions)) := stepPhysics fps world h in
  (trackStability fps world h3, collisions).

(** ** World management *)

(** [createJoint]; the defaults of [rigidity] and [elasticity] are [1]
    and [0]. *)
Definition createJoint (world : World) (bA bB : nat) (rigidity0 elasticity0 : R) (h : Heap) : World :=
  mkWorld (dynamicBodies world) (staticBodies world) (disabledBodies world)
          (gravity world) (angularDamp world) (damp world) (nextId world)
          (joints world ++
           [mkJoint (id (h bA)) (id (h bB))
                    (lengthVec2 (subtractVec2 (center (h bA)) (center (h bB))) + 0.5)
                    rigidity0 elasticity0]).

(** [list.findIndex(p)]: [None] is the source's [-1]. *)
Fixpoint findIndex {A : Type} (p : A -> bool) (l : list A) : option nat :=
  match l with
  | [] => None
  | a :: t => if p a then Some O else option_map S (findIndex p t)
  end.

(** [list.splice(index, 1)] *)
Definition splice1 {A : Type} (index : nat) (l : list A) : list A :=
  firstn index l ++ skipn (S index) l.

Definition removeBody (world : World) (body : nat) (h : Heap) : World :=
  let list0 := if static (h body) then staticBodies world else dynamicBodies world in
  match findIndex (fun b => Z.eqb (id (h b)) (id (h body))) list0 with
  | Some index =>
      if static (h body)
      then mkWorld (dynamicBodies world) (splice1 index list0) (disabledBodies world)
                   (gravity world) (angularDamp world) (damp world) (nextId world) (joints world)
      else mkWorld (splice1 index list0) (staticBodies world) (disabledBodies world)
                   (gravity world) (angularDamp world) (damp world) (nextId world) (joints world)
  | None => world
  end.

(** [list.includes(body)], [list.indexOf(body)]: by identity of the object. *)
Definition includes (l : list nat) (body : nat) : bool := existsb (Nat.eqb body) l.

Definition indexOf (l : list nat) (body : nat) : option nat := findIndex (Nat.eqb body) l.

Definition removeRef (l : list nat) (body : nat) : list nat :=
  match indexOf l body with
  | Some index => splice1 index l
  | None => l
  end.

Definition disableBody (world : World) (body : nat) : World :=
  mkWorld (removeRef (dynamicBodies world) body)
          (removeRef (staticBodies world) body)
          (if includes (disabledBodies world) body then disabledBodies world
           else disabledBodies world ++ [body])
          (gravity world) (angularDamp world) (damp world) (nextId world) (joints world).

Definition enableBody (world : World) (body : nat) (h : Heap) : World :=
  mkWorld (if negb (static (h body)) && negb (includes (dynamicBodies world) body)
           then dynamicBodies world ++ [body] else dynamicBodies world)
          (if static (h body) && negb (includes (staticBodies world) body)
           then staticBodies world ++ [body] else staticBodies world)
          (removeRef (disabledBodies world) body)
          (gravity world) (angularDamp world) (damp world) (nextId world) (joints world).

Definition calculateInertia (type0 : ShapeType) (mass0 bounds0 width0 height0 : R) : R :=
  match type0 with
  | RECTANGLE =>
      if Rgtb mass0 0 then 1 / (mass0 * (width0 ^ 2 + height0 ^ 2) / 12) else 0
  | CIRCLE =>
      if Rgtb mass0 0 then (mass0 * bounds0 ^ 2) / 12 else 0
  end.

(** [allowPinnedRotation]: the body is looked up by its id in the static
    collection, and the [mass] passed is stored as it is. *)
Definition allowPinnedRotation (world : World) (id0 : Z) (mass0 : R) (h : Heap) : World * Heap :=
  match find (fun b => Z.eqb (id (h b)) id0) (staticBodies world) with
  | Some body =>
      let h1 := upd body (set_mass mass0) h in
      let h2 := upd body (fun b => set_inertia
                            (calculateInertia (type b) (mass b) (bounds b) (width b) (height b)) b) h1 in
      let h3 := upd body (set_pinned true) h2 in
      let h4 := upd body (set_static false) h3 in
      (mkWorld (dynamicBodies world ++ [body]) (removeRef (staticBodies world) body)
               (disabledBodies world)
               (gravity world) (angularDamp world) (damp world) (nextId world) (joints world),
       h4)
  | None => (world, h)
  end.

(** ** Well-formed worlds and invariants *)

(** The identifiers of the bodies of the world are pairwise distinct: a
    body is in one collection only, and once. *)
Definition uniqueIds (world : World) (h : Heap) : Prop :=
  NoDup (map (fun b => id (h b)) (allBodies world)).

(** [f] changes neither the center, nor the angle, nor the inverse mass,
    nor the flags, nor the identifier of a body. *)
Definition keepsPose (f : Body -> Body) : Prop :=
  forall b, center (f b) = center b /\ angle (f b) = angle b /\ mass (f b) = mass b
            /\ pinned (f b) = pinned b /\ static (f b) = static b /\ id (f b) = id b.

(** [f] does so at least on the bodies of inverse mass zero. *)
Definition keepsStaticPose (f : Body -> Body) : Prop :=
  forall b, mass b = 0 ->
            center (f b) = center b /\ angle (f b) = angle b /\ mass (f b) = mass b.

(** The body at [r] has inverse mass zero, center [c] and angle [a]. *)
Definition fixedAt (r : nat) (c : Vector2) (a : R) (h : Heap) : Prop :=
  center (h r) = c /\ angle (h r) = a /\ mass (h r) = 0.

(** The three drift tests of the last loop of [worldStep]. *)
Definition driftX (b : Body) : bool := Rgtb (Rabs (x (center b) - x (averageCenter b))) 1.
Definition driftY (b : Body) : bool := Rgtb (Rabs (y (center b) - y (averageCenter b))) 1.
Definition driftAngle (b : Body) : bool := Rgeb (Rabs (angle b - averageAngle b)) 0.1.

(** The heap and the [collisions] array a pass leaves, and the [collision]
    flag it ends with. *)
Definition passResult (world : World) (all : list nat) (st : Heap * list Collision)
    : Heap * list Collision :=
  fst (collisionPass world all st).

Definition passFlag (world : World) (all : list nat) (st : Heap * list Collision) : bool :=
  snd (collisionPass world all st).

(** The state after [m] passes, whatever their flags. *)
Fixpoint afterPasses (m : nat) (world : World) (all : list nat) (st : Heap * list Collision)
    : Heap * list Collision :=
  match m with
  | O => st
  | S m' => passResult world all (afterPasses m' world all st)
  end.

(** The state [worldStep] enters the resolution loop with. *)
Definition beforeLoop (fps : R) (world : World) (h : Heap) : Heap * list Collision :=
  (applyJoints fps world (enabledBodies world) (integrate fps world h), []).

(** ** Sample bodies and worlds *)

(** A circle of mass 1 at rest, as [createCircle] leaves it when the world
    has the default gravity. *)
Definition circleAt (i : Z) (cx cy r : R) : Body :=
  mkBody i CIRCLE (newVec2 cx cy) (newVec2 cx cy) 0.2 0.5 1 (newVec2 0 0) (newVec2 0 100)
         0 0 0 0 r (newVec2 r r) 0 0 (1 * (r * r) / 12)
         [] [newVec2 cx cy; newVec2 cx cy; newVec2 cx cy; newVec2 cx cy]
         false 0 false 0.

(** A circle of mass 0, as [createCircle] leaves it: static, with inverse
    mass and inertia 0. *)
Definition staticCircleAt (i : Z) (cx cy r : R) : Body :=
  mkBody i CIRCLE (newVec2 cx cy) (newVec2 cx cy) 0.2 0.5 0 (newVec2 0 0) (newVec2 0 0)
         0 0 0 0 r (newVec2 r r) 0 0 0
         [] [newVec2 cx cy; newVec2 cx cy; newVec2 cx cy; newVec2 cx cy]
         false 9007199254740991 true 0.

(** Two overlapping circles of mass 1, 15 apart, and the contact
    [testCollision] reports for them. *)
Definition ballA : Body := circleAt 1 0 0 10.
Definition ballB : Body := circleAt 2 15 0 10.

Definition ballContact : CollisionDetails :=
  mkCollisionDetails 5 (newVec2 1 0) (newVec2 5 0) (newVec2 10 0).

Definition twoBallHeap : Heap := fun a => if Nat.eqb a 0 then ballA else ballB.

(** A world with two dynamic bodies, at the addresses 0 and 1. *)
Definition twoBodyWorld : World :=
  mkWorld [0%nat; 1%nat] [] [] (newVec2 0 100) 0.98 0.98 3 [].

(** Two overlapping static circles, two circles of negative radius on one
    point, and two circles of radius 10 on one point. *)
Definition wallA : Body := staticCircleAt 1 0 0 10.
Definition wallB : Body := staticCircleAt 2 15 0 10.
Definition hollowA : Body := circleAt 1 0 0 (-1).
Definition hollowB : Body := circleAt 2 0 0 (-1).
Definition twinA : Body := circleAt 1 0 0 10.
Definition twinB : Body := circleAt 2 0 0 10.

(** A ball against a static wall. *)
Definition wallWorld : World :=
  mkWorld [0%nat] [1%nat] [] (newVec2 0 100) 0.98 0.98 3 [].

Definition wallHeap : Heap := fun a => if Nat.eqb a 0 then ballA else wallB.

(** A world whose only body is disabled. *)
Definition oneDisabled : World :=
  mkWorld [] [] [0%nat] (newVec2 0 100) 0.98 0.98 2 [].

Definition oneCircleHeap : Heap := fun _ => circleAt 1 0 0 10.

(** Two circles of radius 1 and mass 1 with a friction coefficient of -1;
    the first one slides along the second.  [skidContact] is the contact
    [testCollision] reports for them, and [skidA'] and [skidB'] are the
    bodies after the position correction of that contact. *)
Definition skidA : Body :=
  mkBody 1 CIRCLE (newVec2 0 0) (newVec2 0 0) (-1) 0.5 1 (newVec2 1 10) (newVec2 0 100)
         0 0 0 0 1 (newVec2 1 1) 0 0 (1 / 12)
         [] [newVec2 0 0; newVec2 0 0; newVec2 0 0; newVec2 0 0]
         false 0 false 0.

Definition skidB : Body :=
  mkBody 2 CIRCLE (newVec2 1.5 0) (newVec2 1.5 0) (-1) 0.5 1 (newVec2 0 0) (newVec2 0 100)
         0 0 0 0 1 (newVec2 1 1) 0 0 (1 / 12)
         [] [newVec2 1.5 0; newVec2 1.5 0; newVec2 1.5 0; newVec2 1.5 0]
         false 0 false 0.

Definition skidHeap : Heap := fun a => if Nat.eqb a 0 then skidA else skidB.

Definition skidContact : CollisionDetails :=
  mkCollisionDetails 0.5 (newVec2 1 0) (newVec2 0.5 0) (newVec2 1 0).

Definition skidA' : Body := set_center (newVec2 (-0.2) 0) skidA.
Definition skidB' : Body := set_center (newVec2 1.7 0) skidB.

(** A static circle that [allowPinnedRotation] pinned with a mass of 1,
    in front of [ballB]. *)
Definition anchorWorld : World :=
  mkWorld [] [0%nat] [] (newVec2 0 100) 0.98 0.98 2 [].

Definition anchorHeap : Heap := fun _ => staticCircleAt 1 0 0 10.

Definition pinnedA : Body :=
  mkBody 1 CIRCLE (newVec2 0 0) (newVec2 0 0) 0.2 0.5 1 (newVec2 0 0) (newVec2 0 0)
         0 0 0 0 10 (newVec2 10 10) 0 0 (1 * 10 ^ 2 / 12)
         [] [newVec2 0 0; newVec2 0 0; newVec2 0 0; newVec2 0 0]
         true 9007199254740991 false 0.

Definition pinHeap : Heap := fun a => if Nat.eqb a 0 then pinnedA else ballB.

(** A body of mass 1 that has drifted by 5 along x, by 0.5 along y and by
    0.05 in angle since its averages were taken. *)
Definition drifter : Body :=
  mkBody 1 CIRCLE (newVec2 5 0.5) (newVec2 0 0) 0.2 0.5 1 (newVec2 0 0) (newVec2 0 100)
         0.05 0 0 0 10 (newVec2 10 10) 0 0 (1 * (10 * 10) / 12)
         [] [newVec2 5 0.5; newVec2 5 0.5; newVec2 5 0.5; newVec2 5 0.5]
         false 3 false 0.

Definition drifterHeap : Heap := fun _ => drifter.

(** Two overlapping circles of mass 1 at rest in a world without gravity;
    the first one has a permeability of 1. *)
Definition gateA : Body :=
  mkBody 1 CIRCLE (newVec2 0 0) (newVec2 0 0) 0.2 0.5 1 (newVec2 0 0) (newVec2 0 0)
         0 0 0 0 10 (newVec2 10 10) 0 0 (1 * (10 * 10) / 12)
         [] [newVec2 0 0; newVec2 0 0; newVec2 0 0; newVec2 0 0]
         false 0 false 1.

Definition gateB : Body :=
  mkBody 2 CIRCLE (newVec2 15 0) (newVec2 15 0) 0.2 0.5 1 (newVec2 0 0) (newVec2 0 0)
         0 0 0 0 10 (newVec2 10 10) 0 0 (1 * (10 * 10) / 12)
         [] [newVec2 15 0; newVec2 15 0; newVec2 15 0; newVec2 15 0]
         false 0 false 0.

Definition gateHeap : Heap := fun a => if Nat.eqb a 0 then gateA else gateB.

Definition gateWorld : World :=
  mkWorld [0%nat; 1%nat] [] [] (newVec2 0 0) 0.98 0.98 3 [].

(** ** Creation and queries *)

(** [Math.floor] and [Math.hypot] on two arguments. *)
Definition floor (a : R) : R := IZR (Int_part a).

Definition hypot (a b : R) : R := sqrt (a ^ 2 + b ^ 2).

(** [createWorld(gravity)]; [None] is the omitted argument. *)
Definition createWorld (gravity0 : option Vector2) : World :=
  mkWorld [] [] []
          (match gravity0 with Some g => g | None => newVec2 0 100 end)
          0.98 0.98 1 [].

(** [createRigidBody]: the new body is returned, and is not added to any
    collection of the world; the world only advances its [nextId].  The
    argument [mass0] is the mass, the field [mass] its inverse. *)
Definition createRigidBody (world : World) (center0 : Vector2)
    (mass0 friction0 restitution0 : R) (type0 : ShapeType) (bounds0 width0 height0 : R)
    : World * Body :=
  let body :=
    mkBody (nextId world) type0 center0 (newVec2 (x center0) (y center0))
           friction0 restitution0
           (if truthy mass0 then 1 / mass0 else 0)
           (newVec2 0 0)
           (if truthy mass0 then gravity world else newVec2 0 0)
           0 0 0 0
           bounds0 (newVec2 0 0) width0 height0
           (calculateInertia type0 mass0 bounds0 width0 height0)
           []
           [newVec2 (x center0 - width0 / 2) (y center0 - height0 / 2);
            newVec2 (x center0 + width0 / 2) (y center0 - height0 / 2);
            newVec2 (x center0 + width0 / 2) (y center0 + height0 / 2);
            newVec2 (x center0 - width0 / 2) (y center0 + height0 / 2)]
           false
           (if Reqb mass0 0 then 9007199254740991 else 0)
           (Reqb mass0 0)
           0 in
  let body1 := calcBoundingBox body in
  let body2 := match type0 with
               | CIRCLE => body1
               | RECTANGLE => computeRectNormals body1
               end in
  (mkWorld (dynamicBodies world) (staticBodies world) (disabledBodies world)
           (gravity world) (angularDamp world) (damp world) (nextId world + 1) (joints world),
   body2).

Definition createCircle (world : World) (center0 : Vector2)
    (radius mass0 friction0 restitution0 : R) : World * Body :=
  createRigidBody world (newVec2 (floor (x center0)) (floor (y center0)))
                  mass0 friction0 restitution0 CIRCLE (floor radius) 0 0.

Definition createRectangle (world : World) (center0 : Vector2)
    (width0 height0 mass0 friction0 restitution0 : R) : World * Body :=
  createRigidBody world (newVec2 (floor (x center0)) (floor (y center0)))
                  mass0 friction0 restitution0 RECTANGLE
                  (hypot (floor width0) (floor height0) / 2) (floor width0) (floor height0).

(** [addBody], on the address of the body. *)
Definition addBody (world : World) (body : nat) (h : Heap) : World :=
  if static (h body)
  then mkWorld (dynamicBodies world) (staticBodies world ++ [body]) (disabledBodies world)
               (gravity world) (angularDamp world) (damp world) (nextId world) (joints world)
  else mkWorld (dynamicBodies world ++ [body]) (staticBodies world) (disabledBodies world)
               (gravity world) (angularDamp world) (damp world) (nextId world) (joints world).

(** [atRest(world, forSeconds)]; the default of [forSeconds] is 1. *)
Definition atRest (world : World) (forSeconds : R) (h : Heap) : bool :=
  match find (fun b => Rltb (restingTime (h b)) forSeconds) (dynamicBodies world) with
  | Some _ => false
  | None => true
  end.

(** The loop of [getWorldBounds] over the bodies, on the pair [(min, max)]. *)
Definition growBounds (h : Heap) (mm : Vector2 * Vector2) (body : nat) : Vector2 * Vector2 :=
  match type (h body) with
  | CIRCLE =>
      (newVec2 (Rmin (x (fst mm)) (x (center (h body)) - bounds (h body)))
               (Rmin (y (fst mm)) (y (center (h body)) - bounds (h body))),
       newVec2 (Rmax (x (snd mm)) (x (center (h body)) + bounds (h body)))
               (Rmax (y (snd mm)) (y (center (h body)) + bounds (h body))))
  | RECTANGLE =>
      fold_left
        (fun (acc : Vector2 * Vector2) vert =>
           (newVec2 (Rmin (x (fst acc)) (x vert)) (Rmin (y (fst acc)) (y vert)),
            newVec2 (Rmax (x (snd acc)) (x vert)) (Rmax (y (snd acc)) (y vert))))
        (vertices (h body)) mm
  end.

Definition getWorldBounds (world : World) (staticOnly : bool) (h : Heap) : Vector2 * Vector2 :=
  let bodies := if staticOnly then staticBodies world else allBodies world in
  match bodies with
  | [] => (newVec2 0 0, newVec2 0 0)
  | body :: _ =>
      fold_left (growBounds h) bodies
        (newVec2 (x (center (h body)) - bounds (h body)) (y (center (h body)) - bounds (h body)),
         newVec2 (x (center (h body)) + bounds (h body)) (y (center (h body)) + bounds (h body)))
  end.

(** ** Consistent rectangles *)

(** The face normals and the bounding box [computeRectNormals] and
    [calcBoundingBox] derive from four vertices and a center. *)
Definition normalsOf (vs : list Vector2) : list Vector2 :=
  [normalize (subtractVec2 (arr_get vs 1) (arr_get vs 2));
   normalize (subtractVec2 (arr_get vs 2) (arr_get vs 3));
   normalize (subtractVec2 (arr_get vs 3) (arr_get vs 0));
   normalize (subtractVec2 (arr_get vs 0) (arr_get vs 1))].

Definition bboxOf (c : Vector2) (vs : list Vector2) : Vector2 :=
  fold_left
    (fun bb v => newVec2 (Rmax (x bb) (Rabs (x c - x v))) (Rmax (y bb) (Rabs (y c - y v))))
    vs (newVec2 0 0).

(** A rectangle whose derived geometry agrees with its vertices. *)
Definition consistentRect (b : Body) : Prop :=
  type b = RECTANGLE /\ length (vertices b) = 4%nat
  /\ faceNormals b = normalsOf (vertices b)
  /\ boundingBox b = bboxOf (center b) (vertices b).

(** The fields no function of the step assigns. *)
Definition constantsOf (b : Body) :=
  (id b, type b, (friction b, restitution b, mass b, inertia b),
   (acceleration b, angularAcceleration b), (bounds b, width b, height b),
   (pinned b, static b, permeability b)).

(** The fields that describe the motion of a body, and the fields of its
    rest tracking. *)
Definition motionOf (b : Body) := (velocity b, angularVelocity b, angle b).

Definition restOf (b : Body) := (averageCenter b, averageAngle b, restingTime b).

(** [Q] is kept by every assignment the step makes to a body. *)
Definition stepInvariant (Q : Body -> Prop) : Prop :=
  (forall b v, Q b -> Q (_moveBody b v false))
  /\ (forall b a, Q b -> Q (rotateBody b a))
  /\ (forall b v, Q b -> Q (set_velocity v b))
  /\ (forall b w, Q b -> Q (set_angularVelocity w b))
  /\ (forall b t, Q b -> Q (set_restingTime t b))
  /\ (forall b c, Q b -> Q (set_averageCenter c b))
  /\ (forall b a, Q b -> Q (set_averageAngle a b)).


(** What a record of the [collisions] array says of the heap [h] the step
    started from: it names a dynamic body and another enabled body that is
    not permeable, and its depth is not negative. *)
Definition reportedBy (world : World) (h : Heap) (c : Collision) : Prop :=
  exists a b,
    In a (dynamicBodies world) /\ In b (enabledBodies world) /\ a <> b
    /\ bodyAId c = id (h a) /\ bodyBId c = id (h b)
    /\ Rgtb (permeability (h b)) 0 = false
    /\ 0 <= cdepth c.

(** A moving circle that overlaps a circle with a permeability of 0.5. *)
Definition probe : Body :=
  mkBody 1 CIRCLE (newVec2 0 0) (newVec2 0 0) 0.2 0.5 1 (newVec2 6 8) (newVec2 0 0)
         0 0 2 0 10 (newVec2 10 10) 0 0 (1 * (10 * 10) / 12)
         [] [newVec2 0 0; newVec2 0 0; newVec2 0 0; newVec2 0 0]
         false 0 false 0.

Definition veil : Body :=
  mkBody 2 CIRCLE (newVec2 15 0) (newVec2 15 0) 0.2 0.5 1 (newVec2 0 0) (newVec2 0 0)
         0 0 0 0 10 (newVec2 10 10) 0 0 (1 * (10 * 10) / 12)
         [] [newVec2 15 0; newVec2 15 0; newVec2 15 0; newVec2 15 0]
         false 0 false 0.5.

Definition veilHeap : Heap := fun a => if Nat.eqb a 0 then probe else veil.

(** A ball of mass 1 hanging 15 from a static anchor, on a joint of length
    10 that does not stretch. *)
Definition ropeJoint : Joint := mkJoint 1 2 10 1 0.

Definition ropeHeap : Heap := fun a => if Nat.eqb a 0 then ballA else wallB.

(** ** Boxes *)

(** The point [p] lies in the box [(min, max)]; the box [mm] lies within
    the box [mm']. *)
Definition inBox (mm : Vector2 * Vector2) (p : Vector2) : Prop :=
  x (fst mm) <= x p <= x (snd mm) /\ y (fst mm) <= y p <= y (snd mm).

Definition boxWithin (mm mm' : Vector2 * Vector2) : Prop :=
  x (fst mm') <= x (fst mm) /\ y (fst mm') <= y (fst mm)
  /\ x (snd mm) <= x (snd mm') /\ y (snd mm) <= y (snd mm').

(** What [getWorldBounds] takes into account of a body: the square around
    a circle, the vertices of a rectangle. *)
Definition coveredBy (mm : Vector2 * Vector2) (b : Body) : Prop :=
  match type b with
  | CIRCLE =>
      x (fst mm) <= x (center b) - bounds b /\ y (fst mm) <= y (center b) - bounds b
      /\ x (center b) + bounds b <= x (snd mm) /\ y (center b) + bounds b <= y (snd mm)
  | RECTANGLE => forall v, In v (vertices b) -> inBox mm v
  end.

(** ** Sliding contacts *)

(** The two circles of [skidA] and [skidB] with a friction coefficient of
    1, and the bodies after the position correction of their contact. *)
Definition gripA : Body :=
  mkBody 1 CIRCLE (newVec2 0 0) (newVec2 0 0) 1 0.5 1 (newVec2 1 10) (newVec2 0 100)
         0 0 0 0 1 (newVec2 1 1) 0 0 (1 / 12)
         [] [newVec2 0 0; newVec2 0 0; newVec2 0 0; newVec2 0 0]
         false 0 false 0.

Definition gripB : Body :=
  mkBody 2 CIRCLE (newVec2 1.5 0) (newVec2 1.5 0) 1 0.5 1 (newVec2 0 0) (newVec2 0 100)
         0 0 0 0 1 (newVec2 1 1) 0 0 (1 / 12)
         [] [newVec2 1.5 0; newVec2 1.5 0; newVec2 1.5 0; newVec2 1.5 0]
         false 0 false 0.



(** The first circle, pinned while it still has its velocity. *)
Definition latchA : Body := set_pinned true gripA.

Definition latchHeap : Heap := fun a => if Nat.eqb a 0 then latchA else gripB.

(** A static circle of inverse mass zero in the place of the second one,
    with a velocity and an angular velocity of its own. *)
Definition beltB : Body :=
  mkBody 2 CIRCLE (newVec2 1.5 0) (newVec2 1.5 0) 1 0.5 0 (newVec2 0 3) (newVec2 0 0)
         0 0 2 0 1 (newVec2 1 1) 0 0 0
         [] [newVec2 1.5 0; newVec2 1.5 0; newVec2 1.5 0; newVec2 1.5 0]
         false 9007199254740991 true 0.

Definition beltHeap : Heap := fun a => if Nat.eqb a 0 then gripA else beltB.
(** * Properties *)

(** ** Comparisons and the heap *)

Lemma Rltb_true (a b : R) : Rltb a b = true <-> a < b.
Proof. unfold Rltb. destruct (Rlt_dec a b); split; intros; try discriminate; auto; lra. Qed.

Lemma Rgtb_true (a b : R) : Rgtb a b = true <-> a > b.
Proof. unfold Rgtb. destruct (Rgt_dec a b); split; intros; try discriminate; auto; lra. Qed.

Lemma Rleb_true (a b : R) : Rleb a b = true <-> a <= b.
Proof. unfold Rleb. destruct (Rle_dec a b); split; intros; try discriminate; auto; lra. Qed.

Lemma Rgeb_true (a b : R) : Rgeb a b = true <-> a >= b.
Proof. unfold Rgeb. destruct (Rge_dec a b); split; intros; try discriminate; auto; lra. Qed.

Lemma Reqb_true (a b : R) : Reqb a b = true <-> a = b.
Proof. unfold Reqb. destruct (Req_dec_T a b); split; intros; try discriminate; auto; lra. Qed.

Lemma Rltb_false (a b : R) : Rltb a b = false <-> ~ a < b.
Proof. rewrite <- Rltb_true. destruct (Rltb a b); split; intros; congruence. Qed.

Lemma Rgtb_false (a b : R) : Rgtb a b = false <-> ~ a > b.
Proof. rewrite <- Rgtb_true. destruct (Rgtb a b); split; intros; congruence. Qed.

Lemma Rleb_false (a b : R) : Rleb a b = false <-> ~ a <= b.
Proof. rewrite <- Rleb_true. destruct (Rleb a b); split; intros; congruence. Qed.

Lemma Rgeb_false (a b : R) : Rgeb a b = false <-> ~ a >= b.
Proof. rewrite <- Rgeb_true. destruct (Rgeb a b); split; intros; congruence. Qed.

Lemma Reqb_false (a b : R) : Reqb a b = false <-> a <> b.
Proof. rewrite <- Reqb_true. destruct (Reqb a b); split; intros; congruence. Qed.

Lemma truthy_false (a : R) : truthy a = false <-> a = 0.
Proof. unfold truthy. rewrite negb_false_iff. apply Reqb_true. Qed.

Lemma truthy_true (a : R) : truthy a = true <-> a <> 0.
Proof. unfold truthy. rewrite negb_true_iff. apply Reqb_false. Qed.

Lemma upd_same (a : nat) (f : Body -> Body) (h : Heap) : upd a f h a = f (h a).
Proof. unfold upd. now rewrite Nat.eqb_refl. Qed.

Lemma upd_other (a a' : nat) (f : Body -> Body) (h : Heap) :
  a' <> a -> upd a f h a' = h a'.
Proof. intros H. unfold upd. apply Nat.eqb_neq in H. now rewrite H. Qed.

Lemma vec_eta (v : Vector2) : newVec2 (x v) (y v) = v.
Proof. now destruct v. Qed.

Lemma vec_eq (v w : Vector2) : x v = x w -> y v = y w -> v = w.
Proof. destruct v, w; simpl; intros; subst; reflexivity. Qed.

Lemma body_ext (b b' : Body) :
  id b = id b' ->
  type b = type b' ->
  center b = center b' ->
  averageCenter b = averageCenter b' ->
  friction b = friction b' ->
  restitution b = restitution b' ->
  mass b = mass b' ->
  velocity b = velocity b' ->
  acceleration b = acceleration b' ->
  angle b = angle b' ->
  averageAngle b = averageAngle b' ->
  angularVelocity b = angularVelocity b' ->
  angularAcceleration b = angularAcceleration b' ->
  bounds b = bounds b' ->
  boundingBox b = boundingBox b' ->
  width b = width b' ->
  height b = height b' ->
  inertia b = inertia b' ->
  faceNormals b = faceNormals b' ->
  vertices b = vertices b' ->
  pinned b = pinned b' ->
  restingTime b = restingTime b' ->
  static b = static b' ->
  permeability b = permeability b' ->
  b = b'.
Proof. destruct b, b'; simpl; intros; subst; reflexivity. Qed.

(** ** Vectors *)

Lemma dotProduct_self_nonneg (v : Vector2) : 0 <= dotProduct v v.
Proof. unfold dotProduct. nra. Qed.

Lemma lengthVec2_nonneg (v : Vector2) : 0 <= lengthVec2 v.
Proof. apply sqrt_pos. Qed.

Lemma lengthVec2_zero (v : Vector2) : lengthVec2 v = 0 -> v = newVec2 0 0.
Proof.
  intros H. apply sqrt_eq_0 in H; [| apply dotProduct_self_nonneg].
  unfold dotProduct in H. apply vec_eq; simpl; nra.
Qed.

Lemma scaleVec2_one (v : Vector2) : scaleVec2 v 1 = v.
Proof. apply vec_eq; simpl; lra. Qed.





(** ** Joints *)

Lemma lengthVec2_subtract (v w : Vector2) :
  lengthVec2 (subtractVec2 v w)
  = sqrt ((x v - x w) * (x v - x w) + (y v - y w) * (y v - y w)).
Proof. unfold lengthVec2, dotProduct, subtractVec2; simpl. f_equal. ring. Qed.

Lemma lengthVec2_subtract_sym (v w : Vector2) :
  lengthVec2 (subtractVec2 v w) = lengthVec2 (subtractVec2 w v).
Proof. rewrite !lengthVec2_subtract. f_equal. ring. Qed.

(** C9. [createJoint] appends one joint whose target distance is the
    distance between the two centers at creation time plus 0.5.  The
    function takes no target distance: whatever rigidity and elasticity are
    passed, the joint sees the creation-time pose as 0.5 too short. *)
Theorem createJoint_target_distance (world : World) (bA bB : nat) (rig el : R) (h : Heap) :
  exists j : Joint,
    joints (createJoint world bA bB rig el h) = joints world ++ [j]
    /\ bodyA j = id (h bA) /\ bodyB j = id (h bB)
    /\ rigidity j = rig /\ elasticity j = el
    /\ distance j = lengthVec2 (subtractVec2 (center (h bA)) (center (h bB))) + 0.5
    /\ distance j
       = sqrt ((x (center (h bA)) - x (center (h bB))) * (x (center (h bA)) - x (center (h bB)))
               + (y (center (h bA)) - y (center (h bB))) * (y (center (h bA)) - y (center (h bB))))
         + 1 / 2
    /\ lengthVec2 (subtractVec2 (center (h bB)) (center (h bA))) - distance j = - (1 / 2)
    /\ 1 / 2 <= distance j.
Proof.
  eexists. split; [reflexivity|]. simpl. repeat split.
  - rewrite lengthVec2_subtract. lra.
  - rewrite (lengthVec2_subtract_sym (center (h bB))). lra.
  - pose proof (lengthVec2_nonneg (subtractVec2 (center (h bA)) (center (h bB)))). lra.
Qed.

(** ** Removing bodies *)

Lemma findIndex_none {A : Type} (p : A -> bool) (l : list A) :
  (forall a, In a l -> p a = false) -> findIndex p l = None.
Proof.
  induction l as [|a t IH]; intros H; simpl; [reflexivity|].
  rewrite (H a (or_introl eq_refl)). rewrite IH; [reflexivity|].
  intros b Hb. apply H. now right.
Qed.

Lemma NoDup_map_app_distinct {A B : Type} (f : A -> B) (l1 l2 : list A) (a b : A) :
  NoDup (map f (l1 ++ l2)) -> In a l1 -> In b l2 -> f a <> f b.
Proof.
  induction l1 as [|c t IH]; simpl; intros Hnd Ha Hb; [contradiction|].
  inversion Hnd as [|? ? Hnotin Hnd']; subst.
  destruct Ha as [->|Ha].
  - intros Heq. apply Hnotin. rewrite Heq. apply in_map. apply in_or_app. now right.
  - now apply IH.
Qed.

Lemma uniqueIds_disabled_apart (world : World) (h : Heap) (body b : nat) :
  uniqueIds world h -> In body (disabledBodies world) ->
  In b (enabledBodies world) -> id (h b) <> id (h body).
Proof.
  unfold uniqueIds, allBodies, enabledBodies. intros Hnd Hd Hb.
  rewrite app_assoc in Hnd.
  exact (NoDup_map_app_distinct (fun b0 => id (h b0)) _ _ b body Hnd Hb Hd).
Qed.

Lemma includes_false (l : list nat) (body : nat) : ~ In body l -> includes l body = false.
Proof.
  intros Hn. unfold includes. destruct (existsb (Nat.eqb body) l) eqn:E; [|reflexivity].
  apply existsb_exists in E as (a & Ha & Heq). apply Nat.eqb_eq in Heq. subst a. contradiction.
Qed.

Lemma findIndex_app_last {A : Type} (p : A -> bool) (l : list A) (b : A) :
  (forall a, In a l -> p a = false) -> p b = true ->
  findIndex p (l ++ [b]) = Some (length l).
Proof.
  induction l as [|a t IH]; intros Hl Hb; simpl.
  - now rewrite Hb.
  - rewrite (Hl a (or_introl eq_refl)). rewrite IH; [reflexivity| |exact Hb].
    intros a0 Ha0. apply Hl. now right.
Qed.

Lemma splice1_app_last {A : Type} (l : list A) (b : A) : splice1 (length l) (l ++ [b]) = l.
Proof.
  unfold splice1. induction l as [|a t IH]; simpl; [reflexivity|].
  f_equal. exact IH.
Qed.

Lemma removeRef_removes (l : list nat) (body : nat) : NoDup l -> ~ In body (removeRef l body).
Proof.
  unfold removeRef, indexOf. induction l as [|a t IH]; intros Hnd; simpl; [tauto|].
  inversion Hnd as [|? ? Hnotin Hnd']; subst.
  destruct (Nat.eqb body a) eqn:E.
  - apply Nat.eqb_eq in E. subst a. unfold splice1. simpl. exact Hnotin.
  - apply Nat.eqb_neq in E. specialize (IH Hnd').
    destruct (findIndex (Nat.eqb body) t) as [i|]; simpl.
    + unfold splice1 in *. simpl. intros [H|H]; [now apply E | now apply IH].
    + intros [H|H]; [now apply E | now apply IH].
Qed.

Lemma uniqueIds_parts (world : World) (h : Heap) (body : nat) :
  uniqueIds world h -> In body (disabledBodies world) ->
  ~ In body (dynamicBodies world) /\ ~ In body (staticBodies world)
  /\ NoDup (disabledBodies world).
Proof.
  intros Hu Hd.
  assert (Hen : ~ In body (enabledBodies world)).
  { intros Hin. now apply (uniqueIds_disabled_apart world h body body Hu Hd Hin). }
  unfold enabledBodies in Hen. split; [|split].
  - intros H. apply Hen. apply in_or_app. now left.
  - intros H. apply Hen. apply in_or_app. now right.
  - unfold uniqueIds, allBodies in Hu. apply NoDup_map_inv in Hu.
    apply NoDup_app_remove_l in Hu. now apply NoDup_app_remove_l in Hu.
Qed.

(** [disableBody] leaves the body in the disabled collection. *)
Lemma disableBody_disables (world : World) (body : nat) :
  In body (disabledBodies (disableBody world body)).
Proof.
  unfold disableBody. simpl. unfold includes.
  destruct (existsb (Nat.eqb body) (disabledBodies world)) eqn:E.
  - apply existsb_exists in E as (a & Ha & Heq). apply Nat.eqb_eq in Heq. now subst a.
  - apply in_or_app. right. now left.
Qed.

(** Once the body is enabled again, [removeBody] takes it out of the world. *)
Lemma removeBody_after_enable (world : World) (body : nat) (h : Heap) :
  uniqueIds world h ->
  In body (disabledBodies world) ->
  ~ In body (allBodies (removeBody (enableBody world body h) body h)).
Proof.
  intros Hu Hd.
  destruct (uniqueIds_parts world h body Hu Hd) as (Hdyn & Hst & Hnd).
  pose proof (removeRef_removes (disabledBodies world) body Hnd) as Hrem.
  assert (Hids : forall l, (forall a, In a l -> In a (enabledBodies world)) ->
                 forall a, In a l -> Z.eqb (id (h a)) (id (h body)) = false).
  { intros l Hl a Ha. apply Z.eqb_neq.
    apply (uniqueIds_disabled_apart world h body a Hu Hd). now apply Hl. }
  unfold removeBody, enableBody. cbn [staticBodies dynamicBodies disabledBodies].
  destruct (static (h body)) eqn:Es; cbn [negb andb].
  - rewrite (includes_false _ _ Hst). cbn [negb].
    rewrite findIndex_app_last.
    + rewrite splice1_app_last. unfold allBodies. cbn [staticBodies dynamicBodies disabledBodies].
      intros Hin. apply in_app_or in Hin as [H|H]; [contradiction|].
      apply in_app_or in H as [H|H]; contradiction.
    + apply Hids. intros a Ha. unfold enabledBodies. apply in_or_app. now right.
    + apply Z.eqb_refl.
  - rewrite (includes_false _ _ Hdyn). cbn [negb].
    rewrite findIndex_app_last.
    + rewrite splice1_app_last. unfold allBodies. cbn [staticBodies dynamicBodies disabledBodies].
      intros Hin. apply in_app_or in Hin as [H|H]; [contradiction|].
      apply in_app_or in H as [H|H]; contradiction.
    + apply Hids. intros a Ha. unfold enabledBodies. apply in_or_app. now left.
    + apply Z.eqb_refl.
Qed.

(** C10. [removeBody] on a body of the disabled collection leaves the
    world as it is: only the dynamic or the static collection is searched,
    so the body is still among [allBodies] afterwards.  Removal takes
    effect once the body is enabled again. *)
Theorem removeBody_disabled_noop (world : World) (body : nat) (h : Heap) :
  uniqueIds world h ->
  In body (disabledBodies world) ->
  removeBody world body h = world
  /\ In body (disabledBodies (removeBody world body h))
  /\ In body (allBodies (removeBody world body h))
  /\ ~ In body (allBodies (removeBody (enableBody world body h) body h)).
Proof.
  intros Hu Hd.
  assert (Heq : removeBody world body h = world).
  { unfold removeBody. rewrite findIndex_none; [reflexivity|].
    intros b Hb. apply Z.eqb_neq.
    apply (uniqueIds_disabled_apart world h body b Hu Hd).
    unfold enabledBodies. apply in_or_app.
    destruct (static (h body)); [now right | now left]. }
  rewrite Heq. split; [reflexivity|]. split; [assumption|]. split.
  - unfold allBodies. apply in_or_app. right. apply in_or_app. now right.
  - now apply removeBody_after_enable.
Qed.

Lemma removeBody_disabled_noop_witness :
  removeBody oneDisabled 0%nat oneCircleHeap = oneDisabled
  /\ In 0%nat (disabledBodies (removeBody oneDisabled 0%nat oneCircleHeap))
  /\ In 0%nat (allBodies (removeBody oneDisabled 0%nat oneCircleHeap))
  /\ ~ In 0%nat (allBodies (removeBody (enableBody oneDisabled 0%nat oneCircleHeap)
                                       0%nat oneCircleHeap)).
Proof.
  apply (removeBody_disabled_noop oneDisabled 0%nat oneCircleHeap).
  - unfold uniqueIds, oneDisabled, allBodies; simpl.
    constructor; [intros [] | constructor].
  - simpl. now left.
Defined.

(** ** Circle against circle *)

Lemma sqrt_square_abs (a : R) : sqrt (a * a) = Rabs a.
Proof. exact (sqrt_Rsqr_abs a). Qed.

Lemma sqrt_le_bound (a b : R) : 0 <= b -> a <= b * b -> sqrt a <= b.
Proof.
  intros Hb Hab. rewrite <- (sqrt_square b Hb). now apply sqrt_le_1_alt.
Qed.

Lemma lengthVec2_scale (v : Vector2) (k : R) :
  lengthVec2 (scaleVec2 v k) = Rabs k * lengthVec2 v.
Proof.
  unfold lengthVec2, dotProduct; simpl.
  replace (x v * k * (x v * k) + y v * k * (y v * k))
    with ((k * k) * (x v * x v + y v * y v)) by ring.
  rewrite sqrt_mult_alt by nra. now rewrite sqrt_square_abs.
Qed.

Lemma normalize_unit (v : Vector2) : lengthVec2 v <> 0 -> lengthVec2 (normalize v) = 1.
Proof.
  intros H. pose proof (lengthVec2_nonneg v) as Hn.
  unfold normalize, normalizeDivisor, orElse. apply truthy_true in H as Ht. rewrite Ht.
  rewrite lengthVec2_scale. rewrite Rabs_right.
  - field. exact H.
  - apply Rle_ge. apply Rlt_le. apply Rdiv_lt_0_compat; lra.
Qed.

Lemma normalize_zero (v : Vector2) : lengthVec2 v = 0 -> normalize v = newVec2 0 0.
Proof.
  intros H. pose proof (lengthVec2_zero v H) as Hv.
  unfold normalize, normalizeDivisor. apply vec_eq; simpl; rewrite Hv; simpl; ring.
Qed.

Lemma scale_subtract_flip (v w : Vector2) :
  scaleVec2 (subtractVec2 v w) (-1) = subtractVec2 w v.
Proof. apply vec_eq; simpl; ring. Qed.

Lemma setCollisionInfo_depth (D : R) (N S : Vector2) : depth (setCollisionInfo D N S) = D.
Proof. reflexivity. Qed.

Lemma setCollisionInfo_normal (D : R) (N S : Vector2) : normal (setCollisionInfo D N S) = N.
Proof. unfold setCollisionInfo. simpl. apply vec_eta. Qed.

Lemma setCollisionInfo_start (D : R) (N S : Vector2) : start (setCollisionInfo D N S) = S.
Proof. unfold setCollisionInfo. simpl. apply vec_eta. Qed.

Lemma setCollisionInfo_end (D : R) (N S : Vector2) :
  end_ (setCollisionInfo D N S) = addVec2 S (scaleVec2 N D).
Proof. reflexivity. Qed.

Lemma testCollision_circles_eq (c1 c2 : Body) :
  type c1 = CIRCLE -> type c2 = CIRCLE -> ~ (mass c1 = 0 /\ mass c2 = 0) ->
  testCollision c1 c2 = testCircleCircle c1 c2.
Proof.
  intros H1 H2 Hm. unfold testCollision. rewrite H1, H2.
  destruct (Reqb (mass c1) 0) eqn:E1; destruct (Reqb (mass c2) 0) eqn:E2; simpl; try reflexivity.
  exfalso. apply Hm. split; now apply Reqb_true.
Qed.

(** C2, as the code has it.  For two circles that are not both of inverse
    mass zero, [testCollision] reports a collision exactly when the
    distance of the centers is at most [sqrt ((r1 + r2)^2)], which is
    [|r1 + r2|], and is [r1 + r2] when that sum is not negative.  The depth
    is [r1 + r2 - dist], the normal is the normalised vector from [c1] to
    [c2], and the start point is the center of [c2] plus [r2] times the
    normalised vector from [c2] to [c1]: a point at distance [|r2|] from
    the center of [c2] when the centers differ, and the center itself when
    they coincide.  Two circles of inverse mass zero are never reported to
    collide. *)
Theorem testCollision_circles (c1 c2 : Body) :
  type c1 = CIRCLE -> type c2 = CIRCLE ->
  (mass c1 = 0 /\ mass c2 = 0 -> testCollision c1 c2 = None)
  /\
  (~ (mass c1 = 0 /\ mass c2 = 0) ->
  ((exists info, testCollision c1 c2 = Some info)
   <-> lengthVec2 (subtractVec2 (center c2) (center c1))
       <= sqrt ((bounds c1 + bounds c2) * (bounds c1 + bounds c2)))
  /\ sqrt ((bounds c1 + bounds c2) * (bounds c1 + bounds c2)) = Rabs (bounds c1 + bounds c2)
  /\ (0 <= bounds c1 + bounds c2 ->
      ((exists info, testCollision c1 c2 = Some info)
       <-> lengthVec2 (subtractVec2 (center c2) (center c1)) <= bounds c1 + bounds c2))
  /\ (forall info, testCollision c1 c2 = Some info ->
        depth info = bounds c1 + bounds c2 - lengthVec2 (subtractVec2 (center c2) (center c1))
        /\ normal info = normalize (subtractVec2 (center c2) (center c1))
        /\ start info
           = addVec2 (center c2)
                     (scaleVec2 (normalize (subtractVec2 (center c1) (center c2))) (bounds c2))
        /\ end_ info = addVec2 (start info) (scaleVec2 (normal info) (depth info))
        /\ (lengthVec2 (subtractVec2 (center c2) (center c1)) <> 0 ->
            lengthVec2 (normalize (subtractVec2 (center c1) (center c2))) = 1
            /\ lengthVec2 (subtractVec2 (start info) (center c2)) = Rabs (bounds c2))
        /\ (lengthVec2 (subtractVec2 (center c2) (center c1)) = 0 ->
            start info = center c2))).
Proof.
  intros H1 H2. split.
  { intros [Ha Hb]. unfold testCollision. apply Reqb_true in Ha, Hb. now rewrite Ha, Hb. }
  intros Hm. rewrite (testCollision_circles_eq c1 c2 H1 H2 Hm).
  set (dist := lengthVec2 (subtractVec2 (center c2) (center c1))).
  set (rSum := bounds c1 + bounds c2).
  assert (Hiff : (exists info, testCircleCircle c1 c2 = Some info) <-> dist <= sqrt (rSum * rSum)).
  { unfold testCircleCircle. fold dist. fold rSum.
    destruct (Rleb dist (sqrt (rSum * rSum))) eqn:E.
    - apply Rleb_true in E. split; [intros _; exact E | intros _; eexists; reflexivity].
    - apply Rleb_false in E. split; [intros [info Hi]; discriminate | intros; contradiction]. }
  split; [exact Hiff|]. split; [apply sqrt_square_abs|]. split.
  { intros Hr. rewrite Hiff. rewrite sqrt_square_abs, Rabs_right by lra. reflexivity. }
  intros info Hinfo. unfold testCircleCircle in Hinfo. fold dist in Hinfo. fold rSum in Hinfo.
  destruct (Rleb dist (sqrt (rSum * rSum))); [|discriminate].
  injection Hinfo as <-.
  rewrite setCollisionInfo_depth, setCollisionInfo_normal, setCollisionInfo_start,
    setCollisionInfo_end, scale_subtract_flip.
  fold dist. fold rSum.
  split; [reflexivity|]. split; [reflexivity|]. split; [reflexivity|]. split; [reflexivity|].
  split.
  - intros Hd.
    assert (Hd' : lengthVec2 (subtractVec2 (center c1) (center c2)) <> 0)
      by (rewrite lengthVec2_subtract_sym; exact Hd).
    split; [now apply normalize_unit|].
    match goal with |- lengthVec2 ?v = _ =>
      replace v with (scaleVec2 (normalize (subtractVec2 (center c1) (center c2))) (bounds c2))
        by (apply vec_eq; simpl; ring) end.
    rewrite lengthVec2_scale, normalize_unit by exact Hd'. lra.
  - intros Hz. rewrite normalize_zero by (rewrite lengthVec2_subtract_sym; exact Hz).
    apply vec_eq; simpl; ring.
Qed.

Lemma testCircleCircle_some (c1 c2 : Body) :
  lengthVec2 (subtractVec2 (center c2) (center c1))
  <= sqrt ((bounds c1 + bounds c2) * (bounds c1 + bounds c2)) ->
  testCircleCircle c1 c2
  = Some (setCollisionInfo
            (bounds c1 + bounds c2 - lengthVec2 (subtractVec2 (center c2) (center c1)))
            (normalize (subtractVec2 (center c2) (center c1)))
            (addVec2 (center c2)
               (scaleVec2 (normalize (scaleVec2 (subtractVec2 (center c2) (center c1)) (-1)))
                          (bounds c2)))).
Proof.
  intros H. unfold testCircleCircle. apply Rleb_true in H. now rewrite H.
Qed.

Lemma sqrt_value (a b : R) : 0 <= b -> a = b * b -> sqrt a = b.
Proof. intros Hb ->. now apply sqrt_square. Qed.

Lemma length_ball_gap : lengthVec2 (subtractVec2 (center ballB) (center ballA)) = 15.
Proof. rewrite lengthVec2_subtract. simpl. apply sqrt_value; lra. Qed.

Lemma testCollision_circles_witness :
  exists info, testCollision ballA ballB = Some info /\ depth info = 5.
Proof.
  assert (Hm : ~ (mass ballA = 0 /\ mass ballB = 0)) by (simpl; lra).
  destruct (testCollision_circles ballA ballB eq_refl eq_refl) as (_ & Hcol).
  destruct (Hcol Hm) as (Hiff & Habs & _ & Hinfo).
  assert (Hex : exists info, testCollision ballA ballB = Some info).
  { apply Hiff. rewrite Habs, length_ball_gap. simpl.
    rewrite Rabs_right; lra. }
  destruct Hex as [info Hi]. exists info. split; [exact Hi|].
  destruct (Hinfo info Hi) as (Hd & _). rewrite Hd, length_ball_gap. simpl. lra.
Defined.

(** C2 as stated fails in three places: two static circles that overlap
    are reported apart; two circles whose radii sum to a negative number
    are reported to collide though the distance exceeds the sum; and for
    two circles on one point the start point is the center of the second
    circle, not a point of its surface. *)
Lemma testCollision_circles_counterexample :
  (type wallA = CIRCLE /\ type wallB = CIRCLE
   /\ lengthVec2 (subtractVec2 (center wallB) (center wallA)) <= bounds wallA + bounds wallB
   /\ lengthVec2 (subtractVec2 (center wallB) (center wallA))
      <= sqrt ((bounds wallA + bounds wallB) * (bounds wallA + bounds wallB))
   /\ testCollision wallA wallB = None)
  /\ (type hollowA = CIRCLE /\ type hollowB = CIRCLE
      /\ (exists info, testCollision hollowA hollowB = Some info)
      /\ ~ lengthVec2 (subtractVec2 (center hollowB) (center hollowA))
           <= bounds hollowA + bounds hollowB)
  /\ (type twinA = CIRCLE /\ type twinB = CIRCLE
      /\ exists info, testCollision twinA twinB = Some info
           /\ bounds twinB = 10
           /\ lengthVec2 (subtractVec2 (start info) (center twinB)) = 0).
Proof.
  split; [|split].
  - assert (Hlen : lengthVec2 (subtractVec2 (center wallB) (center wallA)) = 15)
      by (rewrite lengthVec2_subtract; simpl; apply sqrt_value; lra).
    repeat split; try reflexivity.
    + rewrite Hlen. simpl. lra.
    + rewrite Hlen, sqrt_square_abs. simpl. rewrite Rabs_right; lra.
    + unfold testCollision. simpl mass.
      assert (E : Reqb 0 0 = true) by now apply Reqb_true. now rewrite E.
  - assert (Hlen : lengthVec2 (subtractVec2 (center hollowB) (center hollowA)) = 0)
      by (rewrite lengthVec2_subtract; simpl; apply sqrt_value; lra).
    repeat split; try reflexivity.
    + rewrite testCollision_circles_eq by (try reflexivity; simpl; lra).
      rewrite testCircleCircle_some; [eexists; reflexivity|].
      rewrite Hlen. apply sqrt_pos.
    + rewrite Hlen. simpl. lra.
  - assert (Hlen : lengthVec2 (subtractVec2 (center twinB) (center twinA)) = 0)
      by (rewrite lengthVec2_subtract; simpl; apply sqrt_value; lra).
    repeat split; try reflexivity.
    rewrite testCollision_circles_eq by (try reflexivity; simpl; lra).
    rewrite testCircleCircle_some by (rewrite Hlen; apply sqrt_pos).
    eexists. split; [reflexivity|]. split; [reflexivity|].
    rewrite setCollisionInfo_start, scale_subtract_flip.
    rewrite normalize_zero by (rewrite lengthVec2_subtract_sym; exact Hlen).
    rewrite lengthVec2_subtract. simpl. apply sqrt_value; lra.
Qed.

(** ** The friction impulse *)


Lemma normalize_known (v : Vector2) (L : R) :
  0 < L -> dotProduct v v = L * L -> normalize v = scaleVec2 v (1 / L).
Proof.
  intros HL Hd. assert (Hlen : lengthVec2 v = L).
  { unfold lengthVec2. apply sqrt_value; lra. }
  unfold normalize, normalizeDivisor, orElse. rewrite Hlen.
  assert (Ht : truthy L = true) by (apply truthy_true; lra). now rewrite Ht.
Qed.

Lemma Reqb_neq (a b : R) : a <> b -> Reqb a b = false.
Proof. apply Reqb_false. Qed.

Lemma moveBody_circle_free (b : Body) (v : Vector2) :
  type b = CIRCLE -> pinned b = false -> mass b <> 0 ->
  _moveBody b v false = set_center (addVec2 (center b) v) b.
Proof.
  intros Ht Hp Hm. unfold _moveBody. rewrite Hp, (Reqb_neq _ _ Hm). simpl.
  now rewrite Ht.
Qed.

Lemma skid_corrected :
  correctPositions 0 1 skidContact skidHeap 0%nat = skidA'
  /\ correctPositions 0 1 skidContact skidHeap 1%nat = skidB'.
Proof.
  unfold correctPositions. split.
  - rewrite upd_other by discriminate. rewrite upd_same.
    rewrite moveBody_circle_free by (simpl; try reflexivity; lra).
    unfold skidA'. f_equal. apply vec_eq; simpl; lra.
  - rewrite upd_same. rewrite upd_other by discriminate.
    rewrite moveBody_circle_free by (simpl; try reflexivity; lra).
    unfold skidB'. f_equal. apply vec_eq; simpl; lra.
Qed.

Lemma skid_relativeVelocity :
  relativeVelocity skidA' skidB' skidContact = newVec2 (-1) (-10).
Proof. apply vec_eq; simpl; lra. Qed.




(** [resolveCollision] returns [true] exactly when it reaches the impulses. *)
Lemma resolveCollision_resolved (world : World) (s1 s2 : nat) (info : CollisionDetails) (h : Heap) :
  snd (resolveCollision world s1 s2 info h) = true
  <-> (~ (mass (h s1) = 0 /\ mass (h s2) = 0)
       /\ ~ (x (correctionAmount (h s1) (h s2) info) = 0
             /\ y (correctionAmount (h s1) (h s2) info) = 0)
       /\ rVelocityInNormal (correctPositions s1 s2 info h s1)
                            (correctPositions s1 s2 info h s2) info <= 0).
Proof.
  unfold resolveCollision.
  destruct (negb (truthy (mass (h s1))) && negb (truthy (mass (h s2)))) eqn:Em.
  { apply andb_true_iff in Em as [Ea Eb].
    apply negb_true_iff, truthy_false in Ea. apply negb_true_iff, truthy_false in Eb.
    simpl. split; [discriminate | intros (H & _); exfalso; apply H; now split]. }
  assert (Hm : ~ (mass (h s1) = 0 /\ mass (h s2) = 0)).
  { intros [Ha Hb]. apply truthy_false in Ha, Hb. rewrite Ha, Hb in Em. discriminate. }
  destruct (Reqb (x (correctionAmount (h s1) (h s2) info)) 0
            && Reqb (y (correctionAmount (h s1) (h s2) info)) 0) eqn:Ec.
  { apply andb_true_iff in Ec as [Ea Eb]. apply Reqb_true in Ea, Eb.
    simpl. split; [discriminate | intros (_ & H & _); exfalso; apply H; now split]. }
  assert (Hc : ~ (x (correctionAmount (h s1) (h s2) info) = 0
                  /\ y (correctionAmount (h s1) (h s2) info) = 0)).
  { intros [Ha Hb]. apply Reqb_true in Ha, Hb. rewrite Ha, Hb in Ec. discriminate. }
  destruct (Rgtb (rVelocityInNormal (correctPositions s1 s2 info h s1)
                    (correctPositions s1 s2 info h s2) info) 0) eqn:Ev; simpl.
  - apply Rgtb_true in Ev. split; [discriminate | intros (_ & _ & H); lra].
  - apply Rgtb_false in Ev. split; [intros _ | reflexivity].
    split; [exact Hm|]. split; [exact Hc|]. lra.
Qed.


Lemma skid_resolved : snd (resolveCollision twoBodyWorld 0 1 skidContact skidHeap) = true.
Proof.
  apply resolveCollision_resolved. destruct skid_corrected as [-> ->].
  split; [simpl; lra|]. split; [simpl; lra|].
  unfold rVelocityInNormal. rewrite skid_relativeVelocity. unfold dotProduct; simpl. lra.
Qed.

(** ** What the parts of the step leave in place *)

Lemma calcBoundingBox_fields (b : Body) :
  center (calcBoundingBox b) = center b /\ angle (calcBoundingBox b) = angle b
  /\ mass (calcBoundingBox b) = mass b /\ pinned (calcBoundingBox b) = pinned b
  /\ static (calcBoundingBox b) = static b /\ id (calcBoundingBox b) = id b.
Proof. unfold calcBoundingBox. destruct (type b); simpl; repeat split. Qed.

Lemma center_moveBody (b : Body) (v : Vector2) :
  center (_moveBody b v false)
  = if pinned b || Reqb (mass b) 0 then center b else addVec2 (center b) v.
Proof.
  unfold _moveBody. simpl negb. rewrite andb_true_l.
  destruct (pinned b || Reqb (mass b) 0); [reflexivity|].
  cbn [type set_center]. destruct (type b); [reflexivity|].
  destruct (calcBoundingBox_fields
              (fold_left
                 (fun b0 i => set_vertices (arr_set i (addVec2 (arr_get (vertices b0) i) v) (vertices b0)) b0)
                 (countdown 4) (set_center (addVec2 (center b) v) b))) as (-> & _).
  reflexivity.
Qed.

Lemma moveBody_other_fields (b : Body) (v : Vector2) (force : bool) :
  angle (_moveBody b v force) = angle b /\ mass (_moveBody b v force) = mass b
  /\ pinned (_moveBody b v force) = pinned b /\ static (_moveBody b v force) = static b
  /\ id (_moveBody b v force) = id b.
Proof.
  unfold _moveBody.
  destruct (negb force && (pinned b || Reqb (mass b) 0)); [repeat split|].
  cbn [type set_center]. destruct (type b); [repeat split|].
  destruct (calcBoundingBox_fields
              (fold_left
                 (fun b0 i => set_vertices (arr_set i (addVec2 (arr_get (vertices b0) i) v) (vertices b0)) b0)
                 (countdown 4) (set_center (addVec2 (center b) v) b))) as (_ & -> & -> & -> & -> & ->).
  repeat split.
Qed.

Lemma moveBody_static (b : Body) (v : Vector2) : mass b = 0 -> _moveBody b v false = b.
Proof.
  intros Hm. unfold _moveBody. apply Reqb_true in Hm. rewrite Hm.
  now rewrite orb_true_r.
Qed.

Lemma moveBody_pinned (b : Body) (v : Vector2) : pinned b = true -> _moveBody b v false = b.
Proof. intros Hp. unfold _moveBody. now rewrite Hp. Qed.

Lemma keepsPose_static (f : Body -> Body) : keepsPose f -> keepsStaticPose f.
Proof. intros H b _. destruct (H b) as (? & ? & ? & _). auto. Qed.

Lemma keepsStaticPose_moveBody (v : Body -> Vector2) :
  keepsStaticPose (fun b => _moveBody b (v b) false).
Proof. intros b Hm. rewrite moveBody_static by exact Hm. auto. Qed.

Lemma keepsPose_unlessStatic (f : Body -> Body) : keepsPose f -> keepsPose (unlessStatic f).
Proof.
  intros H b. unfold unlessStatic. destruct (H b) as (? & ? & ? & ? & ? & ?).
  destruct (static b) eqn:E; repeat split; congruence.
Qed.

Lemma keepsPose_subtractImpulse (i : Vector2) (c j : R) : keepsPose (subtractImpulse i c j).
Proof. intros b. repeat split. Qed.

Lemma keepsPose_addImpulse (i : Vector2) (c j : R) : keepsPose (addImpulse i c j).
Proof. intros b. repeat split. Qed.

Lemma keepsPose_dampBody (world : World) : keepsPose (dampBody world).
Proof. intros b. unfold dampBody. cbn. destruct (pinned b) eqn:E; cbn; repeat split; congruence. Qed.

Lemma keepsPose_compose (f g : Body -> Body) :
  keepsPose f -> keepsPose g -> keepsPose (fun b => g (f b)).
Proof.
  intros Hf Hg b.
  destruct (Hf b) as (? & ? & ? & ? & ? & ?), (Hg (f b)) as (? & ? & ? & ? & ? & ?).
  repeat split; congruence.
Qed.

Lemma keepsPose_passThrough (k : R) : keepsPose (passThrough k).
Proof. intros b. repeat split. Qed.

Lemma keepsPose_trackBody (fps : R) : keepsPose (trackBody fps).
Proof.
  intros b. unfold trackBody.
  repeat match goal with |- context [if ?c then _ else _] => destruct c eqn:? end;
    cbn; repeat split; congruence.
Qed.

Lemma upd_keepsPose (a : nat) (f : Body -> Body) (h : Heap) (a' : nat) :
  keepsPose f ->
  center (upd a f h a') = center (h a') /\ angle (upd a f h a') = angle (h a')
  /\ mass (upd a f h a') = mass (h a') /\ pinned (upd a f h a') = pinned (h a')
  /\ static (upd a f h a') = static (h a')
  /\ id (upd a f h a') = id (h a').
Proof.
  intros Hf. unfold upd. destruct (Nat.eqb a' a); [apply Hf | repeat split].
Qed.

Lemma upd_fixedAt (r : nat) (c : Vector2) (ang : R) (a : nat) (f : Body -> Body) (h : Heap) :
  keepsStaticPose f -> fixedAt r c ang h -> fixedAt r c ang (upd a f h).
Proof.
  intros Hf (Hc & Ha & Hm). unfold fixedAt, upd.
  destruct (Nat.eqb r a); [|now repeat split].
  destruct (Hf (h r) Hm) as (-> & -> & ->). now repeat split.
Qed.

Lemma upd_twice_keepsPose (s1 s2 : nat) (f1 f2 : Body -> Body) (h : Heap) (a : nat) :
  keepsPose f1 -> keepsPose f2 ->
  center (upd s2 f2 (upd s1 f1 h) a) = center (h a)
  /\ angle (upd s2 f2 (upd s1 f1 h) a) = angle (h a)
  /\ mass (upd s2 f2 (upd s1 f1 h) a) = mass (h a)
  /\ pinned (upd s2 f2 (upd s1 f1 h) a) = pinned (h a)
  /\ static (upd s2 f2 (upd s1 f1 h) a) = static (h a)
  /\ id (upd s2 f2 (upd s1 f1 h) a) = id (h a).
Proof.
  intros H1 H2.
  destruct (upd_keepsPose s2 f2 (upd s1 f1 h) a H2) as (-> & -> & -> & -> & -> & ->).
  exact (upd_keepsPose s1 f1 h a H1).
Qed.

Lemma applyImpulses_keeps (world : World) (s1 s2 : nat) (info : CollisionDetails) (h : Heap) (a : nat) :
  center (applyImpulses world s1 s2 info h a) = center (h a)
  /\ angle (applyImpulses world s1 s2 info h a) = angle (h a)
  /\ mass (applyImpulses world s1 s2 info h a) = mass (h a)
  /\ pinned (applyImpulses world s1 s2 info h a) = pinned (h a)
  /\ static (applyImpulses world s1 s2 info h a) = static (h a)
  /\ id (applyImpulses world s1 s2 info h a) = id (h a).
Proof.
  unfold applyImpulses. cbv zeta.
  match goal with
  | |- context [upd s2 ?f4 (upd s1 ?f3 (upd s2 ?f2 (upd s1 ?f1 h)))] =>
      assert (K1 : keepsPose f1)
        by (apply keepsPose_unlessStatic, keepsPose_subtractImpulse);
      assert (K2 : keepsPose f2)
        by (apply keepsPose_unlessStatic, keepsPose_addImpulse);
      assert (K3 : keepsPose f3)
        by (apply keepsPose_unlessStatic;
            apply (keepsPose_compose _ (dampBody world));
            [apply keepsPose_subtractImpulse | apply keepsPose_dampBody]);
      assert (K4 : keepsPose f4)
        by (apply keepsPose_unlessStatic;
            apply (keepsPose_compose _ (dampBody world));
            [apply keepsPose_addImpulse | apply keepsPose_dampBody]);
      destruct (upd_twice_keepsPose s1 s2 f3 f4 (upd s2 f2 (upd s1 f1 h)) a K3 K4)
        as (-> & -> & -> & -> & -> & ->);
      exact (upd_twice_keepsPose s1 s2 f1 f2 h a K1 K2)
  end.
Qed.

(** ** Position correction *)

Lemma correctPositions_centers (s1 s2 : nat) (info : CollisionDetails) (h : Heap) :
  s1 <> s2 ->
  center (correctPositions s1 s2 info h s1)
  = (if pinned (h s1) || Reqb (mass (h s1)) 0 then center (h s1)
     else addVec2 (center (h s1))
                  (scaleVec2 (correctionAmount (h s1) (h s2) info) (- mass (h s1))))
  /\ center (correctPositions s1 s2 info h s2)
     = (if pinned (h s2) || Reqb (mass (h s2)) 0 then center (h s2)
        else addVec2 (center (h s2))
                     (scaleVec2 (correctionAmount (h s1) (h s2) info) (mass (h s2))))
  /\ (forall a, a <> s1 -> a <> s2 -> correctPositions s1 s2 info h a = h a).
Proof.
  intros Hne. unfold correctPositions. split; [|split].
  - rewrite upd_other by exact Hne. rewrite upd_same. apply center_moveBody.
  - rewrite upd_same. rewrite upd_other by (intros E; apply Hne; now symmetry).
    apply center_moveBody.
  - intros a H1 H2. now rewrite !upd_other.
Qed.

Lemma resolveCollision_centers (world : World) (s1 s2 : nat) (info : CollisionDetails) (h : Heap) :
  ~ (mass (h s1) = 0 /\ mass (h s2) = 0) ->
  ~ (x (correctionAmount (h s1) (h s2) info) = 0
     /\ y (correctionAmount (h s1) (h s2) info) = 0) ->
  forall a, center (fst (resolveCollision world s1 s2 info h) a)
            = center (correctPositions s1 s2 info h a).
Proof.
  intros Hm Hc a. unfold resolveCollision.
  destruct (negb (truthy (mass (h s1))) && negb (truthy (mass (h s2)))) eqn:Em.
  { exfalso. apply Hm. apply andb_true_iff in Em as [Ea Eb].
    apply negb_true_iff, truthy_false in Ea. apply negb_true_iff, truthy_false in Eb.
    now split. }
  destruct (Reqb (x (correctionAmount (h s1) (h s2) info)) 0
            && Reqb (y (correctionAmount (h s1) (h s2) info)) 0) eqn:Ec.
  { exfalso. apply Hc. apply andb_true_iff in Ec as [Ea Eb].
    apply Reqb_true in Ea, Eb. now split. }
  destruct (Rgtb _ 0); simpl; [reflexivity|].
  apply applyImpulses_keeps.
Qed.

(** C5, as the code has it.  When [resolveCollision] reaches the position
    correction, the correction is [normal * (depth / (invMassA + invMassB)
    * 0.8)], and the two moves are not forced: a body that is pinned or has
    inverse mass zero keeps its center, any other body is translated, [s1]
    by [-correction * invMass] and [s2] by [correction * invMass].  The
    impulses that follow move no center. *)
Theorem position_correction_not_forced
    (world : World) (s1 s2 : nat) (info : CollisionDetails) (h : Heap) :
  s1 <> s2 ->
  ~ (mass (h s1) = 0 /\ mass (h s2) = 0) ->
  ~ (x (correctionAmount (h s1) (h s2) info) = 0
     /\ y (correctionAmount (h s1) (h s2) info) = 0) ->
  correctionAmount (h s1) (h s2) info
  = scaleVec2 (normal info) (depth info / (mass (h s1) + mass (h s2)) * 0.8)
  /\ center (fst (resolveCollision world s1 s2 info h) s1)
     = (if pinned (h s1) || Reqb (mass (h s1)) 0 then center (h s1)
        else addVec2 (center (h s1))
                     (scaleVec2 (correctionAmount (h s1) (h s2) info) (- mass (h s1))))
  /\ center (fst (resolveCollision world s1 s2 info h) s2)
     = (if pinned (h s2) || Reqb (mass (h s2)) 0 then center (h s2)
        else addVec2 (center (h s2))
                     (scaleVec2 (correctionAmount (h s1) (h s2) info) (mass (h s2))))
  /\ (forall a, a <> s1 -> a <> s2 ->
        center (fst (resolveCollision world s1 s2 info h) a) = center (h a)).
Proof.
  intros Hne Hm Hc.
  destruct (correctPositions_centers s1 s2 info h Hne) as (H1 & H2 & H3).
  split; [reflexivity|].
  rewrite !(resolveCollision_centers world s1 s2 info h Hm Hc).
  split; [exact H1|]. split; [exact H2|].
  intros a Ha1 Ha2. rewrite (resolveCollision_centers world s1 s2 info h Hm Hc).
  now rewrite H3.
Qed.

Lemma ball_contact : testCollision ballA ballB = Some ballContact.
Proof.
  rewrite testCollision_circles_eq by (try reflexivity; simpl; lra).
  rewrite testCircleCircle_some
    by (rewrite length_ball_gap, sqrt_square_abs; simpl; rewrite Rabs_right; lra).
  rewrite length_ball_gap, scale_subtract_flip.
  rewrite (normalize_known (subtractVec2 (center ballB) (center ballA)) 15)
    by (unfold dotProduct; simpl; lra).
  rewrite (normalize_known (subtractVec2 (center ballA) (center ballB)) 15)
    by (unfold dotProduct; simpl; lra).
  unfold setCollisionInfo, ballContact. f_equal.
  f_equal; try apply vec_eq; simpl; lra.
Qed.

Lemma ball_correction :
  correctionAmount ballA ballB ballContact = newVec2 2 0.
Proof. apply vec_eq; simpl; lra. Qed.

Lemma position_correction_not_forced_witness :
  center (fst (resolveCollision twoBodyWorld 0 1 ballContact
                 twoBallHeap) 0%nat) = newVec2 (-2) 0
  /\ center (fst (resolveCollision twoBodyWorld 0 1 ballContact
                    twoBallHeap) 1%nat) = newVec2 17 0.
Proof.
  assert (Hne : 0%nat <> 1%nat) by discriminate.
  destruct (position_correction_not_forced twoBodyWorld 0 1 ballContact
              twoBallHeap Hne) as (_ & H1 & H2 & _).
  - simpl. lra.
  - simpl. lra.
  - rewrite H1, H2. unfold twoBallHeap. cbn [Nat.eqb]. rewrite ball_correction.
    assert (E : Reqb 1 0 = false) by (apply Reqb_false; lra).
    simpl. rewrite E. split; apply vec_eq; simpl; lra.
Defined.

(** [pinnedA] is what [allowPinnedRotation] makes of a static circle. *)
Lemma pinnedA_reachable :
  snd (allowPinnedRotation anchorWorld 1 1 anchorHeap) 0%nat = pinnedA
  /\ dynamicBodies (fst (allowPinnedRotation anchorWorld 1 1 anchorHeap)) = [0%nat]
  /\ staticBodies (fst (allowPinnedRotation anchorWorld 1 1 anchorHeap)) = [].
Proof.
  unfold allowPinnedRotation. simpl find. cbn [fst snd]. split; [|split; reflexivity].
  rewrite !upd_same. unfold calculateInertia.
  assert (E : Rgtb 1 0 = true) by (apply Rgtb_true; lra).
  apply body_ext; simpl; try rewrite E; reflexivity.
Qed.

(** C5 as stated fails for a pinned body: the correction of the contact
    is [(2, 0)], a forced move would take the pinned body, of inverse mass
    1, to [(-2, 0)], and the code leaves it at [(0, 0)]. *)
Lemma position_correction_counterexample :
  testCollision pinnedA ballB = Some ballContact
  /\ pinned (pinHeap 0%nat) = true
  /\ mass (pinHeap 0%nat) = 1
  /\ correctionAmount (pinHeap 0%nat) (pinHeap 1%nat) ballContact = newVec2 2 0
  /\ snd (resolveCollision twoBodyWorld 0 1 ballContact pinHeap) = true
  /\ addVec2 (center (pinHeap 0%nat))
             (scaleVec2 (correctionAmount (pinHeap 0%nat) (pinHeap 1%nat) ballContact)
                        (- mass (pinHeap 0%nat))) = newVec2 (-2) 0
  /\ center (fst (resolveCollision twoBodyWorld 0 1 ballContact pinHeap) 0%nat) = newVec2 0 0.
Proof.
  assert (Hcorr : correctionAmount (pinHeap 0%nat) (pinHeap 1%nat) ballContact = newVec2 2 0)
    by (apply vec_eq; simpl; lra).
  assert (Hm : ~ (mass (pinHeap 0%nat) = 0 /\ mass (pinHeap 1%nat) = 0)) by (simpl; lra).
  assert (Hc : ~ (x (correctionAmount (pinHeap 0%nat) (pinHeap 1%nat) ballContact) = 0
                  /\ y (correctionAmount (pinHeap 0%nat) (pinHeap 1%nat) ballContact) = 0))
    by (rewrite Hcorr; simpl; lra).
  assert (Hne : 0%nat <> 1%nat) by discriminate.
  destruct (correctPositions_centers 0 1 ballContact pinHeap Hne) as (H1 & H2 & _).
  split; [exact ball_contact|]. split; [reflexivity|]. split; [reflexivity|].
  split; [exact Hcorr|]. split; [|split].
  - apply resolveCollision_resolved. split; [exact Hm|]. split; [exact Hc|].
    unfold correctPositions. rewrite Hcorr.
    rewrite upd_other by discriminate. rewrite !upd_same.
    rewrite upd_other by discriminate.
    rewrite moveBody_pinned by reflexivity.
    rewrite moveBody_circle_free by (simpl; try reflexivity; lra).
    unfold rVelocityInNormal, relativeVelocity, contactArm, contactPoint, dotProduct.
    simpl. lra.
  - rewrite Hcorr. apply vec_eq; simpl; lra.
  - rewrite (resolveCollision_centers twoBodyWorld 0 1 ballContact pinHeap Hm Hc), H1.
    reflexivity.
Qed.

(** ** Rest detection *)

Lemma trackBody_movable (fps : R) (b : Body) :
  mass b > 0 ->
  center (trackBody fps b) = center b
  /\ angle (trackBody fps b) = angle b
  /\ x (averageCenter (trackBody fps b)) = (if driftX b then x (center b) else x (averageCenter b))
  /\ y (averageCenter (trackBody fps b)) = (if driftY b then y (center b) else y (averageCenter b))
  /\ averageAngle (trackBody fps b) = (if driftAngle b then angle b else averageAngle b)
  /\ restingTime (trackBody fps b)
     = (if driftX b || driftY b || driftAngle b then 0 else restingTime b + 1 / fps).
Proof.
  intros Hm. apply Rgtb_true in Hm. unfold trackBody, driftX, driftY, driftAngle. rewrite Hm.
  cbn [center averageCenter angle averageAngle set_restingTime set_averageCenter].
  destruct (Rgtb (Rabs (x (center b) - x (averageCenter b))) 1);
    cbn [center averageCenter angle averageAngle set_restingTime set_averageCenter newVec2 x y];
    destruct (Rgtb (Rabs (y (center b) - y (averageCenter b))) 1);
    cbn [center averageCenter angle averageAngle set_restingTime set_averageCenter newVec2 x y];
    destruct (Rgeb (Rabs (angle b - averageAngle b)) 0.1);
    cbn; repeat split.
Qed.

Lemma fold_upd_outside (f : Body -> Body) (l : list nat) (h : Heap) (a : nat) :
  ~ In a l -> fold_left (fun h0 body => upd body f h0) l h a = h a.
Proof.
  revert h. induction l as [|b t IH]; intros h Hn; simpl; [reflexivity|].
  rewrite IH by (intros Hin; apply Hn; now right).
  apply upd_other. intros ->. apply Hn. now left.
Qed.

Lemma fold_upd_once (f : Body -> Body) (l : list nat) (h : Heap) (a : nat) :
  NoDup l -> In a l -> fold_left (fun h0 body => upd body f h0) l h a = f (h a).
Proof.
  revert h. induction l as [|b t IH]; intros h Hnd Hin; simpl; [contradiction|].
  inversion Hnd as [|? ? Hnotin Hnd']; subst.
  destruct Hin as [->|Hin].
  - rewrite fold_upd_outside by exact Hnotin. apply upd_same.
  - rewrite IH by assumption. f_equal. apply upd_other.
    intros ->. contradiction.
Qed.

Lemma worldStep_tracks (fps : R) (world : World) (h : Heap) :
  fst (worldStep fps world h)
  = trackStability fps world (fst (snd (stepPhysics fps world h))).
Proof.
  unfold worldStep. destruct (stepPhysics fps world h) as [n [h3 cs]]. reflexivity.
Qed.

(** C8, as the code has it.  At the end of [worldStep] every body of
    positive inverse mass that is in the world once is treated as follows,
    [b] being the body after the resolution loop and [b'] the body the
    step leaves.  Each of the three drift tests (more than 1 along x, more
    than 1 along y, at least 0.1 in angle) that succeeds snaps its own
    component of the average to the current value, and the other
    components keep the average they had; [restingTime] is 0 if one of the
    tests succeeds, and grows by [1 / fps] otherwise. *)
Theorem stability_tracking (fps : R) (world : World) (h : Heap) (a : nat) :
  NoDup (allBodies world) ->
  In a (allBodies world) ->
  mass (fst (snd (stepPhysics fps world h)) a) > 0 ->
  center (fst (worldStep fps world h) a) = center (fst (snd (stepPhysics fps world h)) a)
  /\ angle (fst (worldStep fps world h) a) = angle (fst (snd (stepPhysics fps world h)) a)
  /\ x (averageCenter (fst (worldStep fps world h) a))
     = (if driftX (fst (snd (stepPhysics fps world h)) a)
        then x (center (fst (snd (stepPhysics fps world h)) a))
        else x (averageCenter (fst (snd (stepPhysics fps world h)) a)))
  /\ y (averageCenter (fst (worldStep fps world h) a))
     = (if driftY (fst (snd (stepPhysics fps world h)) a)
        then y (center (fst (snd (stepPhysics fps world h)) a))
        else y (averageCenter (fst (snd (stepPhysics fps world h)) a)))
  /\ averageAngle (fst (worldStep fps world h) a)
     = (if driftAngle (fst (snd (stepPhysics fps world h)) a)
        then angle (fst (snd (stepPhysics fps world h)) a)
        else averageAngle (fst (snd (stepPhysics fps world h)) a))
  /\ restingTime (fst (worldStep fps world h) a)
     = (if driftX (fst (snd (stepPhysics fps world h)) a)
           || driftY (fst (snd (stepPhysics fps world h)) a)
           || driftAngle (fst (snd (stepPhysics fps world h)) a)
        then 0
        else restingTime (fst (snd (stepPhysics fps world h)) a) + 1 / fps).
Proof.
  intros Hnd Hin Hm. rewrite worldStep_tracks. unfold trackStability.
  rewrite fold_upd_once by assumption.
  now apply trackBody_movable.
Qed.

Lemma stepPhysics_no_dynamic (fps : R) (h : Heap) :
  stepPhysics fps oneDisabled h = (1%nat, (h, [])).
Proof. reflexivity. Qed.

Lemma drifter_tests :
  driftX drifter = true /\ driftY drifter = false /\ driftAngle drifter = false.
Proof.
  unfold driftX, driftY, driftAngle. simpl. split; [|split].
  - apply Rgtb_true. rewrite Rabs_right; lra.
  - apply Rgtb_false. rewrite Rabs_right; lra.
  - apply Rgeb_false. rewrite Rabs_right; lra.
Qed.

Lemma stability_tracking_witness :
  restingTime (fst (worldStep 60 oneDisabled drifterHeap) 0%nat) = 0
  /\ x (averageCenter (fst (worldStep 60 oneDisabled drifterHeap) 0%nat)) = 5
  /\ y (averageCenter (fst (worldStep 60 oneDisabled drifterHeap) 0%nat)) = 0.
Proof.
  assert (Hnd : NoDup (allBodies oneDisabled))
    by (simpl; constructor; [intros [] | constructor]).
  assert (Hin : In 0%nat (allBodies oneDisabled)) by (simpl; now left).
  assert (Hm : mass (fst (snd (stepPhysics 60 oneDisabled drifterHeap)) 0%nat) > 0)
    by (simpl; lra).
  destruct (stability_tracking 60 oneDisabled drifterHeap 0%nat Hnd Hin Hm)
    as (_ & _ & Hx & Hy & _ & Hr).
  rewrite Hx, Hy, Hr. rewrite stepPhysics_no_dynamic.
  unfold drifterHeap. cbn [fst snd]. destruct drifter_tests as (-> & -> & ->).
  simpl. repeat split.
Defined.

(** C8 as stated fails for a body that has drifted along x only: its
    resting time is reset, but of its average only the x component is
    snapped; the y component of the average and the average angle keep
    their values and differ from the current ones. *)
Lemma stability_tracking_counterexample :
  mass (drifterHeap 0%nat) > 0
  /\ Rabs (x (center (drifterHeap 0%nat)) - x (averageCenter (drifterHeap 0%nat))) > 1
  /\ center (fst (worldStep 60 oneDisabled drifterHeap) 0%nat) = newVec2 5 0.5
  /\ angle (fst (worldStep 60 oneDisabled drifterHeap) 0%nat) = 0.05
  /\ restingTime (fst (worldStep 60 oneDisabled drifterHeap) 0%nat) = 0
  /\ averageCenter (fst (worldStep 60 oneDisabled drifterHeap) 0%nat) = newVec2 5 0
  /\ averageAngle (fst (worldStep 60 oneDisabled drifterHeap) 0%nat) = 0
  /\ averageCenter (fst (worldStep 60 oneDisabled drifterHeap) 0%nat)
     <> center (fst (worldStep 60 oneDisabled drifterHeap) 0%nat)
  /\ averageAngle (fst (worldStep 60 oneDisabled drifterHeap) 0%nat)
     <> angle (fst (worldStep 60 oneDisabled drifterHeap) 0%nat).
Proof.
  assert (Hm : mass drifter > 0) by (simpl; lra).
  assert (Hstep : fst (worldStep 60 oneDisabled drifterHeap) 0%nat = trackBody 60 drifter).
  { rewrite worldStep_tracks, stepPhysics_no_dynamic. reflexivity. }
  rewrite Hstep.
  destruct (trackBody_movable 60 drifter Hm) as (Hc & Ha & Hx & Hy & Hav & Hr).
  destruct drifter_tests as (Ex & Ey & Ea). rewrite Ex in Hx, Hr. rewrite Ey in Hy.
  rewrite Ea in Hav. simpl in Hx, Hy, Hav, Hr, Hc, Ha.
  assert (Hac : averageCenter (trackBody 60 drifter) = newVec2 5 0)
    by (apply vec_eq; assumption).
  split; [exact Hm|]. split; [now apply Rgtb_true|].
  split; [exact Hc|]. split; [exact Ha|]. split; [exact Hr|]. split; [exact Hac|].
  split; [exact Hav|]. split.
  - rewrite Hac, Hc. intros E. apply (f_equal y) in E. simpl in E. lra.
  - rewrite Hav, Ha. lra.
Qed.

(** ** The resolution loop *)

Lemma afterPasses_shift (m : nat) (world : World) (all : list nat) (st : Heap * list Collision) :
  afterPasses (S m) world all st = afterPasses m world all (passResult world all st).
Proof.
  induction m as [|m IH]; [reflexivity|].
  change (afterPasses (S (S m)) world all st)
    with (passResult world all (afterPasses (S m) world all st)).
  rewrite IH. reflexivity.
Qed.

Lemma resolveLoop_step (k : nat) (world : World) (all : list nat) (st : Heap * list Collision) :
  resolveLoop (S k) world all st
  = if passFlag world all st
    then (S (fst (resolveLoop k world all (passResult world all st))),
          snd (resolveLoop k world all (passResult world all st)))
    else (1%nat, passResult world all st).
Proof.
  unfold passFlag, passResult. simpl.
  destruct (collisionPass world all st) as [[h cs] c]. simpl.
  destruct c; [|reflexivity].
  destruct (resolveLoop k world all (h, cs)) as [n st']. reflexivity.
Qed.

Lemma resolveLoop_passes (k : nat) (world : World) (all : list nat) (st : Heap * list Collision) :
  (fst (resolveLoop k world all st) <= k)%nat
  /\ ((0 < k)%nat -> (0 < fst (resolveLoop k world all st))%nat)
  /\ snd (resolveLoop k world all st) = afterPasses (fst (resolveLoop k world all st)) world all st
  /\ (forall m, (S m < fst (resolveLoop k world all st))%nat ->
        passFlag world all (afterPasses m world all st) = true)
  /\ ((fst (resolveLoop k world all st) < k)%nat ->
        passFlag world all (afterPasses (fst (resolveLoop k world all st) - 1) world all st) = false).
Proof.
  revert st. induction k as [|k IH]; intros st.
  - simpl. repeat split; try lia; try (intros; lia).
  - rewrite resolveLoop_step. destruct (passFlag world all st) eqn:Ef.
    + destruct (IH (passResult world all st)) as (Hle & Hpos & Hst & Hall & Hlast).
      cbn [fst snd]. split; [lia|]. split; [lia|]. split; [|split].
      * rewrite afterPasses_shift. exact Hst.
      * intros [|m] Hm; [exact Ef|]. rewrite afterPasses_shift. apply Hall. lia.
      * intros Hlt.
        destruct (fst (resolveLoop k world all (passResult world all st))) as [|n] eqn:En.
        { destruct k as [|k']; [lia|]. assert (0 < 0)%nat by (apply Hpos; lia). lia. }
        replace (S (S n) - 1)%nat with (S n) by lia.
        rewrite afterPasses_shift. replace n with (S n - 1)%nat by lia.
        apply Hlast. lia.
    + cbn [fst snd]. split; [lia|]. split; [lia|]. split; [reflexivity|]. split.
      * intros m Hm. lia.
      * intros _. exact Ef.
Qed.

(** The flag of a pass tells whether the pass recorded a collision. *)
Lemma fold_left_invariant {A B : Type} (P : A -> Prop) (f : A -> B -> A) (l : list B) (a : A) :
  (forall a0 b, In b l -> P a0 -> P (f a0 b)) -> P a -> P (fold_left f l a).
Proof.
  revert a. induction l as [|b t IH]; intros a Hf Ha; simpl; [exact Ha|].
  apply IH.
  - intros a0 b0 Hb. apply Hf. now right.
  - apply Hf; [now left | exact Ha].
Qed.

Lemma collidePair_records (world : World) (all : list nat) (i j : nat)
    (cs0 : list Collision) (st : PassState) :
  (exists new, snd (fst st) = cs0 ++ new /\ (snd st = false <-> new = [])) ->
  exists new, snd (fst (collidePair world all i j st)) = cs0 ++ new
              /\ (snd (collidePair world all i j st) = false <-> new = []).
Proof.
  intros Hinv. destruct st as [[h cs] c]. unfold collidePair.
  destruct (Nat.eqb i j); [exact Hinv|].
  destruct (boundTest _ _); [|exact Hinv].
  destruct (testCollision _ _) as [info|]; [|exact Hinv].
  destruct (Rgtb _ 0); [exact Hinv|].
  destruct (resolveCollision _ _ _ _ _) as [h' resolved].
  destruct resolved; [|exact Hinv].
  destruct Hinv as (new & Hcs & _). simpl in Hcs. subst cs.
  eexists. simpl. split; [symmetry; apply app_assoc|].
  split; [discriminate|]. intros E. apply app_eq_nil in E as [_ E]. discriminate.
Qed.

Lemma collisionPass_records (world : World) (all : list nat) (st : Heap * list Collision) :
  exists new, snd (passResult world all st) = snd st ++ new
              /\ (passFlag world all st = false <-> new = []).
Proof.
  unfold passResult, passFlag, collisionPass.
  apply (fold_left_invariant
           (fun s : PassState =>
              exists new, snd (fst s) = snd st ++ new /\ (snd s = false <-> new = []))).
  - intros s i _ Hs. apply fold_left_invariant; [|exact Hs].
    intros s0 j _ Hs0. now apply collidePair_records.
  - exists []. simpl. split; [now rewrite app_nil_r | tauto].
Qed.



(** ** Static bodies *)

Section StaticBody.

Variables (r : nat) (c : Vector2) (ang : R).

Lemma integrate_fixedAt (fps : R) (world : World) (h : Heap) :
  ~ In r (dynamicBodies world) -> fixedAt r c ang h -> fixedAt r c ang (integrate fps world h).
Proof.
  intros Hn Hf. unfold fixedAt, integrate. now rewrite fold_upd_outside.
Qed.

Lemma applyJoint_fixedAt (fps : R) (all : list nat) (body : nat) (joint : Joint) (h : Heap) :
  fixedAt r c ang h -> fixedAt r c ang (applyJoint fps all body joint h).
Proof.
  intros Hf. unfold applyJoint.
  destruct (findBody all _ h) as [other|]; [|exact Hf].
  destruct (negb (Reqb _ 0)); [|exact Hf].
  apply upd_fixedAt.
  - apply keepsPose_static. intros b. repeat split.
  - apply upd_fixedAt; [|exact Hf].
    apply (keepsStaticPose_moveBody (fun _ => _)).
Qed.

Lemma applyJoints_fixedAt (fps : R) (world : World) (all : list nat) (h : Heap) :
  fixedAt r c ang h -> fixedAt r c ang (applyJoints fps world all h).
Proof.
  intros Hf. unfold applyJoints.
  apply (fold_left_invariant (fixedAt r c ang)); [|exact Hf].
  intros h0 body _ Hh0.
  apply (fold_left_invariant (fixedAt r c ang)); [|exact Hh0].
  intros h1 joint _ Hh1. now apply applyJoint_fixedAt.
Qed.

Lemma correctPositions_fixedAt (s1 s2 : nat) (info : CollisionDetails) (h : Heap) :
  fixedAt r c ang h -> fixedAt r c ang (correctPositions s1 s2 info h).
Proof.
  intros Hf. unfold correctPositions.
  apply upd_fixedAt; [apply (keepsStaticPose_moveBody (fun b => _))|].
  apply upd_fixedAt; [apply (keepsStaticPose_moveBody (fun b => _))|exact Hf].
Qed.

Lemma applyImpulses_fixedAt (world : World) (s1 s2 : nat) (info : CollisionDetails) (h : Heap) :
  fixedAt r c ang h -> fixedAt r c ang (applyImpulses world s1 s2 info h).
Proof.
  intros (Hc & Ha & Hm). unfold fixedAt.
  destruct (applyImpulses_keeps world s1 s2 info h r) as (-> & -> & -> & _).
  now repeat split.
Qed.

Lemma resolveCollision_fixedAt (world : World) (s1 s2 : nat) (info : CollisionDetails) (h : Heap) :
  fixedAt r c ang h -> fixedAt r c ang (fst (resolveCollision world s1 s2 info h)).
Proof.
  intros Hf. unfold resolveCollision.
  destruct (negb _ && negb _); [exact Hf|].
  destruct (Reqb _ 0 && Reqb _ 0); [exact Hf|].
  destruct (Rgtb _ 0); simpl.
  - now apply correctPositions_fixedAt.
  - now apply applyImpulses_fixedAt, correctPositions_fixedAt.
Qed.

Lemma collidePair_fixedAt (world : World) (all : list nat) (i j : nat) (st : PassState) :
  fixedAt r c ang (fst (fst st)) ->
  fixedAt r c ang (fst (fst (collidePair world all i j st))).
Proof.
  intros Hf. destruct st as [[h cs] fl]. simpl in Hf. unfold collidePair.
  destruct (Nat.eqb i j); [exact Hf|].
  destruct (boundTest _ _); [|exact Hf].
  destruct (testCollision _ _) as [info|]; [|exact Hf].
  destruct (Rgtb _ 0).
  - simpl. apply upd_fixedAt; [|exact Hf].
    apply keepsPose_static, keepsPose_passThrough.
  - pose proof (resolveCollision_fixedAt world (nth i (dynamicBodies world) 0%nat)
                  (nth j all 0%nat)
                  (orient info (h (nth i (dynamicBodies world) 0%nat)) (h (nth j all 0%nat)))
                  h Hf) as Hr.
    destruct (resolveCollision _ _ _ _ _) as [h' resolved]. simpl in Hr.
    destruct resolved; exact Hr.
Qed.

Lemma passResult_fixedAt (world : World) (all : list nat) (st : Heap * list Collision) :
  fixedAt r c ang (fst st) -> fixedAt r c ang (fst (passResult world all st)).
Proof.
  intros Hf. unfold passResult, collisionPass.
  apply (fold_left_invariant (fun s : PassState => fixedAt r c ang (fst (fst s)))); [|exact Hf].
  intros s i _ Hs.
  apply (fold_left_invariant (fun s : PassState => fixedAt r c ang (fst (fst s)))); [|exact Hs].
  intros s0 j _ Hs0. now apply collidePair_fixedAt.
Qed.

Lemma afterPasses_fixedAt (m : nat) (world : World) (all : list nat) (st : Heap * list Collision) :
  fixedAt r c ang (fst st) -> fixedAt r c ang (fst (afterPasses m world all st)).
Proof.
  intros Hf. induction m as [|m IH]; [exact Hf|].
  simpl. now apply passResult_fixedAt.
Qed.

Lemma trackStability_fixedAt (fps : R) (world : World) (h : Heap) :
  fixedAt r c ang h -> fixedAt r c ang (trackStability fps world h).
Proof.
  intros Hf. unfold trackStability.
  apply (fold_left_invariant (fixedAt r c ang)); [|exact Hf].
  intros h0 body _ Hh0. apply upd_fixedAt; [|exact Hh0].
  apply keepsPose_static, keepsPose_trackBody.
Qed.

Lemma worldStep_fixedAt (fps : R) (world : World) (h : Heap) :
  ~ In r (dynamicBodies world) ->
  fixedAt r c ang h -> fixedAt r c ang (fst (worldStep fps world h)).
Proof.
  intros Hn Hf. rewrite worldStep_tracks. apply trackStability_fixedAt.
  destruct (resolveLoop_passes 9 world (enabledBodies world) (beforeLoop fps world h))
    as (_ & _ & Hst & _).
  change (stepPhysics fps world h)
    with (resolveLoop 9 world (enabledBodies world) (beforeLoop fps world h)).
  rewrite Hst. apply afterPasses_fixedAt. unfold beforeLoop. simpl.
  now apply applyJoints_fixedAt, integrate_fixedAt.
Qed.

End StaticBody.

(** C1. A body of inverse mass zero that is stored in the static
    collection, and so not in the dynamic one, has after [worldStep] the
    center and the angle it had before, whatever the gravity, the joints
    and the bodies it collides with. *)
Theorem static_body_invariant (fps : R) (world : World) (h : Heap) (r : nat) :
  In r (staticBodies world) ->
  ~ In r (dynamicBodies world) ->
  mass (h r) = 0 ->
  center (fst (worldStep fps world h) r) = center (h r)
  /\ angle (fst (worldStep fps world h) r) = angle (h r).
Proof.
  intros _ Hn Hm.
  destruct (worldStep_fixedAt r (center (h r)) (angle (h r)) fps world h Hn) as (Hc & Ha & _).
  - now repeat split.
  - now split.
Qed.

Lemma static_body_invariant_witness :
  center (fst (worldStep 60 wallWorld wallHeap) 1%nat) = newVec2 15 0
  /\ angle (fst (worldStep 60 wallWorld wallHeap) 1%nat) = 0.
Proof.
  apply (static_body_invariant 60 wallWorld wallHeap 1%nat).
  - simpl. now left.
  - simpl. intros [H|[]]. discriminate.
  - reflexivity.
Defined.

(** ** Permeable bodies *)

Lemma passThrough_scales (k : R) (b : Body) :
  velocity (passThrough k b) = scaleVec2 (velocity b) (1 - k)
  /\ angularVelocity (passThrough k b) = angularVelocity b * (1 - k)
  /\ center (passThrough k b) = center b.
Proof. repeat split. Qed.

Lemma resolveCollision_ids (world : World) (s1 s2 : nat) (info : CollisionDetails) (h : Heap) :
  forall a, id (fst (resolveCollision world s1 s2 info h) a) = id (h a).
Proof.
  intros a.
  assert (Hcp : id (correctPositions s1 s2 info h a) = id (h a)).
  { unfold correctPositions, upd.
    repeat match goal with
           | |- context [if ?c then _ else _] => destruct c
           | |- context [_moveBody ?b ?v false] =>
               let H := fresh in
               destruct (moveBody_other_fields b v false) as (_ & _ & _ & _ & H); rewrite H; clear H
           end; reflexivity. }
  unfold resolveCollision.
  destruct (negb _ && negb _); [reflexivity|].
  destruct (Reqb _ 0 && Reqb _ 0); [reflexivity|].
  destruct (Rgtb _ 0); simpl; [exact Hcp|].
  destruct (applyImpulses_keeps world s1 s2 info (correctPositions s1 s2 info h) a)
    as (_ & _ & _ & _ & _ & ->).
  exact Hcp.
Qed.

(** When the second body of a colliding pair is permeable, the pair is
    passed through: the velocity and the angular velocity of the first body
    are scaled by [1 - permeability], nothing else changes, and no
    collision is recorded. *)
Lemma collidePair_pass_through (world : World) (all : list nat) (i j : nat)
    (h : Heap) (cs : list Collision) (fl : bool) (info : CollisionDetails) :
  i <> j ->
  boundTest (h (nth i (dynamicBodies world) 0%nat)) (h (nth j all 0%nat)) = true ->
  testCollision (h (nth i (dynamicBodies world) 0%nat)) (h (nth j all 0%nat)) = Some info ->
  permeability (h (nth j all 0%nat)) > 0 ->
  collidePair world all i j (h, cs, fl)
  = (upd (nth i (dynamicBodies world) 0%nat)
         (passThrough (permeability (h (nth j all 0%nat)))) h, cs, fl).
Proof.
  intros Hij Hb Ht Hp. unfold collidePair.
  apply Nat.eqb_neq in Hij. rewrite Hij, Hb, Ht.
  apply Rgtb_true in Hp. now rewrite Hp.
Qed.

(** The permeability of the first body of the pair is not consulted: when
    the second body is not permeable the collision is resolved. *)
Lemma collidePair_resolves (world : World) (all : list nat) (i j : nat)
    (h : Heap) (cs : list Collision) (fl : bool) (info : CollisionDetails) :
  i <> j ->
  boundTest (h (nth i (dynamicBodies world) 0%nat)) (h (nth j all 0%nat)) = true ->
  testCollision (h (nth i (dynamicBodies world) 0%nat)) (h (nth j all 0%nat)) = Some info ->
  ~ permeability (h (nth j all 0%nat)) > 0 ->
  snd (resolveCollision world (nth i (dynamicBodies world) 0%nat) (nth j all 0%nat)
         (orient info (h (nth i (dynamicBodies world) 0%nat)) (h (nth j all 0%nat))) h) = true ->
  fst (fst (collidePair world all i j (h, cs, fl)))
  = fst (resolveCollision world (nth i (dynamicBodies world) 0%nat) (nth j all 0%nat)
           (orient info (h (nth i (dynamicBodies world) 0%nat)) (h (nth j all 0%nat))) h)
  /\ snd (collidePair world all i j (h, cs, fl)) = true
  /\ snd (fst (collidePair world all i j (h, cs, fl)))
     = cs ++ [mkCollision (id (h (nth i (dynamicBodies world) 0%nat)))
                          (id (h (nth j all 0%nat))) (depth info)].
Proof.
  intros Hij Hb Ht Hp Hr. unfold collidePair.
  apply Nat.eqb_neq in Hij. rewrite Hij, Hb, Ht.
  apply Rgtb_false in Hp. rewrite Hp.
  pose proof (resolveCollision_ids world (nth i (dynamicBodies world) 0%nat) (nth j all 0%nat)
                (orient info (h (nth i (dynamicBodies world) 0%nat)) (h (nth j all 0%nat))) h)
    as Hid.
  destruct (resolveCollision _ _ _ _ _) as [h' resolved]. simpl in Hr, Hid. subst resolved.
  simpl. split; [reflexivity|]. split; [reflexivity|].
  rewrite !Hid. do 3 f_equal. unfold orient. now destruct (Rltb _ 0).
Qed.

Lemma gate_boundTest : boundTest (gateHeap 0%nat) (gateHeap 1%nat) = true.
Proof.
  unfold boundTest. simpl. apply andb_true_iff. split; apply Rltb_true.
  - rewrite Rabs_left; lra.
  - rewrite Rabs_right; lra.
Qed.

Lemma gate_contact : testCollision (gateHeap 0%nat) (gateHeap 1%nat) = Some ballContact.
Proof. exact ball_contact. Qed.

Lemma gate_orient : orient ballContact (gateHeap 0%nat) (gateHeap 1%nat) = ballContact.
Proof.
  unfold orient. assert (E : Rltb (dotProduct (normal ballContact)
    (subtractVec2 (center (gateHeap 1%nat)) (center (gateHeap 0%nat)))) 0 = false).
  { apply Rltb_false. unfold dotProduct. simpl. lra. }
  now rewrite E.
Qed.

Lemma gate_correction :
  correctionAmount (gateHeap 0%nat) (gateHeap 1%nat) ballContact = newVec2 2 0.
Proof. apply vec_eq; simpl; lra. Qed.

Lemma gate_resolved :
  snd (resolveCollision gateWorld 0 1 ballContact gateHeap) = true.
Proof.
  apply resolveCollision_resolved.
  split; [simpl; lra|]. split; [rewrite gate_correction; simpl; lra|].
  unfold correctPositions. rewrite gate_correction.
  rewrite upd_other by discriminate. rewrite !upd_same.
  rewrite upd_other by discriminate.
  rewrite !moveBody_circle_free by (simpl; try reflexivity; lra).
  unfold rVelocityInNormal, relativeVelocity, contactArm, contactPoint, dotProduct.
  simpl. lra.
Qed.

Lemma gate_pair :
  fst (fst (collidePair gateWorld (enabledBodies gateWorld) 0 1 (gateHeap, [], false)))
  = fst (resolveCollision gateWorld 0 1 ballContact gateHeap)
  /\ snd (collidePair gateWorld (enabledBodies gateWorld) 0 1 (gateHeap, [], false)) = true
  /\ snd (fst (collidePair gateWorld (enabledBodies gateWorld) 0 1 (gateHeap, [], false)))
     = [mkCollision 1 2 5].
Proof.
  assert (Hij : 0%nat <> 1%nat) by discriminate.
  assert (Hp : ~ permeability (gateHeap (nth 1 (enabledBodies gateWorld) 0%nat)) > 0)
    by (simpl; lra).
  assert (Hr : snd (resolveCollision gateWorld
                      (nth 0 (dynamicBodies gateWorld) 0%nat)
                      (nth 1 (enabledBodies gateWorld) 0%nat)
                      (orient ballContact
                         (gateHeap (nth 0 (dynamicBodies gateWorld) 0%nat))
                         (gateHeap (nth 1 (enabledBodies gateWorld) 0%nat))) gateHeap) = true).
  { cbn [nth enabledBodies dynamicBodies staticBodies gateWorld app].
    rewrite gate_orient. exact gate_resolved. }
  destruct (collidePair_resolves gateWorld (enabledBodies gateWorld) 0 1 gateHeap [] false
              ballContact Hij gate_boundTest gate_contact Hp Hr) as (Hh & Hfl & Hcs).
  split; [|split; [exact Hfl | exact Hcs]].
  rewrite Hh. cbn [nth enabledBodies dynamicBodies staticBodies gateWorld app].
  now rewrite gate_orient.
Qed.

Lemma collidePair_same_index (world : World) (all : list nat) (i : nat) (st : PassState) :
  collidePair world all i i st = st.
Proof. destruct st as [[h cs] fl]. unfold collidePair. now rewrite Nat.eqb_refl. Qed.

Lemma integrateBody_gate : integrateBody 60 gateA = gateA /\ integrateBody 60 gateB = gateB.
Proof.
  unfold integrateBody. split.
  - rewrite moveBody_circle_free by (simpl; try reflexivity; lra).
    apply body_ext; simpl; try reflexivity; try apply vec_eq; simpl; lra.
  - rewrite moveBody_circle_free by (simpl; try reflexivity; lra).
    apply body_ext; simpl; try reflexivity; try apply vec_eq; simpl; lra.
Qed.

Lemma integrate_gate : integrate 60 gateWorld gateHeap = gateHeap.
Proof.
  apply functional_extensionality. intros a. unfold integrate. simpl.
  destruct integrateBody_gate as [Ha Hb].
  destruct a as [|[|a]]; unfold upd; simpl; [exact Ha | exact Hb | reflexivity].
Qed.

Lemma gate_first_pass :
  snd (passResult gateWorld (enabledBodies gateWorld) (gateHeap, [])) = [mkCollision 1 2 5].
Proof.
  unfold passResult.
  change (collisionPass gateWorld (enabledBodies gateWorld) (gateHeap, []))
    with (collidePair gateWorld (enabledBodies gateWorld) 0 0
            (collidePair gateWorld (enabledBodies gateWorld) 0 1
               (collidePair gateWorld (enabledBodies gateWorld) 1 1 (gateHeap, [], false)))).
  rewrite !collidePair_same_index. apply gate_pair.
Qed.

Lemma resolveLoop_keeps_records (k : nat) (world : World) (all : list nat)
    (st : Heap * list Collision) :
  exists more, snd (snd (resolveLoop k world all st)) = snd st ++ more.
Proof.
  revert st. induction k as [|k IH]; intros st.
  - exists []. simpl. now rewrite app_nil_r.
  - rewrite resolveLoop_step.
    destruct (collisionPass_records world all st) as (new & Hnew & _).
    destruct (passFlag world all st).
    + destruct (IH (passResult world all st)) as (more & Hmore).
      exists (new ++ more). cbn [snd]. rewrite Hmore, Hnew. now rewrite app_assoc.
    + exists new. exact Hnew.
Qed.

Lemma resolveLoop_first_pass (k : nat) (world : World) (all : list nat)
    (st : Heap * list Collision) :
  exists more, snd (snd (resolveLoop (S k) world all st))
               = snd (passResult world all st) ++ more.
Proof.
  rewrite resolveLoop_step. destruct (passFlag world all st).
  - apply resolveLoop_keeps_records.
  - exists []. simpl. now rewrite app_nil_r.
Qed.

Lemma resolution_records_first_pass (fps : R) (world : World) (h : Heap) :
  exists more, snd (worldStep fps world h)
               = snd (passResult world (enabledBodies world) (beforeLoop fps world h)) ++ more.
Proof.
  destruct (resolveLoop_first_pass 8 world (enabledBodies world) (beforeLoop fps world h))
    as (more & Hmore).
  exists more. rewrite <- Hmore. unfold worldStep.
  change (stepPhysics fps world h)
    with (resolveLoop 9 world (enabledBodies world) (beforeLoop fps world h)).
  destruct (resolveLoop 9 world (enabledBodies world) (beforeLoop fps world h))
    as [n [h3 cs]]. reflexivity.
Qed.

(** C3 at a failing input: two overlapping circles in the dynamic
    collection, the first with a permeability of 1 and the second of 0.
    Their pair is not passed through: the collision is resolved and
    recorded, the position correction moves both bodies apart, and the
    step reports the collision. *)
Theorem permeable_first_body_is_resolved :
  permeability (gateHeap 0%nat) = 1
  /\ permeability (gateHeap 1%nat) = 0
  /\ testCollision (gateHeap 0%nat) (gateHeap 1%nat) = Some ballContact
  /\ snd (collidePair gateWorld (enabledBodies gateWorld) 0 1 (gateHeap, [], false)) = true
  /\ snd (fst (collidePair gateWorld (enabledBodies gateWorld) 0 1 (gateHeap, [], false)))
     = [mkCollision 1 2 5]
  /\ center (gateHeap 0%nat) = newVec2 0 0
  /\ center (gateHeap 1%nat) = newVec2 15 0
  /\ center (fst (fst (collidePair gateWorld (enabledBodies gateWorld) 0 1
                         (gateHeap, [], false))) 0%nat) = newVec2 (-2) 0
  /\ center (fst (fst (collidePair gateWorld (enabledBodies gateWorld) 0 1
                         (gateHeap, [], false))) 1%nat) = newVec2 17 0
  /\ exists rest, snd (worldStep 60 gateWorld gateHeap) = mkCollision 1 2 5 :: rest.
Proof.
  destruct gate_pair as (Hh & Hfl & Hcs).
  split; [reflexivity|]. split; [reflexivity|]. split; [exact gate_contact|].
  split; [exact Hfl|]. split; [exact Hcs|].
  split; [reflexivity|]. split; [reflexivity|].
  rewrite Hh.
  assert (Hij : 0%nat <> 1%nat) by discriminate.
  assert (Hm : ~ (mass (gateHeap 0%nat) = 0 /\ mass (gateHeap 1%nat) = 0)) by (simpl; lra).
  assert (Hc : ~ (x (correctionAmount (gateHeap 0%nat) (gateHeap 1%nat) ballContact) = 0
                  /\ y (correctionAmount (gateHeap 0%nat) (gateHeap 1%nat) ballContact) = 0))
    by (rewrite gate_correction; simpl; lra).
  rewrite !(resolveCollision_centers gateWorld 0 1 ballContact gateHeap Hm Hc).
  destruct (correctPositions_centers 0 1 ballContact gateHeap Hij) as (-> & -> & _).
  rewrite gate_correction. assert (E : Reqb 1 0 = false) by (apply Reqb_false; lra).
  simpl. rewrite E.
  split; [apply vec_eq; simpl; lra|]. split; [apply vec_eq; simpl; lra|].
  destruct (resolution_records_first_pass 60 gateWorld gateHeap) as (more & Hmore).
  exists more. rewrite Hmore. unfold beforeLoop. rewrite integrate_gate.
  change (applyJoints 60 gateWorld (enabledBodies gateWorld) gateHeap) with gateHeap.
  now rewrite gate_first_pass.
Qed.

(** * Further properties *)

(** ** Rotation and normalisation of vectors *)

Lemma sin_cos_square (a : R) : sin a * sin a + cos a * cos a = 1.
Proof. pose proof (sin2_cos2 a) as H. unfold Rsqr in H. exact H. Qed.

Lemma rotateVec2_add (v c : Vector2) (a b : R) :
  rotateVec2 (rotateVec2 v c a) c b = rotateVec2 v c (a + b).
Proof. apply vec_eq; simpl; rewrite cos_plus, sin_plus; ring. Qed.

Lemma rotateVec2_zero (v c : Vector2) : rotateVec2 v c 0 = v.
Proof. apply vec_eq; simpl; rewrite cos_0, sin_0; ring. Qed.

(** X1. Rotations about one point compose by adding their angles, so a
    rotation by [- a] undoes a rotation by [a] and a rotation by 0 does
    nothing; a rotation keeps the distance to its center, and leaves the
    center where it is. *)
Theorem rotateVec2_compose (v c : Vector2) (a b : R) :
  rotateVec2 (rotateVec2 v c a) c b = rotateVec2 v c (a + b)
  /\ rotateVec2 (rotateVec2 v c a) c (- a) = v
  /\ rotateVec2 v c 0 = v
  /\ rotateVec2 c c a = c
  /\ lengthVec2 (subtractVec2 (rotateVec2 v c a) c) = lengthVec2 (subtractVec2 v c).
Proof.
  assert (Hc : forall a0 b0, rotateVec2 (rotateVec2 v c a0) c b0 = rotateVec2 v c (a0 + b0))
    by (intros; apply rotateVec2_add).
  assert (H0 : rotateVec2 v c 0 = v) by apply rotateVec2_zero.
  split; [apply Hc|]. split.
  { rewrite Hc. replace (a + - a) with 0 by ring. exact H0. }
  split; [exact H0|]. split.
  { apply vec_eq; simpl; ring. }
  rewrite !lengthVec2_subtract. f_equal. simpl.
  pose proof (sin_cos_square a) as Hs.
  set (X := x v - x c) in *. set (Y := y v - y c) in *.
  replace ((X * cos a - Y * sin a + x c - x c) * (X * cos a - Y * sin a + x c - x c)
           + (X * sin a + Y * cos a + y c - y c) * (X * sin a + Y * cos a + y c - y c))
    with ((X * X + Y * Y) * (sin a * sin a + cos a * cos a)) by ring.
  rewrite Hs. ring.
Qed.

(** X2. [normalize] returns a vector of length 1, or the zero vector when
    it is given the zero vector; normalising twice is normalising once, and
    the result points the way the argument does. *)
Theorem normalize_unit_or_zero (v : Vector2) :
  (lengthVec2 (normalize v) = 1 \/ (v = newVec2 0 0 /\ normalize v = newVec2 0 0))
  /\ normalize (normalize v) = normalize v
  /\ 0 <= dotProduct v (normalize v)
  /\ dotProduct v (normalize v) = lengthVec2 v.
Proof.
  destruct (Req_dec_T (lengthVec2 v) 0) as [Hz|Hnz].
  - pose proof (lengthVec2_zero v Hz) as Hv. pose proof (normalize_zero v Hz) as Hn.
    split; [right; now split|]. rewrite Hn. split.
    + apply normalize_zero. unfold lengthVec2, dotProduct. simpl.
      replace (0 * 0 + 0 * 0) with 0 by ring. apply sqrt_0.
    + rewrite Hz. unfold dotProduct. simpl. split; [right|]; ring.
  - pose proof (normalize_unit v Hnz) as Hu. split; [now left|]. split.
    + unfold normalize at 1. unfold normalizeDivisor, orElse. rewrite Hu.
      assert (Ht : truthy 1 = true) by (apply truthy_true; lra). rewrite Ht.
      replace (1 / 1) with 1 by lra. apply scaleVec2_one.
    + pose proof (lengthVec2_nonneg v) as Hp.
      assert (Hd : dotProduct v (normalize v) = lengthVec2 v).
      { unfold normalize, normalizeDivisor, orElse. apply truthy_true in Hnz as Ht. rewrite Ht.
        replace (dotProduct v (scaleVec2 v (1 / lengthVec2 v)))
          with (dotProduct v v / lengthVec2 v) by (unfold dotProduct; simpl; field; exact Hnz).
        unfold lengthVec2 at 1. unfold lengthVec2 in Hnz.
        rewrite <- (sqrt_sqrt (dotProduct v v)) at 1 by apply dotProduct_self_nonneg.
        unfold lengthVec2. field. exact Hnz. }
      rewrite Hd. split; [exact Hp | reflexivity].
Qed.

(** ** Moving and rotating bodies *)

Lemma four_vertices (l : list Vector2) :
  length l = 4%nat -> l = [arr_get l 0; arr_get l 1; arr_get l 2; arr_get l 3].
Proof.
  destruct l as [|a [|b [|c [|d [|e t]]]]]; simpl; intros H; try discriminate. reflexivity.
Qed.

Lemma arr_set_four (a b c d : Vector2) (l : list Vector2) :
  arr_set 0 a (arr_set 1 b (arr_set 2 c (arr_set 3 d l))) = a :: b :: c :: d :: skipn 4 l.
Proof. destruct l as [|e0 [|e1 [|e2 [|e3 t]]]]; reflexivity. Qed.

Lemma set_vertices_twice (l l' : list Vector2) (b : Body) :
  set_vertices l (set_vertices l' b) = set_vertices l b.
Proof. reflexivity. Qed.

(** The loop [for (let i = 4; i--;) body.vertices[i] = f(body.vertices[i])]
    on a body with four vertices. *)
Lemma fold_vertices4 (f : Body -> Vector2 -> Vector2) (b : Body) :
  (forall l b', f (set_vertices l b') = f b') ->
  length (vertices b) = 4%nat ->
  fold_left (fun b0 i => set_vertices (arr_set i (f b0 (arr_get (vertices b0) i)) (vertices b0)) b0)
            (countdown 4) b
  = set_vertices [f b (arr_get (vertices b) 0); f b (arr_get (vertices b) 1);
                  f b (arr_get (vertices b) 2); f b (arr_get (vertices b) 3)] b.
Proof.
  intros Hf Hlen. rewrite (four_vertices _ Hlen) at 1.
  destruct (vertices b) as [|v0 [|v1 [|v2 [|v3 [|e t]]]]] eqn:Hv; try discriminate.
  unfold countdown. cbn [seq rev app fold_left].
  repeat (rewrite ?Hf; cbn [vertices set_vertices]; rewrite ?Hv; cbn [arr_set arr_get nth]).
  rewrite ?Hf. reflexivity.
Qed.

Lemma computeRectNormals_eq (b : Body) :
  computeRectNormals b
  = set_faceNormals (normalsOf (vertices b) ++ skipn 4 (faceNormals b)) b.
Proof.
  unfold computeRectNormals, countdown. cbn [seq rev app fold_left].
  cbn [vertices faceNormals set_faceNormals Nat.add Nat.modulo Nat.divmod fst snd Nat.sub].
  rewrite arr_set_four. reflexivity.
Qed.

Lemma calcBoundingBox_rect (b : Body) :
  type b = RECTANGLE ->
  calcBoundingBox b = set_boundingBox (bboxOf (center b) (vertices b)) b.
Proof. intros Ht. unfold calcBoundingBox. now rewrite Ht. Qed.

Lemma moveBody_rect (b : Body) (v : Vector2) (force : bool) :
  type b = RECTANGLE -> length (vertices b) = 4%nat ->
  negb force && (pinned b || Reqb (mass b) 0) = false ->
  _moveBody b v force
  = set_boundingBox
      (bboxOf (addVec2 (center b) v)
              [addVec2 (arr_get (vertices b) 0) v; addVec2 (arr_get (vertices b) 1) v;
               addVec2 (arr_get (vertices b) 2) v; addVec2 (arr_get (vertices b) 3) v])
      (set_vertices
         [addVec2 (arr_get (vertices b) 0) v; addVec2 (arr_get (vertices b) 1) v;
          addVec2 (arr_get (vertices b) 2) v; addVec2 (arr_get (vertices b) 3) v]
         (set_center (addVec2 (center b) v) b)).
Proof.
  intros Ht Hlen Hg. unfold _moveBody. rewrite Hg. cbn [type set_center]. rewrite Ht.
  pose proof (fold_vertices4 (fun _ p => addVec2 p v) (set_center (addVec2 (center b) v) b)
                (fun _ _ => eq_refl) Hlen) as Hf.
  cbv beta in Hf. rewrite Hf. rewrite calcBoundingBox_rect by exact Ht. reflexivity.
Qed.

Lemma moveBody_circle (b : Body) (v : Vector2) (force : bool) :
  type b = CIRCLE ->
  negb force && (pinned b || Reqb (mass b) 0) = false ->
  _moveBody b v force = set_center (addVec2 (center b) v) b.
Proof. intros Ht Hg. unfold _moveBody. rewrite Hg. cbn [type set_center]. now rewrite Ht. Qed.

Lemma rotateBody_rect (b : Body) (ang : R) :
  type b = RECTANGLE -> length (vertices b) = 4%nat ->
  rotateBody b ang
  = set_boundingBox
      (bboxOf (center b)
              [rotateVec2 (arr_get (vertices b) 0) (center b) ang;
               rotateVec2 (arr_get (vertices b) 1) (center b) ang;
               rotateVec2 (arr_get (vertices b) 2) (center b) ang;
               rotateVec2 (arr_get (vertices b) 3) (center b) ang])
      (set_faceNormals
         (normalsOf [rotateVec2 (arr_get (vertices b) 0) (center b) ang;
                     rotateVec2 (arr_get (vertices b) 1) (center b) ang;
                     rotateVec2 (arr_get (vertices b) 2) (center b) ang;
                     rotateVec2 (arr_get (vertices b) 3) (center b) ang]
          ++ skipn 4 (faceNormals b))
         (set_vertices
            [rotateVec2 (arr_get (vertices b) 0) (center b) ang;
             rotateVec2 (arr_get (vertices b) 1) (center b) ang;
             rotateVec2 (arr_get (vertices b) 2) (center b) ang;
             rotateVec2 (arr_get (vertices b) 3) (center b) ang]
            (set_angle (angle b + ang) b))).
Proof.
  intros Ht Hlen. unfold rotateBody. cbn [type set_angle]. rewrite Ht.
  pose proof (fold_vertices4 (fun b0 p => rotateVec2 p (center b0) ang)
                (set_angle (angle b + ang) b) (fun _ _ => eq_refl) Hlen) as Hf.
  cbv beta in Hf. rewrite Hf. rewrite computeRectNormals_eq.
  rewrite calcBoundingBox_rect by exact Ht. reflexivity.
Qed.

Lemma bboxOf_grows (c : Vector2) (vs : list Vector2) (init : Vector2) :
  let bb := fold_left
              (fun bb v => newVec2 (Rmax (x bb) (Rabs (x c - x v))) (Rmax (y bb) (Rabs (y c - y v))))
              vs init in
  x init <= x bb /\ y init <= y bb
  /\ forall v, In v vs -> Rabs (x c - x v) <= x bb /\ Rabs (y c - y v) <= y bb.
Proof.
  revert init. induction vs as [|p t IH]; intros init; simpl.
  - split; [lra|]. split; [lra|]. intros v [].
  - destruct (IH (newVec2 (Rmax (x init) (Rabs (x c - x p))) (Rmax (y init) (Rabs (y c - y p)))))
      as (Hx & Hy & Hall). simpl in Hx, Hy.
    pose proof (Rmax_l (x init) (Rabs (x c - x p))).
    pose proof (Rmax_l (y init) (Rabs (y c - y p))).
    pose proof (Rmax_r (x init) (Rabs (x c - x p))).
    pose proof (Rmax_r (y init) (Rabs (y c - y p))).
    split; [lra|]. split; [lra|].
    intros v [->|Hv]; [split; lra | now apply Hall].
Qed.

Lemma bboxOf_translate (c v : Vector2) (vs : list Vector2) :
  bboxOf (addVec2 c v) (map (fun p => addVec2 p v) vs) = bboxOf c vs.
Proof.
  unfold bboxOf. generalize (newVec2 0 0) as init.
  induction vs as [|p t IH]; intros init; simpl; [reflexivity|].
  rewrite <- IH. f_equal. f_equal; f_equal; f_equal; ring.
Qed.

Lemma normalsOf_translate (v p0 p1 p2 p3 : Vector2) :
  normalsOf [addVec2 p0 v; addVec2 p1 v; addVec2 p2 v; addVec2 p3 v] = normalsOf [p0; p1; p2; p3].
Proof.
  assert (H : forall p q, subtractVec2 (addVec2 p v) (addVec2 q v) = subtractVec2 p q)
    by (intros p q; apply vec_eq; simpl; ring).
  unfold normalsOf. cbn [arr_get nth]. now rewrite !H.
Qed.

Lemma calcBoundingBox_frame (b : Body) :
  constantsOf (calcBoundingBox b) = constantsOf b /\ motionOf (calcBoundingBox b) = motionOf b
  /\ restOf (calcBoundingBox b) = restOf b /\ faceNormals (calcBoundingBox b) = faceNormals b
  /\ center (calcBoundingBox b) = center b /\ vertices (calcBoundingBox b) = vertices b.
Proof. unfold calcBoundingBox. destruct (type b) eqn:E; repeat split. Qed.

Lemma vertex_loop_frame (g : Body -> nat -> list Vector2) (l : list nat) (b : Body) :
  let b' := fold_left (fun b0 i => set_vertices (g b0 i) b0) l b in
  constantsOf b' = constantsOf b /\ motionOf b' = motionOf b /\ restOf b' = restOf b
  /\ faceNormals b' = faceNormals b /\ center b' = center b /\ boundingBox b' = boundingBox b.
Proof.
  revert b. induction l as [|i t IH]; intros b; simpl; [repeat split|].
  destruct (IH (set_vertices (g b i) b)) as (-> & -> & -> & -> & -> & ->). repeat split.
Qed.

Lemma moveBody_frame (b : Body) (v : Vector2) (force : bool) :
  constantsOf (_moveBody b v force) = constantsOf b
  /\ motionOf (_moveBody b v force) = motionOf b
  /\ restOf (_moveBody b v force) = restOf b
  /\ faceNormals (_moveBody b v force) = faceNormals b
  /\ center (_moveBody b v force)
     = (if negb force && (pinned b || Reqb (mass b) 0) then center b else addVec2 (center b) v).
Proof.
  unfold _moveBody. destruct (negb force && (pinned b || Reqb (mass b) 0)); [repeat split|].
  cbn [type set_center]. destruct (type b) eqn:Et; [repeat split|].
  match goal with |- context [calcBoundingBox ?t] =>
    destruct (calcBoundingBox_frame t) as (-> & -> & -> & -> & -> & _) end.
  match goal with |- context [fold_left ?f ?l ?b0] =>
    destruct (vertex_loop_frame
                (fun b1 i => arr_set i (addVec2 (arr_get (vertices b1) i) v) (vertices b1)) l b0)
      as (-> & -> & -> & -> & -> & _) end.
  repeat split.
Qed.

(** X3. The exported [moveBody] translates the center of every body, pinned
    and static ones included, and nothing of its motion, its rest tracking
    or its constants.  For a circle only the center changes.  For a
    rectangle with its four vertices every vertex is translated, the face
    normals stay, and the recomputed bounding box is the one of the
    vertices before the move. *)
Theorem moveBody_translates (b : Body) (v : Vector2) :
  center (moveBody b v) = addVec2 (center b) v
  /\ constantsOf (moveBody b v) = constantsOf b
  /\ motionOf (moveBody b v) = motionOf b
  /\ restOf (moveBody b v) = restOf b
  /\ faceNormals (moveBody b v) = faceNormals b
  /\ (type b = CIRCLE -> moveBody b v = set_center (addVec2 (center b) v) b)
  /\ (type b = RECTANGLE -> length (vertices b) = 4%nat ->
        vertices (moveBody b v) = map (fun p => addVec2 p v) (vertices b)
        /\ boundingBox (moveBody b v) = bboxOf (center b) (vertices b)).
Proof.
  unfold moveBody.
  destruct (moveBody_frame b v true) as (Hk & Hm & Hr & Hn & Hc). simpl in Hc.
  split; [exact Hc|]. split; [exact Hk|]. split; [exact Hm|]. split; [exact Hr|].
  split; [exact Hn|]. split.
  - intros Ht. now apply moveBody_circle.
  - intros Ht Hlen. rewrite (moveBody_rect b v true Ht Hlen eq_refl).
    cbn [vertices boundingBox set_boundingBox set_vertices].
    destruct (vertices b) as [|p0 [|p1 [|p2 [|p3 [|e t]]]]]; try discriminate.
    cbn [arr_get nth map]. split; [reflexivity|].
    exact (bboxOf_translate (center b) v [p0; p1; p2; p3]).
Qed.

Lemma moveBody_translates_witness :
  vertices (moveBody (snd (createRectangle (createWorld None) (newVec2 0 0) 20 10 1 0.2 0.5))
                     (newVec2 3 4))
  = map (fun p => addVec2 p (newVec2 3 4))
        (vertices (snd (createRectangle (createWorld None) (newVec2 0 0) 20 10 1 0.2 0.5))).
Proof.
  apply (moveBody_translates _ (newVec2 3 4)); reflexivity.
Defined.

Lemma addVec2_assoc (p v w : Vector2) : addVec2 (addVec2 p v) w = addVec2 p (addVec2 v w).
Proof. apply vec_eq; simpl; ring. Qed.

Lemma addVec2_back (p v : Vector2) : addVec2 (addVec2 p v) (scaleVec2 v (-1)) = p.
Proof. apply vec_eq; simpl; ring. Qed.

(** X4. Two moves in a row are one move by the sum, for a circle and for
    a rectangle with its four vertices; moving a circle, or a rectangle
    whose bounding box agrees with its vertices, by [v] and then by [-v]
    gives the body back. *)
Theorem moveBody_compose (b : Body) (v w : Vector2) :
  (type b = CIRCLE \/ length (vertices b) = 4%nat) ->
  moveBody (moveBody b v) w = moveBody b (addVec2 v w)
  /\ ((type b = CIRCLE \/ boundingBox b = bboxOf (center b) (vertices b)) ->
      moveBody (moveBody b v) (scaleVec2 v (-1)) = b).
Proof.
  intros Hshape. unfold moveBody. destruct (type b) eqn:Et.
  - assert (Hm : forall b0 u, type b0 = CIRCLE ->
                         _moveBody b0 u true = set_center (addVec2 (center b0) u) b0)
      by (intros b0 u H0; now apply moveBody_circle).
    rewrite !(Hm b) by exact Et. rewrite !Hm by exact Et. cbn [center set_center].
    split.
    + rewrite addVec2_assoc. reflexivity.
    + intros _. rewrite addVec2_back. now destruct b.
  - destruct Hshape as [Hc|Hlen]; [discriminate|].
    assert (Hm : forall b0 u, type b0 = RECTANGLE -> length (vertices b0) = 4%nat ->
                   _moveBody b0 u true
                   = set_boundingBox
                       (bboxOf (addVec2 (center b0) u)
                          [addVec2 (arr_get (vertices b0) 0) u; addVec2 (arr_get (vertices b0) 1) u;
                           addVec2 (arr_get (vertices b0) 2) u; addVec2 (arr_get (vertices b0) 3) u])
                       (set_vertices
                          [addVec2 (arr_get (vertices b0) 0) u; addVec2 (arr_get (vertices b0) 1) u;
                           addVec2 (arr_get (vertices b0) 2) u; addVec2 (arr_get (vertices b0) 3) u]
                          (set_center (addVec2 (center b0) u) b0)))
      by (intros b0 u H0 H1; now apply moveBody_rect).
    rewrite !(Hm b) by assumption. rewrite !Hm by (try reflexivity; exact Et).
    cbn [center vertices set_boundingBox set_vertices set_center arr_get nth].
    split; [rewrite !addVec2_assoc; reflexivity|].
    rewrite !addVec2_back.
    intros [Hc|Hbb]; [discriminate|].
    apply body_ext; try reflexivity.
    + cbn [boundingBox set_boundingBox]. rewrite <- (four_vertices _ Hlen).
      symmetry. exact Hbb.
    + cbn [vertices set_boundingBox set_vertices]. symmetry. now apply four_vertices.
Qed.

Lemma moveBody_compose_witness :
  moveBody (moveBody ballA (newVec2 3 4)) (newVec2 1 1) = moveBody ballA (newVec2 4 5).
Proof.
  destruct (moveBody_compose ballA (newVec2 3 4) (newVec2 1 1) (or_introl eq_refl)) as [H _].
  rewrite H. f_equal. apply vec_eq; simpl; lra.
Defined.

(** X5. [calcBoundingBox] gives a circle the box [(bounds, bounds)], and a
    rectangle half extents that are not negative and that no vertex
    exceeds: every vertex is within the box around the center. *)
Theorem calcBoundingBox_encloses (b : Body) :
  (type b = CIRCLE -> boundingBox (calcBoundingBox b) = newVec2 (bounds b) (bounds b))
  /\ (type b = RECTANGLE ->
      0 <= x (boundingBox (calcBoundingBox b)) /\ 0 <= y (boundingBox (calcBoundingBox b))
      /\ forall v, In v (vertices b) ->
           Rabs (x (center b) - x v) <= x (boundingBox (calcBoundingBox b))
           /\ Rabs (y (center b) - y v) <= y (boundingBox (calcBoundingBox b))).
Proof.
  unfold calcBoundingBox. split; intros Ht; rewrite Ht; cbn [boundingBox set_boundingBox].
  - reflexivity.
  - exact (bboxOf_grows (center b) (vertices b) (newVec2 0 0)).
Qed.

(** What a projection that the setters of the geometry respect sees of a
    move or of a rotation. *)
Lemma vertex_loop_keeps {A : Type} (p : Body -> A) (g : Body -> nat -> list Vector2)
    (l : list nat) (b : Body) :
  (forall l0 b0, p (set_vertices l0 b0) = p b0) ->
  p (fold_left (fun b0 i => set_vertices (g b0 i) b0) l b) = p b.
Proof.
  intros Hp. revert b. induction l as [|i t IH]; intros b; simpl; [reflexivity|].
  rewrite IH. apply Hp.
Qed.

Lemma calcBoundingBox_keeps {A : Type} (p : Body -> A) (b : Body) :
  (forall v b0, p (set_boundingBox v b0) = p b0) -> p (calcBoundingBox b) = p b.
Proof. intros Hp. unfold calcBoundingBox. destruct (type b); apply Hp. Qed.

Lemma computeRectNormals_keeps {A : Type} (p : Body -> A) (b : Body) :
  (forall l b0, p (set_faceNormals l b0) = p b0) -> p (computeRectNormals b) = p b.
Proof. intros Hp. rewrite computeRectNormals_eq. apply Hp. Qed.

Lemma rotateBody_keeps {A : Type} (p : Body -> A) (b : Body) (ang : R) :
  (forall l0 b0, p (set_vertices l0 b0) = p b0) ->
  (forall v b0, p (set_boundingBox v b0) = p b0) ->
  (forall l b0, p (set_faceNormals l b0) = p b0) ->
  p (rotateBody b ang) = p (set_angle (angle b + ang) b).
Proof.
  intros Hv Hb Hn. unfold rotateBody. cbn [type set_angle].
  destruct (type b); [reflexivity|].
  rewrite (calcBoundingBox_keeps p _ Hb), (computeRectNormals_keeps p _ Hn).
  exact (vertex_loop_keeps p
           (fun b1 i => arr_set i (rotateVec2 (arr_get (vertices b1) i) (center b1) ang)
                                (vertices b1)) _ _ Hv).
Qed.

Lemma moveBody_keeps {A : Type} (p : Body -> A) (b : Body) (v : Vector2) (force : bool) :
  (forall l0 b0, p (set_vertices l0 b0) = p b0) ->
  (forall v0 b0, p (set_boundingBox v0 b0) = p b0) ->
  (forall c b0, p (set_center c b0) = p b0) ->
  p (_moveBody b v force) = p b.
Proof.
  intros Hv Hb Hc. unfold _moveBody.
  destruct (negb force && (pinned b || Reqb (mass b) 0)); [reflexivity|].
  cbn [type set_center]. destruct (type b); [apply Hc|].
  rewrite (calcBoundingBox_keeps p _ Hb).
  rewrite (vertex_loop_keeps p
             (fun b1 i => arr_set i (addVec2 (arr_get (vertices b1) i) v) (vertices b1)) _ _ Hv).
  apply Hc.
Qed.

Lemma rotateBody_frame (b : Body) (ang : R) :
  angle (rotateBody b ang) = angle b + ang
  /\ center (rotateBody b ang) = center b
  /\ constantsOf (rotateBody b ang) = constantsOf b
  /\ velocity (rotateBody b ang) = velocity b
  /\ angularVelocity (rotateBody b ang) = angularVelocity b
  /\ restOf (rotateBody b ang) = restOf b.
Proof.
  repeat split; rewrite rotateBody_keeps; reflexivity.
Qed.

(** X6. [rotateBody] adds the angle and keeps the center and the
    constants of the body.  Of a circle it changes nothing else.  Of a
    rectangle with its four vertices it rotates every vertex about the
    center; two rotations in a row are one rotation by the sum of the
    angles, and rotating back brings the vertices back. *)
Theorem rotateBody_compose (b : Body) (a1 a2 : R) :
  angle (rotateBody b a1) = angle b + a1
  /\ center (rotateBody b a1) = center b
  /\ constantsOf (rotateBody b a1) = constantsOf b
  /\ (type b = CIRCLE -> rotateBody b a1 = set_angle (angle b + a1) b)
  /\ (type b = RECTANGLE -> length (vertices b) = 4%nat ->
      vertices (rotateBody b a1) = map (fun p => rotateVec2 p (center b) a1) (vertices b)
      /\ rotateBody (rotateBody b a1) a2 = rotateBody b (a1 + a2)
      /\ vertices (rotateBody (rotateBody b a1) (- a1)) = vertices b).
Proof.
  destruct (rotateBody_frame b a1) as (Ha & Hc & Hk & _).
  split; [exact Ha|]. split; [exact Hc|]. split; [exact Hk|]. split.
  { intros Ht. unfold rotateBody. cbn [type set_angle]. now rewrite Ht. }
  intros Ht Hlen.
  assert (Hr : forall b0 a0, type b0 = RECTANGLE -> length (vertices b0) = 4%nat ->
                 vertices (rotateBody b0 a0)
                 = [rotateVec2 (arr_get (vertices b0) 0) (center b0) a0;
                    rotateVec2 (arr_get (vertices b0) 1) (center b0) a0;
                    rotateVec2 (arr_get (vertices b0) 2) (center b0) a0;
                    rotateVec2 (arr_get (vertices b0) 3) (center b0) a0]).
  { intros b0 a0 H0 H1. now rewrite (rotateBody_rect b0 a0 H0 H1). }
  assert (Ht1 : type (rotateBody b a1) = RECTANGLE).
  { rewrite (rotateBody_keeps type); [exact Ht | reflexivity..]. }
  assert (Hlen1 : length (vertices (rotateBody b a1)) = 4%nat) by now rewrite Hr.
  assert (Hcomp : forall a0, vertices (rotateBody (rotateBody b a1) a0)
                             = vertices (rotateBody b (a1 + a0))).
  { intros a0. rewrite (Hr (rotateBody b a1) a0 Ht1 Hlen1), Hc, (Hr b a1 Ht Hlen).
    rewrite (Hr b (a1 + a0) Ht Hlen). cbn [arr_get nth].
    now rewrite !rotateVec2_add. }
  split; [|split].
  - rewrite (Hr b a1 Ht Hlen). rewrite (four_vertices _ Hlen) at 5. reflexivity.
  - rewrite (rotateBody_rect (rotateBody b a1) a2 Ht1 Hlen1).
    rewrite (rotateBody_rect b (a1 + a2) Ht Hlen).
    pose proof (Hcomp a2) as Hv.
    rewrite (Hr (rotateBody b a1) a2 Ht1 Hlen1), (Hr b (a1 + a2) Ht Hlen) in Hv.
    rewrite Hc in *. rewrite Hv.
    apply body_ext;
      cbn [id type center averageCenter friction restitution mass velocity acceleration angle
           averageAngle angularVelocity angularAcceleration bounds boundingBox width height
           inertia faceNormals vertices pinned restingTime static permeability
           set_boundingBox set_faceNormals set_vertices set_angle];
      try reflexivity;
      try (rewrite rotateBody_keeps; reflexivity).
    + rewrite Ha. ring.
    + f_equal. rewrite (rotateBody_rect b a1 Ht Hlen).
      cbn [faceNormals set_boundingBox set_faceNormals]. reflexivity.
  - rewrite Hcomp. replace (a1 + - a1) with 0 by ring.
    rewrite (Hr b 0 Ht Hlen).
    rewrite !rotateVec2_zero. symmetry. now apply four_vertices.
Qed.

(** ** Invariants of the step *)

Section StepInvariant.

Variable Q : Body -> Prop.
Hypothesis HQ : stepInvariant Q.
Variable a : nat.

Lemma upd_invariant (a' : nat) (f : Body -> Body) (h : Heap) :
  (forall b, Q b -> Q (f b)) -> Q (h a) -> Q (upd a' f h a).
Proof. intros Hf Hh. unfold upd. destruct (Nat.eqb a a'); [now apply Hf | exact Hh]. Qed.

Lemma integrateBody_invariant (fps : R) (b : Body) : Q b -> Q (integrateBody fps b).
Proof.
  destruct HQ as (HM & HR & HV & HW & _). intros Hb. unfold integrateBody.
  apply HR, HW, HM, HV, Hb.
Qed.

Lemma trackBody_invariant (fps : R) (b : Body) : Q b -> Q (trackBody fps b).
Proof.
  destruct HQ as (_ & _ & _ & _ & Ht & Hc & Ha). intros Hb. unfold trackBody.
  repeat match goal with
         | |- Q (if ?c then _ else _) => destruct c
         | |- Q (set_restingTime _ _) => apply Ht
         | |- Q (set_averageCenter _ _) => apply Hc
         | |- Q (set_averageAngle _ _) => apply Ha
         end; exact Hb.
Qed.

Lemma impulse_invariant (world : World) (i : Vector2) (c j : R) (b : Body) :
  Q b ->
  Q (unlessStatic (subtractImpulse i c j) b) /\ Q (unlessStatic (addImpulse i c j) b)
  /\ Q (unlessStatic (fun s => dampBody world (subtractImpulse i c j s)) b)
  /\ Q (unlessStatic (fun s => dampBody world (addImpulse i c j s)) b).
Proof.
  destruct HQ as (_ & _ & HV & HW & _). intros Hb.
  assert (Hs : Q (subtractImpulse i c j b)) by (unfold subtractImpulse; apply HW, HV, Hb).
  assert (Ha : Q (addImpulse i c j b)) by (unfold addImpulse; apply HW, HV, Hb).
  assert (Hd : forall s, Q s -> Q (dampBody world s)).
  { intros s Hs0. unfold dampBody.
    match goal with |- Q (if ?c then _ else _) => destruct c end;
      repeat first [apply HV | apply HW]; exact Hs0. }
  unfold unlessStatic. destruct (static b); repeat split; auto.
Qed.

Lemma resolveCollision_invariant (world : World) (s1 s2 : nat) (info : CollisionDetails) (h : Heap) :
  Q (h a) -> Q (fst (resolveCollision world s1 s2 info h) a).
Proof.
  destruct HQ as (HM & _). intros Hh.
  assert (Hcp : Q (correctPositions s1 s2 info h a)).
  { unfold correctPositions. apply upd_invariant; [intros b; apply HM|].
    apply upd_invariant; [intros b; apply HM | exact Hh]. }
  unfold resolveCollision.
  destruct (negb _ && negb _); [exact Hh|].
  destruct (Reqb _ 0 && Reqb _ 0); [exact Hh|].
  destruct (Rgtb _ 0); simpl; [exact Hcp|].
  unfold applyImpulses. cbv zeta.
  apply upd_invariant;
    [intros b Hb; exact (proj2 (proj2 (proj2 (impulse_invariant world _ _ _ b Hb))))|].
  apply upd_invariant;
    [intros b Hb; exact (proj1 (proj2 (proj2 (impulse_invariant world _ _ _ b Hb))))|].
  apply upd_invariant;
    [intros b Hb; exact (proj1 (proj2 (impulse_invariant world _ _ _ b Hb)))|].
  apply upd_invariant;
    [intros b Hb; exact (proj1 (impulse_invariant world _ _ _ b Hb))|].
  exact Hcp.
Qed.

Lemma collidePair_invariant (world : World) (all : list nat) (i j : nat) (st : PassState) :
  Q (fst (fst st) a) -> Q (fst (fst (collidePair world all i j st)) a).
Proof.
  destruct HQ as (_ & _ & HV & HW & _).
  intros Hh. destruct st as [[h cs] fl]. simpl in Hh. unfold collidePair.
  destruct (Nat.eqb i j); [exact Hh|].
  destruct (boundTest _ _); [|exact Hh].
  destruct (testCollision _ _) as [info|]; [|exact Hh].
  destruct (Rgtb _ 0).
  - simpl. apply upd_invariant; [|exact Hh].
    intros b Hb. unfold passThrough. apply HW, HV, HV, Hb.
  - pose proof (resolveCollision_invariant world (nth i (dynamicBodies world) 0%nat)
                  (nth j all 0%nat)
                  (orient info (h (nth i (dynamicBodies world) 0%nat)) (h (nth j all 0%nat)))
                  h Hh) as Hr.
    destruct (resolveCollision _ _ _ _ _) as [h' resolved]. simpl in Hr.
    destruct resolved; exact Hr.
Qed.

Lemma applyJoints_invariant (fps : R) (world : World) (all : list nat) (h : Heap) :
  Q (h a) -> Q (applyJoints fps world all h a).
Proof.
  destruct HQ as (HM & _ & HV & _).
  intros Hh. unfold applyJoints.
  apply (fold_left_invariant (fun h0 : Heap => Q (h0 a))); [|exact Hh].
  intros h0 body _ Hh0.
  apply (fold_left_invariant (fun h1 : Heap => Q (h1 a))); [|exact Hh0].
  intros h1 joint _ Hh1. unfold applyJoint.
  destruct (findBody all _ h1) as [other|]; [|exact Hh1].
  destruct (negb (Reqb _ 0)); [|exact Hh1].
  apply upd_invariant; [intros b; apply HV|].
  apply upd_invariant; [intros b; apply HM | exact Hh1].
Qed.

Lemma stepPhysics_invariant (fps : R) (world : World) (h : Heap) :
  Q (h a) -> Q (fst (snd (stepPhysics fps world h)) a).
Proof.
  intros Hh.
  destruct (resolveLoop_passes 9 world (enabledBodies world) (beforeLoop fps world h))
    as (_ & _ & Hst & _).
  change (stepPhysics fps world h)
    with (resolveLoop 9 world (enabledBodies world) (beforeLoop fps world h)).
  rewrite Hst.
  generalize (fst (resolveLoop 9 world (enabledBodies world) (beforeLoop fps world h))).
  intros m. induction m as [|m IH].
  - simpl. apply applyJoints_invariant. unfold integrate.
    apply (fold_left_invariant (fun h0 : Heap => Q (h0 a))); [|exact Hh].
    intros h0 body _ Hh0. apply upd_invariant; [|exact Hh0].
    intros b. apply integrateBody_invariant.
  - simpl. unfold passResult, collisionPass.
    apply (fold_left_invariant (fun s : PassState => Q (fst (fst s) a))); [|exact IH].
    intros s i _ Hs.
    apply (fold_left_invariant (fun s : PassState => Q (fst (fst s) a))); [|exact Hs].
    intros s0 j _ Hs0. now apply collidePair_invariant.
Qed.

Lemma worldStep_invariant (fps : R) (world : World) (h : Heap) :
  Q (h a) -> Q (fst (worldStep fps world h) a).
Proof.
  intros Hh. rewrite worldStep_tracks. unfold trackStability.
  apply (fold_left_invariant (fun h0 : Heap => Q (h0 a))).
  - intros h0 body _ Hh0. apply upd_invariant; [|exact Hh0].
    intros b. apply trackBody_invariant.
  - now apply stepPhysics_invariant.
Qed.

End StepInvariant.

Ltac split_stepInvariant :=
  unfold stepInvariant; split; [|split; [|split; [|split; [|split; [|split]]]]].

Lemma constants_stepInvariant (k : _) : stepInvariant (fun b => constantsOf b = k).
Proof.
  split_stepInvariant; intros b v Hb; try exact Hb.
  - rewrite (moveBody_keeps constantsOf); [exact Hb | reflexivity..].
  - rewrite (rotateBody_keeps constantsOf); [exact Hb | reflexivity..].
Qed.

(** X7. A step assigns none of the constants of a body: the id, the
    shape type, the friction, the restitution, the inverse mass, the
    inertia, the accelerations, the dimensions, the [pinned] and [static]
    flags and the permeability of every body are after [worldStep] what
    they were before. *)
Theorem worldStep_keeps_constants (fps : R) (world : World) (h : Heap) (a : nat) :
  constantsOf (fst (worldStep fps world h) a) = constantsOf (h a).
Proof.
  apply (worldStep_invariant (fun b => constantsOf b = constantsOf (h a))
           (constants_stepInvariant _) a fps world h eq_refl).
Qed.

Lemma consistentRect_moveBody (b : Body) (v : Vector2) (force : bool) :
  consistentRect b -> consistentRect (_moveBody b v force).
Proof.
  intros (Ht & Hlen & Hn & Hb).
  destruct (negb force && (pinned b || Reqb (mass b) 0)) eqn:Hg.
  - unfold _moveBody. rewrite Hg. now repeat split.
  - rewrite (moveBody_rect b v force Ht Hlen Hg). unfold consistentRect.
    cbn [type vertices faceNormals boundingBox center set_boundingBox set_vertices set_center].
    split; [exact Ht|]. split; [reflexivity|]. split; [|reflexivity].
    rewrite normalsOf_translate, Hn. f_equal. now apply four_vertices.
Qed.

Lemma consistentRect_rotateBody (b : Body) (ang : R) :
  consistentRect b -> consistentRect (rotateBody b ang).
Proof.
  intros (Ht & Hlen & Hn & Hb).
  rewrite (rotateBody_rect b ang Ht Hlen). unfold consistentRect.
  cbn [type vertices faceNormals boundingBox center
       set_boundingBox set_faceNormals set_vertices set_angle].
  split; [exact Ht|]. split; [reflexivity|]. split; [|reflexivity].
  rewrite Hn. cbn [normalsOf skipn]. apply app_nil_r.
Qed.

Lemma consistentRect_stepInvariant : stepInvariant consistentRect.
Proof.
  split_stepInvariant; intros b v Hb;
    try (destruct Hb as (? & ? & ? & ?); repeat split; assumption).
  - now apply consistentRect_moveBody.
  - now apply consistentRect_rotateBody.
Qed.

Lemma createRectangle_consistent (world : World) (c : Vector2) (w ht m f r : R) :
  consistentRect (snd (createRectangle world c w ht m f r)).
Proof.
  unfold createRectangle, createRigidBody. cbn [snd].
  rewrite computeRectNormals_eq. rewrite calcBoundingBox_rect by reflexivity.
  unfold consistentRect.
  cbn [type vertices faceNormals boundingBox center set_boundingBox set_faceNormals skipn].
  split; [reflexivity|]. split; [reflexivity|]. split; [apply app_nil_r | reflexivity].
Qed.

(** X8. The geometry of a rectangle stays consistent.  [createRectangle]
    returns a rectangle with four vertices whose face normals and bounding
    box are the ones derived from its vertices and its center, and
    [moveBody], [rotateBody] and [worldStep] keep every such rectangle
    so. *)
Theorem rectangle_geometry_consistent :
  (forall world c w ht m f r, consistentRect (snd (createRectangle world c w ht m f r)))
  /\ (forall b v, consistentRect b -> consistentRect (moveBody b v))
  /\ (forall b ang, consistentRect b -> consistentRect (rotateBody b ang))
  /\ (forall fps world h a,
        consistentRect (h a) -> consistentRect (fst (worldStep fps world h) a)).
Proof.
  split; [exact createRectangle_consistent|].
  split; [intros b v; apply consistentRect_moveBody|].
  split; [exact consistentRect_rotateBody|].
  intros fps world h a. apply (worldStep_invariant consistentRect consistentRect_stepInvariant).
Qed.

Lemma immobile_stepInvariant (c : Vector2) :
  stepInvariant (fun b => (pinned b = true \/ mass b = 0) /\ center b = c).
Proof.
  split_stepInvariant; intros b v [Hpm Hc]; try (split; assumption).
  - destruct Hpm as [Hp|Hm];
      [rewrite moveBody_pinned by exact Hp | rewrite moveBody_static by exact Hm]; auto.
  - split.
    + rewrite (rotateBody_keeps pinned), (rotateBody_keeps mass); [exact Hpm | reflexivity..].
    + rewrite (rotateBody_keeps center); [exact Hc | reflexivity..].
Qed.

(** X9. A body that is pinned, or has inverse mass zero, is not translated
    by [worldStep], in whatever collection it is stored: its center after
    the step is its center before, though a pinned body may have turned. *)
Theorem pinned_body_keeps_center (fps : R) (world : World) (h : Heap) (a : nat) :
  pinned (h a) = true \/ mass (h a) = 0 ->
  center (fst (worldStep fps world h) a) = center (h a).
Proof.
  intros Hpm.
  apply (worldStep_invariant _ (immobile_stepInvariant (center (h a))) a fps world h).
  now split.
Qed.

Lemma pinned_body_keeps_center_witness :
  center (fst (worldStep 60 twoBodyWorld pinHeap) 0%nat) = newVec2 0 0.
Proof.
  apply (pinned_body_keeps_center 60 twoBodyWorld pinHeap 0%nat). left. reflexivity.
Defined.

(** ** Collision detection *)

Lemma Rabs_le_length (a b : R) : Rabs a <= sqrt (a * a + b * b).
Proof.
  rewrite <- sqrt_square_abs. apply sqrt_le_1_alt. nra.
Qed.

Lemma Rabs_le_length' (a b : R) : Rabs b <= sqrt (a * a + b * b).
Proof.
  rewrite <- sqrt_square_abs. apply sqrt_le_1_alt. nra.
Qed.

Lemma boundTest_true (s1 s2 : Body) :
  boundTest s1 s2 = true
  <-> Rabs (x (center s1) - x (center s2)) < x (boundingBox s1) + x (boundingBox s2)
      /\ Rabs (y (center s1) - y (center s2)) < y (boundingBox s1) + y (boundingBox s2).
Proof. unfold boundTest. rewrite andb_true_iff, !Rltb_true. reflexivity. Qed.

(** X10. The broad phase is symmetric, and it lets through every pair of
    circles that overlap by more than a point: if the bounding boxes are
    the ones [calcBoundingBox] gives circles and the distance of the
    centers is less than the sum of the radii, [boundTest] is true.  Two
    circles that touch along a coordinate axis, be it the x axis or the y
    axis, do not pass it. *)
Theorem boundTest_circles (s1 s2 : Body) :
  boundTest s1 s2 = boundTest s2 s1
  /\ (boundingBox s1 = newVec2 (bounds s1) (bounds s1) ->
      boundingBox s2 = newVec2 (bounds s2) (bounds s2) ->
      (lengthVec2 (subtractVec2 (center s2) (center s1)) < bounds s1 + bounds s2 ->
       boundTest s1 s2 = true)
      /\ (Rabs (x (center s1) - x (center s2)) = bounds s1 + bounds s2 ->
          boundTest s1 s2 = false)
      /\ (Rabs (y (center s1) - y (center s2)) = bounds s1 + bounds s2 ->
          boundTest s1 s2 = false)).
Proof.
  split.
  - unfold boundTest.
    rewrite (Rabs_minus_sym (x (center s1))), (Rabs_minus_sym (y (center s1))).
    rewrite (Rplus_comm (x (boundingBox s1))), (Rplus_comm (y (boundingBox s1))).
    reflexivity.
  - intros H1 H2. split.
    + intros Hd. apply boundTest_true. rewrite H1, H2. unfold newVec2. cbn [x y].
      rewrite lengthVec2_subtract in Hd.
      pose proof (Rabs_le_length (x (center s2) - x (center s1))
                    (y (center s2) - y (center s1))) as Hx.
      pose proof (Rabs_le_length' (x (center s2) - x (center s1))
                    (y (center s2) - y (center s1))) as Hy.
      rewrite (Rabs_minus_sym (x (center s1))), (Rabs_minus_sym (y (center s1))).
      split; lra.
    + split; intros Ht; (destruct (boundTest s1 s2) eqn:E; [|reflexivity]);
        apply boundTest_true in E; rewrite H1, H2 in E; unfold newVec2 in E;
        cbn [x y] in E; lra.
Qed.

Lemma boundTest_circles_witness :
  boundTest ballA ballB = true
  /\ boundTest ballA (circleAt 2 20 0 10) = false
  /\ boundTest ballA (circleAt 2 0 20 10) = false.
Proof.
  split; [|split].
  - apply (boundTest_circles ballA ballB); try reflexivity.
    rewrite length_ball_gap. simpl. lra.
  - destruct (boundTest_circles ballA (circleAt 2 20 0 10)) as [_ H].
    destruct (H eq_refl eq_refl) as (_ & Hx & _). apply Hx.
    simpl. rewrite Rabs_left; lra.
  - destruct (boundTest_circles ballA (circleAt 2 0 20 10)) as [_ H].
    destruct (H eq_refl eq_refl) as (_ & _ & Hy). apply Hy.
    simpl. rewrite Rabs_left; lra.
Defined.

Lemma setCollisionInfo_wellformed (D : R) (N S : Vector2) :
  end_ (setCollisionInfo D N S)
  = addVec2 (start (setCollisionInfo D N S))
            (scaleVec2 (normal (setCollisionInfo D N S)) (depth (setCollisionInfo D N S))).
Proof.
  now rewrite setCollisionInfo_end, setCollisionInfo_start, setCollisionInfo_normal,
    setCollisionInfo_depth.
Qed.

Lemma fold_support_positive {B : Type} (f : option Vector2 * R -> B -> option Vector2 * R)
    (l : list B) (acc : option Vector2 * R) :
  (forall acc0 j, (forall q, fst acc0 = Some q -> 0 < snd acc0) ->
                  forall q, fst (f acc0 j) = Some q -> 0 < snd (f acc0 j)) ->
  (forall q, fst acc = Some q -> 0 < snd acc) ->
  forall q, fst (fold_left f l acc) = Some q -> 0 < snd (fold_left f l acc).
Proof.
  intros Hf. revert acc. induction l as [|j t IH]; intros acc Hacc; simpl; [exact Hacc|].
  apply IH. now apply Hf.
Qed.

Lemma supportOn_positive (otherRect : Body) (pt dir p : Vector2) (d : R) :
  supportOn otherRect pt dir = (Some p, d) -> 0 < d.
Proof.
  intros H. change d with (snd (Some p, d)). rewrite <- H. unfold supportOn.
  apply (fun Hf Hi => fold_support_positive _ (countdown 4) (None, -1e9) Hf Hi p).
  - intros acc j Hacc q. cbv zeta.
    destruct (Rgtb _ 0 && Rgtb _ (snd acc)) eqn:E; [|apply Hacc].
    intros _. simpl. apply andb_true_iff in E as [E _]. apply Rgtb_true in E. lra.
  - intros q Hq. discriminate.
  - change (fst (supportOn otherRect pt dir) = Some p). now rewrite H.
Qed.

Lemma axisLoop_positive (rect otherRect : Body) (faces : list nat) (bd : R)
    (best : option (nat * Vector2)) (bd' : R) (best' : nat * Vector2) :
  (best <> None -> 0 < bd) ->
  axisLoop rect otherRect faces bd best = Some (bd', Some best') -> 0 < bd'.
Proof.
  revert bd best. induction faces as [|i t IH]; intros bd best Hb; simpl.
  - intros H. injection H as -> ->. apply Hb. discriminate.
  - destruct (supportOn otherRect _ _) as [[p|] d] eqn:Es; [|discriminate].
    apply supportOn_positive in Es.
    destruct (Rltb d bd); apply IH; auto.
Qed.

Lemma findAxisLeastPenetration_positive (rect otherRect : Body) (info : CollisionDetails) :
  findAxisLeastPenetration rect otherRect = Some info ->
  0 < depth info
  /\ end_ info = addVec2 (start info) (scaleVec2 (normal info) (depth info)).
Proof.
  unfold findAxisLeastPenetration.
  destruct (axisLoop rect otherRect (countdown 4) 1e9 None) as [[bd [[i sp]|]]|] eqn:E;
    try discriminate.
  intros H. injection H as <-. split; [|apply setCollisionInfo_wellformed].
  rewrite setCollisionInfo_depth.
  apply (axisLoop_positive rect otherRect (countdown 4) 1e9 None bd (i, sp)); [|exact E].
  intros Hn. now contradiction Hn.
Qed.

Lemma nearestFace_sign (c1 c2 : Body) (faces : list nat) (bd : R) (e : nat) :
  bd <= 0 ->
  let '(inside, bd', e') := nearestFace c1 c2 faces bd e in
  if inside then bd' <= 0 else 0 < bd'.
Proof.
  revert bd e. induction faces as [|i t IH]; intros bd e Hbd; simpl; [exact Hbd|].
  destruct (Rgtb _ 0) eqn:E0.
  - apply Rgtb_true in E0. lra.
  - apply Rgtb_false in E0. destruct (Rgtb _ bd); apply IH; lra.
Qed.

Lemma testRectRect_positive (c1 c2 : Body) (info : CollisionDetails) :
  testRectRect c1 c2 = Some info ->
  0 < depth info
  /\ end_ info = addVec2 (start info) (scaleVec2 (normal info) (depth info)).
Proof.
  unfold testRectRect.
  destruct (findAxisLeastPenetration c1 c2) as [i1|] eqn:E1; [|discriminate].
  destruct (findAxisLeastPenetration c2 c1) as [i2|] eqn:E2; [|discriminate].
  apply findAxisLeastPenetration_positive in E1 as [P1 _].
  apply findAxisLeastPenetration_positive in E2 as [P2 _].
  destruct (Rltb (depth i1) (depth i2)); intros H; injection H as <-;
    (split; [rewrite setCollisionInfo_depth; assumption | apply setCollisionInfo_wellformed]).
Qed.

Lemma testRectCircle_nonneg (c1 c2 : Body) (info : CollisionDetails) :
  0 <= bounds c2 ->
  testRectCircle c1 c2 = Some info ->
  0 <= depth info
  /\ end_ info = addVec2 (start info) (scaleVec2 (normal info) (depth info)).
Proof.
  intros Hb. unfold testRectCircle.
  pose proof (nearestFace_sign c1 c2 (countdown 4) (-1e9) 0%nat ltac:(lra)) as Hs.
  destruct (nearestFace c1 c2 (countdown 4) (-1e9) 0%nat) as [[inside bd] e].
  destruct inside.
  - intros H. injection H as <-.
    split; [rewrite setCollisionInfo_depth; lra | apply setCollisionInfo_wellformed].
  - cbv zeta. generalize ((e + 1) mod 4)%nat as e1. intros e1.
    repeat match goal with
           | |- (if Rltb ?a ?b then _ else _) = _ -> _ =>
               let E := fresh "E" in destruct (Rltb a b) eqn:E
           | |- (if Rgtb ?a ?b then _ else _) = _ -> _ =>
               let E := fresh "E" in destruct (Rgtb a b) eqn:E
           end; try discriminate;
      intros H; injection H as <-;
      (split; [rewrite setCollisionInfo_depth | apply setCollisionInfo_wellformed]);
      repeat match goal with
             | E : Rgtb _ _ = false |- _ => apply Rgtb_false in E
             | E : Rltb _ _ = true |- _ => apply Rltb_true in E
             end; lra.
Qed.

Lemma contact_depth_nonneg (c1 c2 : Body) (info : CollisionDetails) :
  (type c1 = CIRCLE -> 0 <= bounds c1) ->
  (type c2 = CIRCLE -> 0 <= bounds c2) ->
  testCollision c1 c2 = Some info -> 0 <= depth info.
Proof.
  intros H1 H2. unfold testCollision.
  destruct (Reqb (mass c1) 0 && Reqb (mass c2) 0); [discriminate|].
  destruct (type c1) eqn:E1; destruct (type c2) eqn:E2.
  - unfold testCircleCircle.
    destruct (Rleb _ _) eqn:E; [|discriminate]. apply Rleb_true in E.
    intros H. injection H as <-. rewrite setCollisionInfo_depth.
    rewrite sqrt_square_abs, Rabs_right in E; [lra|].
    specialize (H1 eq_refl). specialize (H2 eq_refl). lra.
  - intros H. apply (testRectCircle_nonneg c2 c1 info (H1 eq_refl) H).
  - intros H. apply (testRectCircle_nonneg c1 c2 info (H2 eq_refl) H).
  - intros H. destruct (testRectRect_positive c1 c2 info H) as [Hp _]. lra.
Qed.

(** X11. Whatever the shapes, a contact [testCollision] reports has a
    depth that is not negative, provided the circles among the two bodies
    have radii that are not negative, and its end point is its start point
    moved by the depth along the normal. *)
Theorem testCollision_depth_nonneg (c1 c2 : Body) (info : CollisionDetails) :
  (type c1 = CIRCLE -> 0 <= bounds c1) ->
  (type c2 = CIRCLE -> 0 <= bounds c2) ->
  testCollision c1 c2 = Some info ->
  0 <= depth info
  /\ end_ info = addVec2 (start info) (scaleVec2 (normal info) (depth info)).
Proof.
  intros H1 H2. unfold testCollision.
  destruct (Reqb (mass c1) 0 && Reqb (mass c2) 0); [discriminate|].
  destruct (type c1) eqn:E1; destruct (type c2) eqn:E2.
  - unfold testCircleCircle.
    destruct (Rleb _ _) eqn:E; [|discriminate]. apply Rleb_true in E.
    intros H. injection H as <-.
    split; [|apply setCollisionInfo_wellformed].
    rewrite setCollisionInfo_depth.
    rewrite sqrt_square_abs, Rabs_right in E; [lra|].
    specialize (H1 eq_refl). specialize (H2 eq_refl). lra.
  - intros H. apply (testRectCircle_nonneg c2 c1 info (H1 eq_refl) H).
  - intros H. apply (testRectCircle_nonneg c1 c2 info (H2 eq_refl) H).
  - intros H. destruct (testRectRect_positive c1 c2 info H) as [Hp Hw]. split; [lra | exact Hw].
Qed.

Lemma testCollision_depth_nonneg_witness :
  0 <= depth ballContact
  /\ end_ ballContact = addVec2 (start ballContact)
                                (scaleVec2 (normal ballContact) (depth ballContact)).
Proof.
  apply (testCollision_depth_nonneg ballA ballB ballContact).
  - intros _. simpl. lra.
  - intros _. simpl. lra.
  - exact ball_contact.
Defined.

Lemma findAxis_symmetric_detection (c1 c2 : Body) :
  (exists info, testRectRect c1 c2 = Some info) <-> (exists info, testRectRect c2 c1 = Some info).
Proof.
  unfold testRectRect.
  destruct (findAxisLeastPenetration c1 c2) as [i1|];
    destruct (findAxisLeastPenetration c2 c1) as [i2|];
    try (split; intros [i H]; discriminate).
  split; intros _; [destruct (Rltb (depth i2) (depth i1)) | destruct (Rltb (depth i1) (depth i2))];
    eexists; reflexivity.
Qed.

(** X12. Detection does not depend on the order of the two bodies:
    [testCollision] reports a contact for [c1] and [c2] exactly when it
    reports one for [c2] and [c1], and the two contacts have the same depth.
    For a circle and a rectangle the two contacts are the same contact; for
    two circles the normals are opposite. *)
Theorem testCollision_symmetric (c1 c2 : Body) :
  ((exists info, testCollision c1 c2 = Some info)
   <-> (exists info, testCollision c2 c1 = Some info))
  /\ (forall i12 i21, testCollision c1 c2 = Some i12 -> testCollision c2 c1 = Some i21 ->
        depth i12 = depth i21)
  /\ (type c1 <> type c2 -> testCollision c1 c2 = testCollision c2 c1)
  /\ (type c1 = CIRCLE -> type c2 = CIRCLE ->
      forall i12 i21, testCollision c1 c2 = Some i12 -> testCollision c2 c1 = Some i21 ->
        normal i21 = scaleVec2 (normal i12) (-1)).
Proof.
  unfold testCollision. rewrite (andb_comm (Reqb (mass c2) 0)).
  destruct (Reqb (mass c1) 0 && Reqb (mass c2) 0).
  { split; [tauto|]. split; [discriminate|]. split; [reflexivity | discriminate]. }
  destruct (type c1) eqn:E1; destruct (type c2) eqn:E2.
  - unfold testCircleCircle.
    rewrite (lengthVec2_subtract_sym (center c1) (center c2)).
    rewrite (Rplus_comm (bounds c2) (bounds c1)).
    destruct (Rleb _ _).
    + split; [split; intros _; eexists; reflexivity|].
      split; [intros i12 i21 H12 H21; injection H12 as <-; injection H21 as <-;
              now rewrite !setCollisionInfo_depth|].
      split; [congruence|].
      intros _ _ i12 i21 H12 H21. injection H12 as <-. injection H21 as <-.
      rewrite !setCollisionInfo_normal.
      unfold normalize, normalizeDivisor. rewrite (lengthVec2_subtract_sym (center c1) (center c2)).
      apply vec_eq; simpl; ring.
    + split; [tauto|]. split; [discriminate|]. split; [congruence | discriminate].
  - split; [tauto|]. split; [congruence|]. split; [reflexivity | discriminate].
  - split; [tauto|]. split; [congruence|]. split; [reflexivity | discriminate].
  - split; [apply findAxis_symmetric_detection|].
    split; [|split; [congruence | discriminate]].
    unfold testRectRect.
    destruct (findAxisLeastPenetration c1 c2) as [i1|]; [|discriminate].
    destruct (findAxisLeastPenetration c2 c1) as [i2|]; [|discriminate].
    intros i12 i21.
    destruct (Rltb (depth i1) (depth i2)) eqn:Ea; destruct (Rltb (depth i2) (depth i1)) eqn:Eb;
      intros H12 H21; injection H12 as <-; injection H21 as <-;
      rewrite !setCollisionInfo_depth; try reflexivity;
      try apply Rltb_true in Ea; try apply Rltb_true in Eb;
      try apply Rltb_false in Ea; try apply Rltb_false in Eb; lra.
Qed.

(** X13. The contact [worldStep] hands to [resolveCollision] points from
    the first body to the second: after [orient] the normal has a
    non-negative component along the line from the center of [bodyI] to the
    center of [bodyJ].  [orient] keeps the depth, and keeps the end point
    at the start point moved by the depth along the normal. *)
Theorem orient_points_forward (info : CollisionDetails) (bodyI bodyJ : Body) :
  0 <= dotProduct (normal (orient info bodyI bodyJ))
                  (subtractVec2 (center bodyJ) (center bodyI))
  /\ depth (orient info bodyI bodyJ) = depth info
  /\ (end_ info = addVec2 (start info) (scaleVec2 (normal info) (depth info)) ->
      end_ (orient info bodyI bodyJ)
      = addVec2 (start (orient info bodyI bodyJ))
                (scaleVec2 (normal (orient info bodyI bodyJ)) (depth (orient info bodyI bodyJ)))).
Proof.
  unfold orient. destruct (Rltb _ 0) eqn:E.
  - apply Rltb_true in E. cbn [normal depth start end_]. split; [|split; [reflexivity|]].
    + replace (dotProduct (scaleVec2 (normal info) (-1))
                          (subtractVec2 (center bodyJ) (center bodyI)))
        with (- dotProduct (normal info) (subtractVec2 (center bodyJ) (center bodyI)))
        by (unfold dotProduct; simpl; ring).
      lra.
    + intros ->. apply vec_eq; simpl; ring.
  - apply Rltb_false in E. split; [lra|]. split; [reflexivity | auto].
Qed.

(** ** Collision response *)

Lemma correctPositions_motion (s1 s2 : nat) (info : CollisionDetails) (h : Heap) (a : nat) :
  motionOf (correctPositions s1 s2 info h a) = motionOf (h a)
  /\ constantsOf (correctPositions s1 s2 info h a) = constantsOf (h a).
Proof.
  unfold correctPositions, upd.
  destruct (Nat.eqb a s2); destruct (Nat.eqb a s1);
    rewrite ?(moveBody_keeps motionOf), ?(moveBody_keeps constantsOf); try reflexivity;
    split; try reflexivity;
    rewrite ?(moveBody_keeps motionOf), ?(moveBody_keeps constantsOf); reflexivity.
Qed.

Lemma resolveCollision_unresolved_cases (world : World) (s1 s2 : nat)
    (info : CollisionDetails) (h : Heap) :
  (mass (h s1) = 0 /\ mass (h s2) = 0 -> resolveCollision world s1 s2 info h = (h, false))
  /\ (mass (h s1) + mass (h s2) <> 0 ->
      depth info = 0 \/ normal info = newVec2 0 0 ->
      resolveCollision world s1 s2 info h = (h, false)).
Proof.
  unfold resolveCollision. split.
  - intros [H1 H2]. apply truthy_false in H1, H2. now rewrite H1, H2.
  - intros Hm Hz. destruct (negb _ && negb _); [reflexivity|].
    assert (Hc : correctionAmount (h s1) (h s2) info = newVec2 0 0).
    { unfold correctionAmount. destruct Hz as [-> | ->]; apply vec_eq; simpl; field; exact Hm. }
    rewrite Hc. simpl.
    assert (E : Reqb 0 0 = true) by now apply Reqb_true. now rewrite E.
Qed.

Lemma correctPositions_keeps {A : Type} (p : Body -> A) (s1 s2 : nat)
    (info : CollisionDetails) (h : Heap) (a : nat) :
  (forall l0 b0, p (set_vertices l0 b0) = p b0) ->
  (forall v0 b0, p (set_boundingBox v0 b0) = p b0) ->
  (forall c b0, p (set_center c b0) = p b0) ->
  p (correctPositions s1 s2 info h a) = p (h a).
Proof.
  intros Hv Hb Hc. unfold correctPositions, upd.
  destruct (Nat.eqb a s2); destruct (Nat.eqb a s1);
    repeat (rewrite (moveBody_keeps p) by assumption); reflexivity.
Qed.

(** X14. A collision that [resolveCollision] does not resolve changes no
    motion: when the function returns [false], every body has the velocity,
    the angular velocity and the angle it had, whether the exit was taken
    before or after the position correction.  It returns [false] without
    touching the heap when both bodies have inverse mass zero, and, for
    bodies whose inverse masses do not sum to zero, when the depth is zero
    or the normal is the zero vector. *)
Theorem resolveCollision_unresolved (world : World) (s1 s2 : nat)
    (info : CollisionDetails) (h : Heap) :
  (snd (resolveCollision world s1 s2 info h) = false ->
   forall a, motionOf (fst (resolveCollision world s1 s2 info h) a) = motionOf (h a))
  /\ (mass (h s1) = 0 /\ mass (h s2) = 0 -> resolveCollision world s1 s2 info h = (h, false))
  /\ (mass (h s1) + mass (h s2) <> 0 ->
      depth info = 0 \/ normal info = newVec2 0 0 ->
      resolveCollision world s1 s2 info h = (h, false)).
Proof.
  split; [|exact (resolveCollision_unresolved_cases world s1 s2 info h)].
  unfold resolveCollision.
  destruct (negb _ && negb _); [reflexivity|].
  destruct (Reqb _ 0 && Reqb _ 0); [reflexivity|].
  destruct (Rgtb _ 0); simpl; [|discriminate].
  intros _ a. apply correctPositions_motion.
Qed.

Lemma resolveCollision_unresolved_witness :
  resolveCollision twoBodyWorld 0 1
    (mkCollisionDetails 0 (newVec2 1 0) (newVec2 5 0) (newVec2 5 0)) twoBallHeap
  = (twoBallHeap, false).
Proof.
  apply (resolveCollision_unresolved twoBodyWorld 0 1
           (mkCollisionDetails 0 (newVec2 1 0) (newVec2 5 0) (newVec2 5 0)) twoBallHeap).
  - simpl. lra.
  - left. reflexivity.
Defined.

(** X15. Two circles with the same center are never pushed apart: whatever
    their radii, [testCollision] reports them, unless both have inverse
    mass zero, with the zero vector as normal, and, their inverse masses
    not summing to zero, [resolveCollision] returns [false] on that contact
    and leaves every body as it is. *)
Theorem coincident_circles_stay (world : World) (s1 s2 : nat) (h : Heap) :
  type (h s1) = CIRCLE -> type (h s2) = CIRCLE ->
  center (h s1) = center (h s2) ->
  ~ (mass (h s1) = 0 /\ mass (h s2) = 0) ->
  mass (h s1) + mass (h s2) <> 0 ->
  exists info,
    testCollision (h s1) (h s2) = Some info
    /\ normal info = newVec2 0 0
    /\ resolveCollision world s1 s2 (orient info (h s1) (h s2)) h = (h, false).
Proof.
  intros Ht1 Ht2 Hc Hm Hs.
  assert (Hlen : lengthVec2 (subtractVec2 (center (h s2)) (center (h s1))) = 0).
  { rewrite lengthVec2_subtract, Hc. apply sqrt_value; lra. }
  rewrite (testCollision_circles_eq _ _ Ht1 Ht2 Hm).
  rewrite testCircleCircle_some by (rewrite Hlen; apply sqrt_pos).
  eexists. split; [reflexivity|].
  assert (Hn : normal (setCollisionInfo
                (bounds (h s1) + bounds (h s2)
                 - lengthVec2 (subtractVec2 (center (h s2)) (center (h s1))))
                (normalize (subtractVec2 (center (h s2)) (center (h s1))))
                (addVec2 (center (h s2))
                   (scaleVec2 (normalize (scaleVec2 (subtractVec2 (center (h s2)) (center (h s1)))
                                                    (-1))) (bounds (h s2))))) = newVec2 0 0).
  { rewrite setCollisionInfo_normal. now apply normalize_zero. }
  split; [exact Hn|].
  destruct (resolveCollision_unresolved_cases world s1 s2
              (orient (setCollisionInfo
                (bounds (h s1) + bounds (h s2)
                 - lengthVec2 (subtractVec2 (center (h s2)) (center (h s1))))
                (normalize (subtractVec2 (center (h s2)) (center (h s1))))
                (addVec2 (center (h s2))
                   (scaleVec2 (normalize (scaleVec2 (subtractVec2 (center (h s2)) (center (h s1)))
                                                    (-1))) (bounds (h s2))))) (h s1) (h s2)) h)
    as (_ & Hz).
  apply Hz; [exact Hs|]. right.
  unfold orient. destruct (Rltb _ 0); cbn [normal]; rewrite Hn; [|reflexivity].
  apply vec_eq; simpl; ring.
Qed.

Lemma coincident_circles_stay_witness :
  exists info,
    testCollision twinA twinB = Some info
    /\ normal info = newVec2 0 0
    /\ resolveCollision twoBodyWorld 0 1
         (orient info twinA twinB) (fun a => if Nat.eqb a 0 then twinA else twinB)
       = (fun a => if Nat.eqb a 0 then twinA else twinB, false).
Proof.
  apply (coincident_circles_stay twoBodyWorld 0 1 (fun a => if Nat.eqb a 0 then twinA else twinB));
    try reflexivity; simpl; lra.
Defined.

Lemma applyImpulses_at (world : World) (s1 s2 : nat) (info : CollisionDetails) (h : Heap) :
  s1 <> s2 ->
  let n := normal info in
  let b1 := h s1 in
  let b2 := h s2 in
  let p := contactPoint b1 b2 info in
  let jN := normalImpulse b1 b2 info in
  let t := tangent b1 b2 info in
  let jT := frictionImpulse b1 b2 info in
  applyImpulses world s1 s2 info h s1
  = unlessStatic (fun s => dampBody world
                   (subtractImpulse (scaleVec2 t jT) (crossProduct (contactArm b1 p) t) jT s))
      (unlessStatic (subtractImpulse (scaleVec2 n jN) (crossProduct (contactArm b1 p) n) jN) b1)
  /\ applyImpulses world s1 s2 info h s2
     = unlessStatic (fun s => dampBody world
                      (addImpulse (scaleVec2 t jT) (crossProduct (contactArm b2 p) t) jT s))
         (unlessStatic (addImpulse (scaleVec2 n jN) (crossProduct (contactArm b2 p) n) jN) b2).
Proof.
  intros Hne. cbv zeta. unfold applyImpulses. cbv zeta.
  assert (Hne' : s2 <> s1) by (intros E; apply Hne; now symmetry).
  split.
  - rewrite (upd_other s2 s1) by exact Hne. rewrite upd_same.
    rewrite (upd_other s2 s1) by exact Hne. rewrite upd_same. reflexivity.
  - rewrite upd_same. rewrite (upd_other s1 s2) by exact Hne'. rewrite upd_same.
    rewrite (upd_other s1 s2) by exact Hne'. reflexivity.
Qed.

Lemma resolveCollision_resolved_heap (world : World) (s1 s2 : nat)
    (info : CollisionDetails) (h : Heap) :
  snd (resolveCollision world s1 s2 info h) = true ->
  fst (resolveCollision world s1 s2 info h)
  = applyImpulses world s1 s2 info (correctPositions s1 s2 info h).
Proof.
  unfold resolveCollision.
  destruct (negb _ && negb _); [discriminate|].
  destruct (Reqb _ 0 && Reqb _ 0); [discriminate|].
  destruct (Rgtb _ 0); [discriminate | reflexivity].
Qed.

(** ** The friction impulse that is applied *)











(** X16. A resolved collision between two distinct bodies that are neither
    static nor pinned scales their total momentum by the damping factor of
    the world: with [m = 1 / inverse mass], the sum [m1 * v1 + m2 * v2]
    after [resolveCollision] is [damp] times the sum before, so it is
    conserved when [damp] is 1. *)
Theorem resolved_collision_momentum (world : World) (s1 s2 : nat)
    (info : CollisionDetails) (h : Heap) :
  s1 <> s2 ->
  static (h s1) = false -> static (h s2) = false ->
  pinned (h s1) = false -> pinned (h s2) = false ->
  mass (h s1) <> 0 -> mass (h s2) <> 0 ->
  snd (resolveCollision world s1 s2 info h) = true ->
  addVec2 (scaleVec2 (velocity (fst (resolveCollision world s1 s2 info h) s1)) (1 / mass (h s1)))
          (scaleVec2 (velocity (fst (resolveCollision world s1 s2 info h) s2)) (1 / mass (h s2)))
  = scaleVec2 (addVec2 (scaleVec2 (velocity (h s1)) (1 / mass (h s1)))
                       (scaleVec2 (velocity (h s2)) (1 / mass (h s2))))
              (damp world).
Proof.
  intros Hne Hs1 Hs2 Hp1 Hp2 Hm1 Hm2 Hres.
  rewrite (resolveCollision_resolved_heap world s1 s2 info h Hres).
  destruct (applyImpulses_at world s1 s2 info (correctPositions s1 s2 info h) Hne) as [-> ->].
  destruct (correctPositions_motion s1 s2 info h s1) as [Hv1 Hk1].
  destruct (correctPositions_motion s1 s2 info h s2) as [Hv2 Hk2].
  set (b1 := correctPositions s1 s2 info h s1) in *.
  set (b2 := correctPositions s1 s2 info h s2) in *.
  assert (Hb1 : velocity b1 = velocity (h s1) /\ mass b1 = mass (h s1)
                /\ static b1 = false /\ pinned b1 = false).
  { unfold motionOf, constantsOf in Hv1, Hk1. inversion Hv1. inversion Hk1.
    repeat split; congruence. }
  assert (Hb2 : velocity b2 = velocity (h s2) /\ mass b2 = mass (h s2)
                /\ static b2 = false /\ pinned b2 = false).
  { unfold motionOf, constantsOf in Hv2, Hk2. inversion Hv2. inversion Hk2.
    repeat split; congruence. }
  destruct Hb1 as (Ev1 & Em1 & Es1 & Ep1). destruct Hb2 as (Ev2 & Em2 & Es2 & Ep2).
  clearbody b1 b2. clear Hv1 Hk1 Hv2 Hk2.
  generalize (normalImpulse b1 b2 info) (frictionImpulse b1 b2 info)
             (tangent b1 b2 info) (contactPoint b1 b2 info).
  intros jN jT t p.
  unfold unlessStatic. rewrite Es1, Es2.
  cbn [static subtractImpulse addImpulse set_velocity set_angularVelocity].
  rewrite Es1, Es2.
  unfold dampBody.
  cbn [pinned velocity mass angularVelocity inertia subtractImpulse addImpulse
       set_velocity set_angularVelocity].
  rewrite Ep1, Ep2.
  cbn [velocity set_velocity set_angularVelocity].
  rewrite Ev1, Ev2, Em1, Em2.
  apply vec_eq; simpl; field; auto.
Qed.

Lemma resolved_collision_momentum_witness :
  addVec2 (scaleVec2 (velocity (skidHeap 0%nat)) (1 / mass (skidHeap 0%nat)))
          (scaleVec2 (velocity (skidHeap 1%nat)) (1 / mass (skidHeap 1%nat)))
  = newVec2 1 10
  /\ addVec2 (scaleVec2 (velocity (fst (resolveCollision twoBodyWorld 0 1 skidContact skidHeap)
                                       0%nat))
                        (1 / mass (skidHeap 0%nat)))
             (scaleVec2 (velocity (fst (resolveCollision twoBodyWorld 0 1 skidContact skidHeap)
                                       1%nat))
                        (1 / mass (skidHeap 1%nat)))
     = scaleVec2 (newVec2 1 10) 0.98.
Proof.
  split; [apply vec_eq; simpl; lra|].
  rewrite (resolved_collision_momentum twoBodyWorld 0 1 skidContact skidHeap);
    try reflexivity; try discriminate; try (simpl; lra); try exact skid_resolved.
  apply vec_eq; simpl; lra.
Defined.

Lemma pin_resolved : snd (resolveCollision twoBodyWorld 0 1 ballContact pinHeap) = true.
Proof.
  assert (Hcorr : correctionAmount (pinHeap 0%nat) (pinHeap 1%nat) ballContact = newVec2 2 0)
    by (apply vec_eq; simpl; lra).
  apply resolveCollision_resolved. split; [simpl; lra|]. split; [rewrite Hcorr; simpl; lra|].
  unfold correctPositions. rewrite Hcorr.
  rewrite upd_other by discriminate. rewrite !upd_same.
  rewrite upd_other by discriminate.
  rewrite moveBody_pinned by reflexivity.
  rewrite moveBody_circle_free by (simpl; try reflexivity; lra).
  unfold rVelocityInNormal, relativeVelocity, contactArm, contactPoint, dotProduct.
  simpl. lra.
Qed.

(** X17. In a resolved collision between two distinct bodies, a body whose
    [static] flag is set keeps its velocity and its angular velocity, and a
    body that is pinned and not static ends with the velocity zero. *)
Theorem resolved_collision_static_pinned (world : World) (s1 s2 : nat)
    (info : CollisionDetails) (h : Heap) (a : nat) :
  s1 <> s2 -> a = s1 \/ a = s2 ->
  snd (resolveCollision world s1 s2 info h) = true ->
  (static (h a) = true ->
   velocity (fst (resolveCollision world s1 s2 info h) a) = velocity (h a)
   /\ angularVelocity (fst (resolveCollision world s1 s2 info h) a) = angularVelocity (h a))
  /\ (static (h a) = false -> pinned (h a) = true ->
      velocity (fst (resolveCollision world s1 s2 info h) a) = newVec2 0 0).
Proof.
  intros Hne Ha Hres.
  rewrite (resolveCollision_resolved_heap world s1 s2 info h Hres).
  destruct (applyImpulses_at world s1 s2 info (correctPositions s1 s2 info h) Hne) as [H1 H2].
  cbv zeta in H1, H2.
  assert (Es : static (correctPositions s1 s2 info h a) = static (h a))
    by (apply (correctPositions_keeps static); reflexivity).
  assert (Ep : pinned (correctPositions s1 s2 info h a) = pinned (h a))
    by (apply (correctPositions_keeps pinned); reflexivity).
  assert (Ev : velocity (correctPositions s1 s2 info h a) = velocity (h a))
    by (apply (correctPositions_keeps velocity); reflexivity).
  assert (Ew : angularVelocity (correctPositions s1 s2 info h a) = angularVelocity (h a))
    by (apply (correctPositions_keeps angularVelocity); reflexivity).
  destruct Ha as [-> | ->]; [rewrite H1 | rewrite H2]; clear H1 H2;
    (unfold unlessStatic; split;
     [ intros Hst; rewrite Es, Hst; cbn [static]; rewrite Es, Hst; now split
     | intros Hst Hpin; rewrite Es, Hst;
       cbn [static subtractImpulse addImpulse set_velocity set_angularVelocity];
       rewrite Es, Hst; unfold dampBody;
       cbn [pinned subtractImpulse addImpulse set_velocity set_angularVelocity];
       rewrite Ep, Hpin; reflexivity ]).
Qed.

Lemma latch_resolved : snd (resolveCollision twoBodyWorld 0 1 skidContact latchHeap) = true.
Proof.
  assert (Hcorr : correctionAmount (latchHeap 0%nat) (latchHeap 1%nat) skidContact
                  = newVec2 0.2 0)
    by (apply vec_eq; simpl; lra).
  apply resolveCollision_resolved. split; [simpl; lra|]. split; [rewrite Hcorr; simpl; lra|].
  unfold correctPositions. rewrite Hcorr.
  rewrite upd_other by discriminate. rewrite !upd_same.
  rewrite upd_other by discriminate.
  rewrite moveBody_pinned by reflexivity.
  rewrite moveBody_circle_free by (simpl; try reflexivity; lra).
  unfold rVelocityInNormal, relativeVelocity, contactArm, contactPoint, dotProduct.
  simpl. lra.
Qed.

Lemma belt_resolved : snd (resolveCollision wallWorld 0 1 skidContact beltHeap) = true.
Proof.
  assert (Hcorr : correctionAmount (beltHeap 0%nat) (beltHeap 1%nat) skidContact
                  = newVec2 0.4 0)
    by (apply vec_eq; simpl; lra).
  apply resolveCollision_resolved. split; [simpl; lra|]. split; [rewrite Hcorr; simpl; lra|].
  unfold correctPositions. rewrite Hcorr.
  rewrite upd_other by discriminate. rewrite !upd_same.
  rewrite upd_other by discriminate.
  rewrite moveBody_circle_free by (simpl; try reflexivity; lra).
  rewrite moveBody_static by reflexivity.
  unfold rVelocityInNormal, relativeVelocity, contactArm, contactPoint, dotProduct.
  simpl. lra.
Qed.

Lemma resolved_collision_static_pinned_witness :
  (velocity (latchHeap 0%nat) = newVec2 1 10
   /\ velocity (fst (resolveCollision twoBodyWorld 0 1 skidContact latchHeap) 0%nat)
      = newVec2 0 0)
  /\ (velocity (beltHeap 1%nat) = newVec2 0 3 /\ angularVelocity (beltHeap 1%nat) = 2
      /\ velocity (fst (resolveCollision wallWorld 0 1 skidContact beltHeap) 1%nat)
         = newVec2 0 3
      /\ angularVelocity (fst (resolveCollision wallWorld 0 1 skidContact beltHeap) 1%nat)
         = 2).
Proof.
  assert (Hne : 0%nat <> 1%nat) by discriminate.
  split.
  - split; [reflexivity|].
    apply (resolved_collision_static_pinned twoBodyWorld 0 1 skidContact latchHeap 0%nat Hne
             (or_introl eq_refl) latch_resolved); reflexivity.
  - split; [reflexivity|]. split; [reflexivity|].
    apply (resolved_collision_static_pinned wallWorld 0 1 skidContact beltHeap 1%nat Hne
             (or_intror eq_refl) belt_resolved). reflexivity.
Defined.

(** ** The integrator and the bodies outside the simulation *)

(** X18. The integrator is a semi-implicit Euler step: the velocity first
    grows by [acceleration / fps], and the center then moves by the new
    velocity over [fps]; likewise for the angular velocity and the angle.
    A body that is pinned or has inverse mass zero keeps its center, but
    its velocity grows all the same, and it turns. *)
Theorem integrateBody_euler (fps : R) (b : Body) :
  velocity (integrateBody fps b) = addVec2 (velocity b) (scaleVec2 (acceleration b) (1 / fps))
  /\ angularVelocity (integrateBody fps b) = angularVelocity b + angularAcceleration b * 1 / fps
  /\ angle (integrateBody fps b)
     = angle b + (angularVelocity b + angularAcceleration b * 1 / fps) * 1 / fps
  /\ center (integrateBody fps b)
     = (if pinned b || Reqb (mass b) 0 then center b
        else addVec2 (center b)
               (scaleVec2 (addVec2 (velocity b) (scaleVec2 (acceleration b) (1 / fps))) (1 / fps)))
  /\ constantsOf (integrateBody fps b) = constantsOf b.
Proof.
  unfold integrateBody.
  set (b1 := set_velocity (addVec2 (velocity b) (scaleVec2 (acceleration b) (1 / fps))) b).
  set (b2 := _moveBody b1 (scaleVec2 (velocity b1) (1 / fps)) false).
  set (b3 := set_angularVelocity (angularVelocity b2 + angularAcceleration b2 * 1 / fps) b2).
  assert (Hv2 : velocity b2 = velocity b1) by (apply (moveBody_keeps velocity); reflexivity).
  assert (Hw2 : angularVelocity b2 = angularVelocity b1)
    by (apply (moveBody_keeps angularVelocity); reflexivity).
  assert (Ha2 : angularAcceleration b2 = angularAcceleration b1)
    by (apply (moveBody_keeps angularAcceleration); reflexivity).
  assert (Hg2 : angle b2 = angle b1) by (apply (moveBody_keeps angle); reflexivity).
  assert (Hk2 : constantsOf b2 = constantsOf b1)
    by (apply (moveBody_keeps constantsOf); reflexivity).
  assert (Hc2 : center b2 = if pinned b1 || Reqb (mass b1) 0 then center b1
                            else addVec2 (center b1) (scaleVec2 (velocity b1) (1 / fps)))
    by apply center_moveBody.
  destruct (rotateBody_frame b3 (angularVelocity b3 * 1 / fps)) as (Ha & Hc & Hk & Hv & Hw & _).
  rewrite Ha, Hc, Hk, Hv, Hw. unfold b3.
  cbn [velocity angularVelocity angle center set_angularVelocity].
  rewrite Hv2, Hw2, Ha2, Hg2, Hc2.
  change (constantsOf (set_angularVelocity (angularVelocity b1 + angularAcceleration b1 * 1 / fps) b2))
    with (constantsOf b2).
  rewrite Hk2. unfold b1. repeat split.
Qed.

Lemma resolveCollision_outside (world : World) (s1 s2 : nat) (info : CollisionDetails)
    (h : Heap) (a : nat) :
  a <> s1 -> a <> s2 -> fst (resolveCollision world s1 s2 info h) a = h a.
Proof.
  intros H1 H2.
  assert (Hcp : correctPositions s1 s2 info h a = h a)
    by (unfold correctPositions; now rewrite !upd_other).
  unfold resolveCollision.
  destruct (negb _ && negb _); [reflexivity|].
  destruct (Reqb _ 0 && Reqb _ 0); [reflexivity|].
  destruct (Rgtb _ 0); simpl; [exact Hcp|].
  unfold applyImpulses. cbv zeta. now rewrite !upd_other.
Qed.

Lemma countdown_bound (n i : nat) : In i (countdown n) -> (i < n)%nat.
Proof. unfold countdown. rewrite <- in_rev, in_seq. lia. Qed.

Lemma countdownTo_bound (i n j : nat) : In j (countdownTo i n) -> (i <= j < n)%nat.
Proof. unfold countdownTo. rewrite <- in_rev, in_seq. lia. Qed.

Lemma collidePair_outside (world : World) (all : list nat) (i j : nat) (st : PassState) (a : nat) :
  (i < length (dynamicBodies world))%nat -> (j < length all)%nat ->
  ~ In a (dynamicBodies world) -> ~ In a all ->
  fst (fst (collidePair world all i j st)) a = fst (fst st) a.
Proof.
  intros Hi Hj Hd Ha. destruct st as [[h cs] fl]. unfold collidePair.
  assert (HI : a <> nth i (dynamicBodies world) 0%nat)
    by (intros ->; apply Hd; now apply nth_In).
  assert (HJ : a <> nth j all 0%nat) by (intros ->; apply Ha; now apply nth_In).
  destruct (Nat.eqb i j); [reflexivity|].
  destruct (boundTest _ _); [|reflexivity].
  destruct (testCollision _ _) as [info|]; [|reflexivity].
  destruct (Rgtb _ 0).
  - simpl. now apply upd_other.
  - pose proof (resolveCollision_outside world (nth i (dynamicBodies world) 0%nat)
                  (nth j all 0%nat)
                  (orient info (h (nth i (dynamicBodies world) 0%nat)) (h (nth j all 0%nat)))
                  h a HI HJ) as Hr.
    destruct (resolveCollision _ _ _ _ _) as [h' resolved]. simpl in Hr.
    destruct resolved; exact Hr.
Qed.

Lemma stepPhysics_outside (fps : R) (world : World) (h : Heap) (a : nat) :
  ~ In a (enabledBodies world) -> fst (snd (stepPhysics fps world h)) a = h a.
Proof.
  intros Hen.
  assert (Hd : ~ In a (dynamicBodies world))
    by (intros H; apply Hen; unfold enabledBodies; apply in_or_app; now left).
  destruct (resolveLoop_passes 9 world (enabledBodies world) (beforeLoop fps world h))
    as (_ & _ & Hst & _).
  change (stepPhysics fps world h)
    with (resolveLoop 9 world (enabledBodies world) (beforeLoop fps world h)).
  rewrite Hst.
  generalize (fst (resolveLoop 9 world (enabledBodies world) (beforeLoop fps world h))).
  intros m. induction m as [|m IH].
  - simpl. unfold applyJoints.
    apply (fold_left_invariant (fun h0 : Heap => h0 a = h a)).
    + intros h0 body Hb Hh0.
      apply (fold_left_invariant (fun h1 : Heap => h1 a = h a)); [|exact Hh0].
      intros h1 joint _ Hh1. unfold applyJoint.
      destruct (findBody _ _ h1); [|exact Hh1].
      destruct (negb (Reqb _ 0)); [|exact Hh1].
      rewrite !upd_other; [exact Hh1 | |]; intros ->; contradiction.
    + unfold integrate. now apply fold_upd_outside.
  - simpl. unfold passResult, collisionPass.
    apply (fold_left_invariant (fun s : PassState => fst (fst s) a = h a)); [|exact IH].
    intros s i Hi Hs.
    apply (fold_left_invariant (fun s : PassState => fst (fst s) a = h a)); [|exact Hs].
    intros s0 j Hj Hs0.
    rewrite collidePair_outside; [exact Hs0 | | | exact Hd | exact Hen].
    + now apply countdown_bound.
    + now apply (countdownTo_bound i).
Qed.

Lemma stepPhysics_no_dynamic_bodies (fps : R) (world : World) (h : Heap) :
  dynamicBodies world = [] -> stepPhysics fps world h = (1%nat, (h, [])).
Proof.
  intros Hd. unfold stepPhysics, integrate, applyJoints. rewrite Hd. simpl.
  unfold collisionPass. rewrite Hd. reflexivity.
Qed.

(** X19. Bodies that are not enabled are outside the simulation: up to the
    end of the resolution loop [worldStep] leaves a body that is neither in
    the dynamic nor in the static collection exactly as it was.  A disabled
    body only has its rest tracking updated at the end of the step, and a
    body that is in no collection is not touched at all.  A world without
    dynamic bodies reports no collision after a single pass. *)
Theorem disabled_bodies_untouched (fps : R) (world : World) (h : Heap) (a : nat) :
  (~ In a (enabledBodies world) ->
   fst (snd (stepPhysics fps world h)) a = h a
   /\ (NoDup (allBodies world) -> In a (disabledBodies world) ->
       fst (worldStep fps world h) a = trackBody fps (h a))
   /\ (~ In a (disabledBodies world) -> fst (worldStep fps world h) a = h a))
  /\ (dynamicBodies world = [] ->
      snd (worldStep fps world h) = [] /\ fst (stepPhysics fps world h) = 1%nat).
Proof.
  split.
  - intros Hen. pose proof (stepPhysics_outside fps world h a Hen) as Hs.
    split; [exact Hs|]. rewrite worldStep_tracks. unfold trackStability. split.
    + intros Hnd Hd. rewrite fold_upd_once; [now rewrite Hs | exact Hnd|].
      unfold allBodies. apply in_or_app. right. apply in_or_app. now right.
    + intros Hd. rewrite fold_upd_outside; [exact Hs|].
      unfold allBodies. intros Hin. apply in_app_or in Hin as [Hin|Hin].
      * apply Hen. unfold enabledBodies. apply in_or_app. now left.
      * apply in_app_or in Hin as [Hin|Hin]; [|contradiction].
        apply Hen. unfold enabledBodies. apply in_or_app. now right.
  - intros Hd. unfold worldStep. rewrite (stepPhysics_no_dynamic_bodies fps world h Hd).
    split; reflexivity.
Qed.

Lemma disabled_bodies_untouched_witness :
  fst (worldStep 60 oneDisabled drifterHeap) 0%nat = trackBody 60 (drifterHeap 0%nat).
Proof.
  destruct (disabled_bodies_untouched 60 oneDisabled drifterHeap 0%nat) as [H _].
  destruct H as (_ & Hd & _).
  - simpl. tauto.
  - apply Hd.
    + simpl. constructor; [intros [] | constructor].
    + simpl. now left.
Defined.

(** ** The collisions a step reports *)

Lemma constants_fields (b b' : Body) :
  constantsOf b = constantsOf b' ->
  id b = id b' /\ type b = type b' /\ bounds b = bounds b' /\ permeability b = permeability b'.
Proof. unfold constantsOf. intros H. repeat split; congruence. Qed.

Lemma orient_depth (info : CollisionDetails) (b1 b2 : Body) :
  depth (orient info b1 b2) = depth info.
Proof. unfold orient. destruct (Rltb _ 0); reflexivity. Qed.

Lemma collidePair_reports (world : World) (h0 : Heap) (i j : nat) (st : PassState) :
  (forall a, type (h0 a) = CIRCLE -> 0 <= bounds (h0 a)) ->
  NoDup (enabledBodies world) ->
  (i < length (dynamicBodies world))%nat -> (j < length (enabledBodies world))%nat ->
  (forall a, constantsOf (fst (fst st) a) = constantsOf (h0 a)) ->
  Forall (reportedBy world h0) (snd (fst st)) ->
  Forall (reportedBy world h0) (snd (fst (collidePair world (enabledBodies world) i j st))).
Proof.
  intros Hr Hnd Hi Hj Hk Hcs. destruct st as [[h cs] fl]. simpl in Hk, Hcs.
  unfold collidePair.
  destruct (Nat.eqb i j) eqn:Eij; [exact Hcs|]. apply Nat.eqb_neq in Eij.
  set (bodyI := nth i (dynamicBodies world) 0%nat).
  set (bodyJ := nth j (enabledBodies world) 0%nat).
  destruct (boundTest _ _); [|exact Hcs].
  destruct (testCollision _ _) as [info|] eqn:Et; [|exact Hcs].
  destruct (Rgtb (permeability (h bodyJ)) 0) eqn:Ep; [exact Hcs|].
  pose proof (fun a => resolveCollision_invariant (fun b => constantsOf b = constantsOf (h0 a))
                (constants_stepInvariant _) a world bodyI bodyJ
                (orient info (h bodyI) (h bodyJ)) h (Hk a)) as Hk'.
  destruct (resolveCollision _ _ _ _ _) as [h' resolved]. simpl in Hk'.
  destruct resolved; [|exact Hcs]. simpl.
  apply Forall_app. split; [exact Hcs|]. constructor; [|constructor].
  destruct (constants_fields _ _ (Hk bodyI)) as (_ & HtI & HbI & _).
  destruct (constants_fields _ _ (Hk bodyJ)) as (_ & HtJ & HbJ & HpJ).
  destruct (constants_fields _ _ (Hk' bodyI)) as (HiI & _).
  destruct (constants_fields _ _ (Hk' bodyJ)) as (HiJ & _).
  exists bodyI, bodyJ. repeat split.
  - apply nth_In. exact Hi.
  - apply nth_In. exact Hj.
  - unfold bodyI, bodyJ. intros Heq. apply Eij.
    apply (proj1 (NoDup_nth (enabledBodies world) 0%nat) Hnd i j); [|exact Hj|].
    + unfold enabledBodies. rewrite length_app. lia.
    + rewrite <- Heq. unfold enabledBodies. now rewrite app_nth1.
  - exact HiI.
  - exact HiJ.
  - now rewrite <- HpJ.
  - cbn [cdepth]. rewrite orient_depth.
    apply (contact_depth_nonneg (h bodyI) (h bodyJ) info); [| |exact Et].
    + rewrite HtI, HbI. apply Hr.
    + rewrite HtJ, HbJ. apply Hr.
Qed.

(** X20. Every record [worldStep] returns names, as its first body, a
    dynamic body of the world and, as its second, another enabled body,
    one that is not permeable; and its depth is not negative.  The radii of
    the circles are taken not negative and no body is enabled twice. *)
Theorem reported_collisions (fps : R) (world : World) (h : Heap) (c : Collision) :
  (forall a, type (h a) = CIRCLE -> 0 <= bounds (h a)) ->
  NoDup (enabledBodies world) ->
  In c (snd (worldStep fps world h)) ->
  reportedBy world h c.
Proof.
  intros Hr Hnd.
  assert (Hw : snd (worldStep fps world h) = snd (snd (stepPhysics fps world h))).
  { unfold worldStep. destruct (stepPhysics fps world h) as [n [h3 cs]]. reflexivity. }
  rewrite Hw. clear Hw.
  destruct (resolveLoop_passes 9 world (enabledBodies world) (beforeLoop fps world h))
    as (_ & _ & Hst & _).
  change (stepPhysics fps world h)
    with (resolveLoop 9 world (enabledBodies world) (beforeLoop fps world h)).
  rewrite Hst.
  generalize (fst (resolveLoop 9 world (enabledBodies world) (beforeLoop fps world h))).
  intros m.
  assert (Hinv : (forall a, constantsOf (fst (afterPasses m world (enabledBodies world)
                                                (beforeLoop fps world h)) a) = constantsOf (h a))
                 /\ Forall (reportedBy world h)
                      (snd (afterPasses m world (enabledBodies world) (beforeLoop fps world h)))).
  { induction m as [|m IH].
    - simpl. split; [|constructor]. intros a.
      apply (applyJoints_invariant _ (constants_stepInvariant _)).
      unfold integrate.
      apply (fold_left_invariant (fun h1 : Heap => constantsOf (h1 a) = constantsOf (h a)));
        [|reflexivity].
      intros h1 body _ Hh1.
      apply (upd_invariant (fun b => constantsOf b = constantsOf (h a))); [|exact Hh1].
      intros b. apply (integrateBody_invariant _ (constants_stepInvariant _)).
    - simpl. unfold passResult, collisionPass.
      set (Inv := fun s : PassState =>
                    (forall a, constantsOf (fst (fst s) a) = constantsOf (h a))
                    /\ Forall (reportedBy world h) (snd (fst s))).
      change (Inv (fold_left
                (fun st0 i => fold_left
                   (fun st1 j => collidePair world (enabledBodies world) i j st1)
                   (countdownTo i (length (enabledBodies world))) st0)
                (countdown (length (dynamicBodies world)))
                (fst (afterPasses m world (enabledBodies world) (beforeLoop fps world h)),
                 snd (afterPasses m world (enabledBodies world) (beforeLoop fps world h)),
                 false))).
      apply (fold_left_invariant Inv); [|exact IH].
      intros s i Hi Hs. apply (fold_left_invariant Inv); [|exact Hs].
      intros s0 j Hj [Hk Hcs]. split.
      + intros a.
        apply (collidePair_invariant _ (constants_stepInvariant _)). apply Hk.
      + apply collidePair_reports; try assumption.
        * now apply countdown_bound.
        * now apply (countdownTo_bound i). }
  intros Hin. destruct Hinv as [_ Hall].
  rewrite Forall_forall in Hall. now apply Hall.
Qed.

Lemma gate_step_reports : In (mkCollision 1 2 5) (snd (worldStep 60 gateWorld gateHeap)).
Proof.
  destruct (resolution_records_first_pass 60 gateWorld gateHeap) as (more & Hmore).
  rewrite Hmore. unfold beforeLoop. rewrite integrate_gate.
  change (applyJoints 60 gateWorld (enabledBodies gateWorld) gateHeap) with gateHeap.
  rewrite gate_first_pass. now left.
Qed.

Lemma reported_collisions_witness : reportedBy gateWorld gateHeap (mkCollision 1 2 5).
Proof.
  apply (reported_collisions 60 gateWorld gateHeap).
  - intros a _. unfold gateHeap. destruct (Nat.eqb a 0); simpl; lra.
  - simpl. constructor; [simpl; intros [H|[]]; discriminate|].
    constructor; [intros []|constructor].
  - exact gate_step_reports.
Defined.

(** ** Passing through a permeable body *)

(** X21. When the second body of a colliding pair has a positive
    permeability [k], the pair is not resolved: no record is added, the
    flag of the pass is left as it is and no center moves; only the
    velocity and the angular velocity of the first body are scaled by
    [1 - k], so a permeability of 1 stops the first body dead. *)
Theorem permeable_second_body_passes (world : World) (all : list nat) (i j : nat)
    (h : Heap) (cs : list Collision) (fl : bool) (info : CollisionDetails) :
  i <> j ->
  boundTest (h (nth i (dynamicBodies world) 0%nat)) (h (nth j all 0%nat)) = true ->
  testCollision (h (nth i (dynamicBodies world) 0%nat)) (h (nth j all 0%nat)) = Some info ->
  permeability (h (nth j all 0%nat)) > 0 ->
  let bodyI := nth i (dynamicBodies world) 0%nat in
  let k := permeability (h (nth j all 0%nat)) in
  let st' := collidePair world all i j (h, cs, fl) in
  snd (fst st') = cs /\ snd st' = fl
  /\ (forall a, a <> bodyI -> fst (fst st') a = h a)
  /\ (forall a, center (fst (fst st') a) = center (h a))
  /\ velocity (fst (fst st') bodyI) = scaleVec2 (velocity (h bodyI)) (1 - k)
  /\ angularVelocity (fst (fst st') bodyI) = angularVelocity (h bodyI) * (1 - k)
  /\ (k = 1 -> velocity (fst (fst st') bodyI) = newVec2 0 0
               /\ angularVelocity (fst (fst st') bodyI) = 0).
Proof.
  intros Hij Hb Ht Hp bodyI k st'. unfold st'.
  rewrite (collidePair_pass_through world all i j h cs fl info Hij Hb Ht Hp).
  fold bodyI. fold k. cbn [fst snd].
  destruct (passThrough_scales k (h bodyI)) as (Hv & Hw & Hc).
  split; [reflexivity|]. split; [reflexivity|].
  split; [intros a Ha; now apply upd_other|].
  split.
  { intros a. destruct (Nat.eq_dec a bodyI) as [->|Ha].
    - rewrite upd_same. exact Hc.
    - now rewrite upd_other. }
  rewrite upd_same. split; [exact Hv|]. split; [exact Hw|].
  intros Hk. rewrite Hv, Hw, Hk. split; [apply vec_eq; simpl; lra | lra].
Qed.

Lemma veil_contact : testCollision probe veil = Some ballContact.
Proof.
  rewrite testCollision_circles_eq by (try reflexivity; simpl; lra).
  assert (Hlen : lengthVec2 (subtractVec2 (center veil) (center probe)) = 15)
    by (rewrite lengthVec2_subtract; simpl; apply sqrt_value; lra).
  rewrite testCircleCircle_some
    by (rewrite Hlen, sqrt_square_abs; simpl; rewrite Rabs_right; lra).
  rewrite Hlen, scale_subtract_flip.
  rewrite (normalize_known (subtractVec2 (center veil) (center probe)) 15)
    by (unfold dotProduct; simpl; lra).
  rewrite (normalize_known (subtractVec2 (center probe) (center veil)) 15)
    by (unfold dotProduct; simpl; lra).
  unfold setCollisionInfo, ballContact. f_equal.
  f_equal; try apply vec_eq; simpl; lra.
Qed.

Lemma permeable_second_body_passes_witness :
  velocity (fst (fst (collidePair twoBodyWorld [0%nat; 1%nat] 0 1 (veilHeap, [], false))) 0%nat)
  = scaleVec2 (newVec2 6 8) (1 - 0.5).
Proof.
  assert (Hij : 0%nat <> 1%nat) by discriminate.
  assert (Hb : boundTest (veilHeap (nth 0 (dynamicBodies twoBodyWorld) 0%nat))
                         (veilHeap (nth 1 [0%nat; 1%nat] 0%nat)) = true).
  { apply boundTest_true. simpl. split; [rewrite Rabs_left | rewrite Rabs_right]; lra. }
  assert (Hp : permeability (veilHeap (nth 1 [0%nat; 1%nat] 0%nat)) > 0) by (simpl; lra).
  exact (proj1 (proj2 (proj2 (proj2 (proj2
           (permeable_second_body_passes twoBodyWorld [0%nat; 1%nat] 0 1 veilHeap [] false
              ballContact Hij Hb veil_contact Hp)))))).
Defined.

(** ** The joint solver *)

Lemma applyJoint_moved (fps : R) (all : list nat) (body : nat) (joint : Joint) (h : Heap)
    (other : nat) :
  findBody all (if Z.eqb (bodyA joint) (id (h body)) then bodyB joint else bodyA joint) h
  = Some other ->
  lengthVec2 (subtractVec2 (center (h other)) (center (h body))) - distance joint <> 0 ->
  let vec := subtractVec2 (center (h other)) (center (h body)) in
  let d := lengthVec2 vec in
  let diff := d - distance joint in
  let coef := if Rgtb diff 0 then 1 - elasticity joint else rigidity joint in
  let w := if Reqb (mass (h other)) 0 then 1 else 0.5 in
  let vec' := scaleVec2 vec ((1 / d) * diff * coef * w) in
  applyJoint fps all body joint h
  = upd body (fun b => set_velocity (addVec2 (velocity b) (scaleVec2 vec' fps)) b)
        (upd body (fun b => _moveBody b vec' false) h).
Proof.
  intros Hf Hd. cbv zeta. unfold applyJoint. rewrite Hf.
  rewrite (Reqb_neq _ 0 Hd). cbn [negb].
  destruct (Rgtb _ 0); reflexivity.
Qed.

(** X22. One application of a joint to a free body moves the body along
    the line to the other body, and the other body not at all: the
    distance [d] of the centers becomes [|d - diff * coef * w|], where
    [diff] is the excess of [d] over the length of the joint, [coef] is
    [1 - elasticity] for a joint that is too long and [rigidity] for one
    that is too short, and [w] is 1 against a body of inverse mass zero and
    one half otherwise.  With [coef = 1] against such a body the length of
    the joint is restored at once.  The velocity of the body grows by the
    displacement times [fps]. *)
Theorem joint_pulls_body (fps : R) (all : list nat) (body : nat) (joint : Joint) (h : Heap)
    (other : nat) :
  findBody all (if Z.eqb (bodyA joint) (id (h body)) then bodyB joint else bodyA joint) h
  = Some other ->
  other <> body ->
  pinned (h body) = false -> mass (h body) <> 0 ->
  lengthVec2 (subtractVec2 (center (h other)) (center (h body))) <> 0 ->
  lengthVec2 (subtractVec2 (center (h other)) (center (h body))) - distance joint <> 0 ->
  let vec := subtractVec2 (center (h other)) (center (h body)) in
  let d := lengthVec2 vec in
  let diff := d - distance joint in
  let coef := if Rgtb diff 0 then 1 - elasticity joint else rigidity joint in
  let w := if Reqb (mass (h other)) 0 then 1 else 0.5 in
  let h' := applyJoint fps all body joint h in
  h' other = h other
  /\ lengthVec2 (subtractVec2 (center (h' other)) (center (h' body)))
     = Rabs (d - diff * coef * w)
  /\ (coef = 1 -> mass (h other) = 0 -> 0 <= distance joint ->
      lengthVec2 (subtractVec2 (center (h' other)) (center (h' body))) = distance joint)
  /\ velocity (h' body)
     = addVec2 (velocity (h body)) (scaleVec2 vec ((1 / d) * diff * coef * w * fps)).
Proof.
  intros Hf Hne Hpin Hm Hd0 Hdiff vec d diff coef w h'.
  pose proof (applyJoint_moved fps all body joint h other Hf Hdiff) as Happ.
  cbv zeta in Happ. fold vec d diff coef w in Happ. unfold h'. rewrite Happ.
  set (vec' := scaleVec2 vec (1 / d * diff * coef * w)).
  rewrite !upd_same, !(upd_other body other) by exact Hne.
  assert (Hc : center (set_velocity
                 (addVec2 (velocity (_moveBody (h body) vec' false)) (scaleVec2 vec' fps))
                 (_moveBody (h body) vec' false)) = addVec2 (center (h body)) vec').
  { cbn [center set_velocity]. rewrite center_moveBody, Hpin, (Reqb_neq _ 0 Hm). reflexivity. }
  rewrite Hc.
  assert (Hsub : subtractVec2 (center (h other)) (addVec2 (center (h body)) vec')
                 = scaleVec2 vec (1 - 1 / d * diff * coef * w)).
  { unfold vec', vec. apply vec_eq; simpl; ring. }
  assert (Hlen : lengthVec2 (subtractVec2 (center (h other)) (addVec2 (center (h body)) vec'))
                 = Rabs (d - diff * coef * w)).
  { rewrite Hsub, lengthVec2_scale. fold d.
    assert (Hd : 0 < d) by (pose proof (lengthVec2_nonneg vec); unfold d, vec in *; lra).
    rewrite <- (Rabs_right d) at 2 by lra. rewrite <- Rabs_mult. f_equal. field. lra. }
  split; [reflexivity|]. split; [exact Hlen|]. split.
  - intros Hcoef Hmo Hj. rewrite Hlen. unfold w.
    assert (E : Reqb (mass (h other)) 0 = true) by now apply Reqb_true.
    rewrite E, Hcoef. unfold diff.
    replace (d - (d - distance joint) * 1 * 1) with (distance joint) by ring.
    apply Rabs_right. lra.
  - cbn [velocity set_velocity]. rewrite (moveBody_keeps velocity) by reflexivity.
    f_equal. unfold vec'. apply vec_eq; simpl; ring.
Qed.

Lemma joint_pulls_body_witness :
  lengthVec2 (subtractVec2 (center (applyJoint 60 [0%nat; 1%nat] 0 ropeJoint ropeHeap 1%nat))
                           (center (applyJoint 60 [0%nat; 1%nat] 0 ropeJoint ropeHeap 0%nat)))
  = 10.
Proof.
  assert (Hlen : lengthVec2 (subtractVec2 (center (ropeHeap 1%nat)) (center (ropeHeap 0%nat))) = 15)
    by (rewrite lengthVec2_subtract; simpl; apply sqrt_value; lra).
  assert (Hf : findBody [0%nat; 1%nat]
                 (if Z.eqb (bodyA ropeJoint) (id (ropeHeap 0%nat))
                  then bodyB ropeJoint else bodyA ropeJoint) ropeHeap = Some 1%nat)
    by reflexivity.
  assert (Hne : 1%nat <> 0%nat) by discriminate.
  assert (Hpin : pinned (ropeHeap 0%nat) = false) by reflexivity.
  assert (Hm : mass (ropeHeap 0%nat) <> 0) by (simpl; lra).
  assert (Hd0 : lengthVec2 (subtractVec2 (center (ropeHeap 1%nat)) (center (ropeHeap 0%nat))) <> 0)
    by (rewrite Hlen; lra).
  assert (Hdiff : lengthVec2 (subtractVec2 (center (ropeHeap 1%nat)) (center (ropeHeap 0%nat)))
                  - distance ropeJoint <> 0)
    by (rewrite Hlen; simpl; lra).
  destruct (joint_pulls_body 60 [0%nat; 1%nat] 0 ropeJoint ropeHeap 1 Hf Hne Hpin Hm Hd0 Hdiff)
    as (_ & _ & H & _).
  apply H.
  - rewrite Hlen.
    assert (E : Rgtb (15 - distance ropeJoint) 0 = true) by (apply Rgtb_true; simpl; lra).
    rewrite E. simpl. lra.
  - reflexivity.
  - simpl. lra.
Defined.

Lemma findBody_none (all : list nat) (otherId : Z) (h : Heap) :
  (forall b, In b all -> id (h b) <> otherId) -> findBody all otherId h = None.
Proof.
  intros H. unfold findBody. induction all as [|b t IH]; [reflexivity|]. simpl.
  destruct (Z.eqb (id (h b)) otherId) eqn:E.
  - apply Z.eqb_eq in E. exfalso. apply (H b); [now left | exact E].
  - apply IH. intros b0 Hb0. apply H. now right.
Qed.

(** X23. The edges of the joint solver.  A joint whose other body is not
    among the enabled bodies (it was disabled or removed) does nothing; so
    does a joint that is exactly at its length.  A pinned body, or one of
    inverse mass zero, is not moved by a joint, but its velocity is changed
    all the same. *)
Theorem joint_edge_cases (fps : R) (all : list nat) (body : nat) (joint : Joint) (h : Heap) :
  let otherId := if Z.eqb (bodyA joint) (id (h body)) then bodyB joint else bodyA joint in
  ((forall b, In b all -> id (h b) <> otherId) -> applyJoint fps all body joint h = h)
  /\ (forall other, findBody all otherId h = Some other ->
        lengthVec2 (subtractVec2 (center (h other)) (center (h body))) = distance joint ->
        applyJoint fps all body joint h = h)
  /\ (forall other, findBody all otherId h = Some other ->
        lengthVec2 (subtractVec2 (center (h other)) (center (h body))) - distance joint <> 0 ->
        pinned (h body) = true \/ mass (h body) = 0 ->
        let vec := subtractVec2 (center (h other)) (center (h body)) in
        let d := lengthVec2 vec in
        let diff := d - distance joint in
        let coef := if Rgtb diff 0 then 1 - elasticity joint else rigidity joint in
        let w := if Reqb (mass (h other)) 0 then 1 else 0.5 in
        center (applyJoint fps all body joint h body) = center (h body)
        /\ velocity (applyJoint fps all body joint h body)
           = addVec2 (velocity (h body)) (scaleVec2 vec ((1 / d) * diff * coef * w * fps))).
Proof.
  intros otherId. split; [|split].
  - intros Hn. unfold applyJoint. fold otherId. now rewrite (findBody_none all otherId h Hn).
  - intros other Hf Hd. unfold applyJoint. fold otherId. rewrite Hf. cbv zeta.
    assert (E : Reqb (lengthVec2 (subtractVec2 (center (h other)) (center (h body)))
                      - distance joint) 0 = true) by (apply Reqb_true; lra).
    now rewrite E.
  - intros other Hf Hdiff Himm vec d diff coef w.
    pose proof (applyJoint_moved fps all body joint h other Hf Hdiff) as Happ.
    cbv zeta in Happ. fold vec d diff coef w in Happ. rewrite Happ.
    set (vec' := scaleVec2 vec (1 / d * diff * coef * w)).
    rewrite !upd_same. cbn [center velocity set_velocity].
    rewrite center_moveBody, (moveBody_keeps velocity) by reflexivity.
    assert (E : pinned (h body) || Reqb (mass (h body)) 0 = true).
    { destruct Himm as [Hp|Hm]; [now rewrite Hp|].
      apply orb_true_iff. right. now apply Reqb_true. }
    rewrite E. split; [reflexivity|].
    f_equal. unfold vec'. apply vec_eq; simpl; ring.
Qed.

(** ** Rest *)

Lemma trackBody_immovable (fps : R) (b : Body) :
  ~ mass b > 0 ->
  restingTime (trackBody fps b) = restingTime b
  /\ averageCenter (trackBody fps b) = center b
  /\ averageAngle (trackBody fps b) = angle b
  /\ center (trackBody fps b) = center b /\ angle (trackBody fps b) = angle b.
Proof.
  intros Hm. unfold trackBody. apply Rgtb_false in Hm. rewrite Hm.
  repeat split. apply vec_eq; reflexivity.
Qed.

Lemma atRest_true (world : World) (s : R) (h : Heap) :
  atRest world s h = true
  <-> forall b, In b (dynamicBodies world) -> s <= restingTime (h b).
Proof.
  unfold atRest.
  destruct (find (fun b => Rltb (restingTime (h b)) s) (dynamicBodies world)) as [b|] eqn:E.
  - split; [discriminate|]. intros H. apply find_some in E as [Hin Hlt].
    apply Rltb_true in Hlt. specialize (H b Hin). lra.
  - split; [|reflexivity]. intros _ b Hin.
    pose proof (find_none _ _ E b Hin) as Hb. cbv beta in Hb. apply Rltb_false in Hb. lra.
Qed.

(** X24. [atRest] holds exactly when every body of the dynamic collection
    has rested for at least the given time; static and disabled bodies are
    not consulted.  A step keeps the resting time of a body whose inverse
    mass is not positive as it is and snaps its averages to its pose, and
    a step in which a dynamic body of positive inverse mass drifts leaves
    the world not at rest for any positive time. *)
Theorem atRest_spec (world : World) (s : R) (h : Heap) :
  (atRest world s h = true
   <-> forall b, In b (dynamicBodies world) -> s <= restingTime (h b))
  /\ (forall fps a, NoDup (allBodies world) -> In a (allBodies world) ->
        ~ mass (fst (snd (stepPhysics fps world h)) a) > 0 ->
        restingTime (fst (worldStep fps world h) a)
        = restingTime (fst (snd (stepPhysics fps world h)) a)
        /\ averageCenter (fst (worldStep fps world h) a)
           = center (fst (snd (stepPhysics fps world h)) a)
        /\ averageAngle (fst (worldStep fps world h) a)
           = angle (fst (snd (stepPhysics fps world h)) a))
  /\ (forall fps a, NoDup (allBodies world) -> In a (dynamicBodies world) ->
        mass (fst (snd (stepPhysics fps world h)) a) > 0 ->
        driftX (fst (snd (stepPhysics fps world h)) a)
        || driftY (fst (snd (stepPhysics fps world h)) a)
        || driftAngle (fst (snd (stepPhysics fps world h)) a) = true ->
        0 < s ->
        atRest world s (fst (worldStep fps world h)) = false).
Proof.
  split; [apply atRest_true|]. split.
  - intros fps a Hnd Hin Hm. rewrite worldStep_tracks. unfold trackStability.
    rewrite fold_upd_once by assumption.
    destruct (trackBody_immovable fps _ Hm) as (H1 & H2 & H3 & _). auto.
  - intros fps a Hnd Hin Hm Hdrift Hs.
    destruct (atRest world s (fst (worldStep fps world h))) eqn:E; [|reflexivity].
    exfalso. rewrite atRest_true in E. specialize (E a Hin).
    assert (Hall : In a (allBodies world)) by (unfold allBodies; apply in_or_app; now left).
    rewrite worldStep_tracks in E. unfold trackStability in E.
    rewrite fold_upd_once in E by assumption.
    destruct (trackBody_movable fps _ Hm) as (_ & _ & _ & _ & _ & Hr).
    rewrite Hr, Hdrift in E. lra.
Qed.

(** ** Creation *)

Lemma createRigidBody_keeps {A : Type} (p : Body -> A) (world : World) (c : Vector2)
    (m f e : R) (ty : ShapeType) (bnd wd ht : R) :
  (forall v b0, p (set_boundingBox v b0) = p b0) ->
  (forall l b0, p (set_faceNormals l b0) = p b0) ->
  p (snd (createRigidBody world c m f e ty bnd wd ht))
  = p (mkBody (nextId world) ty c (newVec2 (x c) (y c)) f e
              (if truthy m then 1 / m else 0) (newVec2 0 0)
              (if truthy m then gravity world else newVec2 0 0)
              0 0 0 0 bnd (newVec2 0 0) wd ht (calculateInertia ty m bnd wd ht) []
              [newVec2 (x c - wd / 2) (y c - ht / 2); newVec2 (x c + wd / 2) (y c - ht / 2);
               newVec2 (x c + wd / 2) (y c + ht / 2); newVec2 (x c - wd / 2) (y c + ht / 2)]
              false (if Reqb m 0 then 9007199254740991 else 0) (Reqb m 0) 0).
Proof.
  intros Hb Hn. unfold createRigidBody. cbn [snd].
  destruct ty.
  - now rewrite (calcBoundingBox_keeps p _ Hb).
  - now rewrite (computeRectNormals_keeps p _ Hn), (calcBoundingBox_keeps p _ Hb).
Qed.

Lemma calculateInertia_massless (ty : ShapeType) (bnd wd ht : R) :
  calculateInertia ty 0 bnd wd ht = 0.
Proof.
  unfold calculateInertia.
  assert (E : Rgtb 0 0 = false) by (apply Rgtb_false; lra).
  destruct ty; now rewrite E.
Qed.

(** X25. [createRigidBody], and with it [createCircle] and
    [createRectangle], gives the new body the [nextId] of the world and
    advances [nextId] by one, so that two bodies made in a row have
    different ids; it adds the body to no collection.  The body is static
    exactly when the mass given is 0; then its inverse mass, its inertia
    and its acceleration are 0.  Otherwise the field [mass] holds the
    inverse of the mass given and the acceleration is the gravity of the
    world.  The body starts at the center given, at rest, unpinned and
    impermeable. *)
Theorem createRigidBody_fresh (world : World) (c : Vector2) (m f e : R) (ty : ShapeType)
    (bnd wd ht : R) :
  let world' := fst (createRigidBody world c m f e ty bnd wd ht) in
  let b := snd (createRigidBody world c m f e ty bnd wd ht) in
  id b = nextId world /\ nextId world' = (nextId world + 1)%Z
  /\ (forall c2 m2 f2 e2 ty2 bnd2 wd2 ht2,
        id (snd (createRigidBody world' c2 m2 f2 e2 ty2 bnd2 wd2 ht2)) <> id b)
  /\ dynamicBodies world' = dynamicBodies world /\ staticBodies world' = staticBodies world
  /\ disabledBodies world' = disabledBodies world /\ joints world' = joints world
  /\ gravity world' = gravity world
  /\ (static b = true <-> m = 0)
  /\ (m = 0 -> mass b = 0 /\ inertia b = 0 /\ acceleration b = newVec2 0 0)
  /\ (m <> 0 -> mass b * m = 1 /\ acceleration b = gravity world /\ restingTime b = 0)
  /\ center b = c /\ averageCenter b = c /\ type b = ty
  /\ velocity b = newVec2 0 0 /\ angularVelocity b = 0 /\ angle b = 0
  /\ pinned b = false /\ permeability b = 0.
Proof.
  intros world' b. unfold world', b.
  repeat match goal with
         | |- context [?p (snd (createRigidBody ?w ?c0 ?m0 ?f0 ?e0 ?t0 ?b0 ?w0 ?h0))] =>
             rewrite (createRigidBody_keeps p w c0 m0 f0 e0 t0 b0 w0 h0)
               by (intros; reflexivity)
         end.
  cbn [id mass inertia acceleration restingTime center averageCenter type velocity
       angularVelocity angle pinned permeability static].
  split; [reflexivity|]. split; [reflexivity|].
  split.
  { intros. rewrite (createRigidBody_keeps id) by (intros; reflexivity).
    cbn [id]. unfold createRigidBody. cbn [fst nextId]. lia. }
  split; [reflexivity|]. split; [reflexivity|]. split; [reflexivity|].
  split; [reflexivity|]. split; [reflexivity|].
  split; [apply Reqb_true|].
  split.
  { intros ->. assert (E : truthy 0 = false) by now apply truthy_false.
    rewrite E, calculateInertia_massless. auto. }
  split.
  { intros Hm. assert (E : truthy m = true) by now apply truthy_true.
    rewrite E, (Reqb_neq m 0 Hm). split; [now field | auto]. }
  repeat split. apply vec_eta.
Qed.

Lemma floor_bounds (a : R) : floor a <= a < floor a + 1.
Proof. unfold floor. destruct (base_Int_part a) as [H1 H2]. lra. Qed.

Lemma floor_IZR (z : Z) : floor (IZR z) = IZR z.
Proof. unfold floor. rewrite <- (Int_part_spec (IZR z) z); [reflexivity | lra]. Qed.

Lemma hypot_dominates (a b : R) : 0 <= a -> 0 <= b -> a <= hypot a b /\ b <= hypot a b.
Proof.
  intros Ha Hb. unfold hypot. split.
  - rewrite <- (sqrt_square a Ha) at 1. apply sqrt_le_1_alt. nra.
  - rewrite <- (sqrt_square b Hb) at 1. apply sqrt_le_1_alt. nra.
Qed.

Lemma bboxOf_box (c : Vector2) (wd ht : R) :
  0 <= wd -> 0 <= ht ->
  bboxOf c [newVec2 (x c - wd / 2) (y c - ht / 2); newVec2 (x c + wd / 2) (y c - ht / 2);
            newVec2 (x c + wd / 2) (y c + ht / 2); newVec2 (x c - wd / 2) (y c + ht / 2)]
  = newVec2 (wd / 2) (ht / 2).
Proof.
  intros Hw Hh. unfold bboxOf. cbn [fold_left]. unfold newVec2. cbn [x y].
  assert (E1 : forall a k, 0 <= k -> Rabs (a - (a - k / 2)) = k / 2)
    by (intros a k Hk; replace (a - (a - k / 2)) with (k / 2) by lra; apply Rabs_right; lra).
  assert (E2 : forall a k, 0 <= k -> Rabs (a - (a + k / 2)) = k / 2)
    by (intros a k Hk; replace (a - (a + k / 2)) with (- (k / 2)) by lra;
        rewrite Rabs_Ropp; apply Rabs_right; lra).
  rewrite !E1, !E2 by assumption.
  rewrite (Rmax_right 0 (wd / 2)), (Rmax_right 0 (ht / 2)) by lra.
  assert (Hid : forall a, Rmax a a = a) by (intros a; apply Rmax_left; lra).
  rewrite !Hid. reflexivity.
Qed.

Lemma normalsOf_box (c : Vector2) (wd ht : R) :
  0 < wd -> 0 < ht ->
  normalsOf [newVec2 (x c - wd / 2) (y c - ht / 2); newVec2 (x c + wd / 2) (y c - ht / 2);
             newVec2 (x c + wd / 2) (y c + ht / 2); newVec2 (x c - wd / 2) (y c + ht / 2)]
  = [newVec2 0 (-1); newVec2 1 0; newVec2 0 1; newVec2 (-1) 0].
Proof.
  intros Hw Hh. unfold normalsOf, arr_get. cbn [nth].
  rewrite (normalize_known _ ht), (normalize_known _ wd), (normalize_known _ ht),
          (normalize_known _ wd);
    try assumption; try (unfold dotProduct; simpl; nra).
  repeat (apply (f_equal2 cons); [apply vec_eq; simpl; field; lra|]).
  reflexivity.
Qed.

(** X26. The geometry of new bodies.  Both constructors floor the
    coordinates of the center.  A circle gets the floored radius as its
    bounding radius and as both halves of its bounding box, and no face
    normals.  A rectangle whose floored width [w] and height [h] are
    positive gets the face normals up, right, down and left (in screen
    coordinates, where up is [-y]), the bounding box [(w / 2, h / 2)], and
    the bounding radius [hypot w h / 2], which is at least as large as
    either half. *)
Theorem new_body_geometry (world : World) (c : Vector2) (m f e : R) :
  (forall r,
     let b := snd (createCircle world c r m f e) in
     type b = CIRCLE /\ center b = newVec2 (floor (x c)) (floor (y c))
     /\ x (center b) <= x c < x (center b) + 1 /\ y (center b) <= y c < y (center b) + 1
     /\ bounds b = floor r /\ boundingBox b = newVec2 (floor r) (floor r)
     /\ faceNormals b = [])
  /\ (forall wd ht, 0 < floor wd -> 0 < floor ht ->
        let b := snd (createRectangle world c wd ht m f e) in
        type b = RECTANGLE /\ center b = newVec2 (floor (x c)) (floor (y c))
        /\ faceNormals b = [newVec2 0 (-1); newVec2 1 0; newVec2 0 1; newVec2 (-1) 0]
        /\ boundingBox b = newVec2 (floor wd / 2) (floor ht / 2)
        /\ bounds b = hypot (floor wd) (floor ht) / 2
        /\ x (boundingBox b) <= bounds b /\ y (boundingBox b) <= bounds b).
Proof.
  split.
  - intros r b. unfold b, createCircle, createRigidBody. cbn [snd].
    unfold calcBoundingBox. cbn [type].
    cbn [type center bounds faceNormals boundingBox set_boundingBox].
    unfold newVec2 at 3 4 5 6. cbn [x y].
    split; [reflexivity|]. split; [reflexivity|].
    split; [apply floor_bounds|]. split; [apply floor_bounds|].
    split; [reflexivity|]. split; reflexivity.
  - intros wd ht Hw Hh b.
    assert (Hbox : boundingBox b = newVec2 (floor wd / 2) (floor ht / 2)).
    { unfold b, createRectangle, createRigidBody. cbn [snd].
      rewrite computeRectNormals_eq. rewrite calcBoundingBox_rect by reflexivity.
      cbn [boundingBox set_faceNormals set_boundingBox center vertices].
      rewrite <- (bboxOf_box (newVec2 (floor (x c)) (floor (y c))) (floor wd) (floor ht))
        by lra.
      reflexivity. }
    assert (Hn : faceNormals b = [newVec2 0 (-1); newVec2 1 0; newVec2 0 1; newVec2 (-1) 0]).
    { unfold b, createRectangle, createRigidBody. cbn [snd].
      rewrite computeRectNormals_eq. rewrite calcBoundingBox_rect by reflexivity.
      cbn [faceNormals set_faceNormals set_boundingBox vertices skipn].
      rewrite app_nil_r.
      rewrite <- (normalsOf_box (newVec2 (floor (x c)) (floor (y c))) (floor wd) (floor ht))
        by assumption.
      reflexivity. }
    rewrite Hbox, Hn. unfold b, createRectangle.
    rewrite !(createRigidBody_keeps type), !(createRigidBody_keeps center),
            !(createRigidBody_keeps bounds) by (intros; reflexivity).
    cbn [type center bounds].
    destruct (hypot_dominates (floor wd) (floor ht)) as [H1 H2]; try lra.
    repeat split; simpl; lra.
Qed.

Lemma new_body_geometry_witness :
  boundingBox (snd (createRectangle (createWorld None) (newVec2 0 0) 4 2 1 0.2 0.5))
  = newVec2 (floor 4 / 2) (floor 2 / 2).
Proof.
  assert (H4 : floor 4 = 4) by exact (floor_IZR 4).
  assert (H2 : floor 2 = 2) by exact (floor_IZR 2).
  destruct (new_body_geometry (createWorld None) (newVec2 0 0) 1 0.2 0.5) as [_ H].
  apply (H 4 2); [rewrite H4 | rewrite H2]; lra.
Defined.

(** ** Adding, removing, disabling and enabling bodies *)

Lemma findIndex_first {A : Type} (p : A -> bool) (l1 : list A) (a : A) (l2 : list A) :
  (forall b, In b l1 -> p b = false) -> p a = true ->
  findIndex p (l1 ++ a :: l2) = Some (length l1).
Proof.
  induction l1 as [|b t IH]; intros Hl Ha; simpl.
  - now rewrite Ha.
  - rewrite (Hl b (or_introl eq_refl)). rewrite IH; [reflexivity| |exact Ha].
    intros b0 Hb0. apply Hl. now right.
Qed.

Lemma splice1_middle {A : Type} (l1 : list A) (a : A) (l2 : list A) :
  splice1 (length l1) (l1 ++ a :: l2) = l1 ++ l2.
Proof.
  unfold splice1. induction l1 as [|b t IH]; simpl; [reflexivity|].
  f_equal. exact IH.
Qed.

Lemma world_eta (world : World) :
  mkWorld (dynamicBodies world) (staticBodies world) (disabledBodies world)
          (gravity world) (angularDamp world) (damp world) (nextId world) (joints world)
  = world.
Proof. now destruct world. Qed.

Lemma id_differs (h : Heap) (body : nat) (l : list nat) :
  (forall b, In b l -> id (h b) <> id (h body)) ->
  forall b, In b l -> Z.eqb (id (h b)) (id (h body)) = false.
Proof. intros H b Hb. apply Z.eqb_neq. now apply H. Qed.

(** X27. [addBody] appends the body to the static or the dynamic
    collection, by its [static] flag, without looking for duplicates.
    [removeBody] searches that collection by id and takes out the first
    body with the id of the one given, leaving the other collections as
    they are; if no body there has that id the world is left as it is.  So
    removing a body right after adding it gives the world back, provided
    no body with the same id was in the collection before. *)
Theorem addBody_removeBody (world : World) (body : nat) (h : Heap) :
  let sel := fun w => if static (h body) then staticBodies w else dynamicBodies w in
  let rest := fun w => (if static (h body) then dynamicBodies w else staticBodies w,
                        disabledBodies w) in
  sel (addBody world body h) = sel world ++ [body]
  /\ rest (addBody world body h) = rest world
  /\ sel (addBody (addBody world body h) body h) = sel world ++ [body; body]
  /\ (forall l1 a l2, sel world = l1 ++ a :: l2 ->
        (forall b, In b l1 -> id (h b) <> id (h body)) -> id (h a) = id (h body) ->
        sel (removeBody world body h) = l1 ++ l2
        /\ rest (removeBody world body h) = rest world)
  /\ ((forall b, In b (sel world) -> id (h b) <> id (h body)) ->
      removeBody world body h = world
      /\ removeBody (addBody world body h) body h = world).
Proof.
  intros sel rest. unfold sel, rest.
  split; [unfold addBody; destruct (static (h body)); reflexivity|].
  split; [unfold addBody; destruct (static (h body)); reflexivity|].
  split.
  { unfold addBody. destruct (static (h body)) eqn:Es; cbn [staticBodies dynamicBodies];
      rewrite <- app_assoc; reflexivity. }
  split.
  - intros l1 a l2 Hl Hl1 Ha. unfold removeBody.
    destruct (static (h body)); rewrite Hl;
      (rewrite findIndex_first;
         [| apply id_differs; exact Hl1 | now apply Z.eqb_eq]);
      cbn [staticBodies dynamicBodies disabledBodies];
      rewrite splice1_middle; split; reflexivity.
  - intros Hn. split.
    + unfold removeBody. rewrite findIndex_none; [reflexivity|].
      apply id_differs. exact Hn.
    + unfold removeBody, addBody.
      destruct (static (h body)); cbn [staticBodies dynamicBodies];
        (rewrite findIndex_app_last;
           [| apply id_differs; exact Hn | apply Z.eqb_refl]);
        rewrite splice1_app_last;
        cbn [staticBodies dynamicBodies disabledBodies gravity angularDamp damp nextId joints];
        apply world_eta.
Qed.

Lemma removeRef_notin (l : list nat) (body : nat) : ~ In body l -> removeRef l body = l.
Proof.
  intros Hn. unfold removeRef, indexOf. rewrite findIndex_none; [reflexivity|].
  intros a Ha. apply Nat.eqb_neq. intros ->. contradiction.
Qed.

Lemma removeRef_first (l1 l2 : list nat) (body : nat) :
  ~ In body l1 -> removeRef (l1 ++ body :: l2) body = l1 ++ l2.
Proof.
  intros Hn. unfold removeRef, indexOf. rewrite findIndex_first.
  - apply splice1_middle.
  - intros a Ha. apply Nat.eqb_neq. intros ->. contradiction.
  - apply Nat.eqb_refl.
Qed.

Lemma removeRef_cases (l : list nat) (body : nat) :
  (~ In body l /\ removeRef l body = l)
  \/ (exists l1 l2, l = l1 ++ body :: l2 /\ ~ In body l1 /\ removeRef l body = l1 ++ l2).
Proof.
  induction l as [|a t IH].
  - left. split; [intros [] | reflexivity].
  - destruct (Nat.eq_dec a body) as [->|Hne].
    + right. exists [], t. split; [reflexivity|]. split; [intros []|].
      apply (removeRef_first [] t body). intros [].
    + destruct IH as [[Hn Heq]|(l1 & l2 & Hl & Hn & Heq)].
      * left. assert (Hn' : ~ In body (a :: t)) by (intros [H|H]; [now apply Hne | contradiction]).
        split; [exact Hn' | now apply removeRef_notin].
      * right. exists (a :: l1), l2. subst t.
        assert (Hn' : ~ In body (a :: l1)) by (intros [H|H]; [now apply Hne | contradiction]).
        split; [reflexivity|]. split; [exact Hn'|].
        apply (removeRef_first (a :: l1) l2 body Hn').
Qed.

Lemma removeRef_others (l : list nat) (body b : nat) :
  b <> body -> (In b (removeRef l body) <-> In b l).
Proof.
  intros Hne. destruct (removeRef_cases l body) as [[_ ->]|(l1 & l2 & Hl & _ & ->)];
    [reflexivity|].
  subst l. rewrite !in_app_iff. simpl. split; [tauto|].
  intros [H|[H|H]]; [tauto | now subst | tauto].
Qed.

Lemma includes_true (l : list nat) (body : nat) : In body l -> includes l body = true.
Proof.
  intros H. unfold includes. apply existsb_exists. exists body. split; [exact H|].
  apply Nat.eqb_refl.
Qed.

(** X28. [disableBody] takes the first occurrence of the body out of the
    dynamic and of the static collection and puts the body into the
    disabled collection unless it is there already; the other bodies stay
    where they are.  Where no body occurs twice the body is then no longer
    enabled, and disabling it once more changes nothing.  [enableBody]
    after [disableBody] puts a body of the dynamic collection back at the
    end of that collection, so the order of the bodies may change, and
    leaves the static and the disabled collection as they were. *)
Theorem disableBody_enableBody (world : World) (body : nat) (h : Heap) :
  In body (disabledBodies (disableBody world body))
  /\ (forall b, b <> body ->
        (In b (dynamicBodies (disableBody world body)) <-> In b (dynamicBodies world))
        /\ (In b (staticBodies (disableBody world body)) <-> In b (staticBodies world))
        /\ (In b (disabledBodies (disableBody world body)) <-> In b (disabledBodies world)))
  /\ (NoDup (enabledBodies world) ->
      ~ In body (enabledBodies (disableBody world body))
      /\ disableBody (disableBody world body) body = disableBody world body)
  /\ (NoDup (allBodies world) -> In body (dynamicBodies world) -> static (h body) = false ->
      enableBody (disableBody world body) body h
      = mkWorld (removeRef (dynamicBodies world) body ++ [body]) (staticBodies world)
                (disabledBodies world)
                (gravity world) (angularDamp world) (damp world) (nextId world) (joints world)).
Proof.
  split; [apply disableBody_disables|]. split; [|split].
  - intros b Hne. unfold disableBody. cbn [dynamicBodies staticBodies disabledBodies].
    split; [now apply removeRef_others|]. split; [now apply removeRef_others|].
    destruct (includes (disabledBodies world) body); [reflexivity|].
    rewrite in_app_iff. simpl. split; [|tauto].
    intros [H|[H|[]]]; [exact H | now subst].
  - intros Hnd. unfold enabledBodies in Hnd.
    pose proof (NoDup_app_remove_r _ _ Hnd) as Hd.
    pose proof (NoDup_app_remove_l _ _ Hnd) as Hs.
    pose proof (removeRef_removes _ body Hd) as Hrd.
    pose proof (removeRef_removes _ body Hs) as Hrs.
    split.
    + unfold enabledBodies, disableBody. cbn [dynamicBodies staticBodies].
      rewrite in_app_iff. tauto.
    + unfold disableBody at 1.
      rewrite (includes_true _ _ (disableBody_disables world body)).
      unfold disableBody. cbn [dynamicBodies staticBodies disabledBodies gravity angularDamp
                               damp nextId joints].
      now rewrite (removeRef_notin _ _ Hrd), (removeRef_notin _ _ Hrs).
  - intros Hnd Hin Hs. unfold allBodies in Hnd.
    pose proof (NoDup_app_remove_r _ _ Hnd) as Hd.
    assert (Hrest : ~ In body (staticBodies world ++ disabledBodies world)).
    { intros H. apply in_split in Hin as (l1 & l2 & Hl). rewrite Hl in Hnd.
      rewrite <- app_assoc in Hnd. apply NoDup_remove_2 in Hnd. apply Hnd.
      rewrite !in_app_iff in *. tauto. }
    rewrite in_app_iff in Hrest.
    unfold enableBody, disableBody.
    cbn [dynamicBodies staticBodies disabledBodies gravity angularDamp damp nextId joints].
    rewrite Hs. cbn [negb andb].
    rewrite (includes_false _ _ (removeRef_removes _ body Hd)). cbn [negb].
    rewrite (removeRef_notin (staticBodies world)) by tauto.
    rewrite (includes_false (disabledBodies world)) by tauto.
    rewrite (removeRef_first (disabledBodies world) [] body) by tauto.
    now rewrite app_nil_r.
Qed.

(** ** Pinning a static body *)

(** X29. [allowPinnedRotation] looks the id up in the static collection
    only: if no static body has the id, the world and the bodies are left
    as they are.  Otherwise the body found is moved to the end of the
    dynamic collection and marked pinned and not static; its field [mass]
    receives the mass given as it is, and its inertia is computed from
    that mass.  Nothing else changes, and a step does not translate the
    body. *)
Theorem allowPinnedRotation_spec (world : World) (id0 : Z) (m : R) (h : Heap) :
  ((forall b, In b (staticBodies world) -> id (h b) <> id0) ->
   allowPinnedRotation world id0 m h = (world, h))
  /\ (forall body,
        find (fun b => Z.eqb (id (h b)) id0) (staticBodies world) = Some body ->
        let world' := fst (allowPinnedRotation world id0 m h) in
        let h' := snd (allowPinnedRotation world id0 m h) in
        In body (staticBodies world) /\ id (h body) = id0
        /\ dynamicBodies world' = dynamicBodies world ++ [body]
        /\ staticBodies world' = removeRef (staticBodies world) body
        /\ disabledBodies world' = disabledBodies world
        /\ pinned (h' body) = true /\ static (h' body) = false
        /\ mass (h' body) = m
        /\ inertia (h' body)
           = calculateInertia (type (h body)) m (bounds (h body)) (width (h body))
                              (height (h body))
        /\ center (h' body) = center (h body) /\ id (h' body) = id (h body)
        /\ acceleration (h' body) = acceleration (h body)
        /\ restingTime (h' body) = restingTime (h body)
        /\ (forall a, a <> body -> h' a = h a)
        /\ (forall fps, center (fst (worldStep fps world' h') body) = center (h body))).
Proof.
  split.
  - intros Hn. unfold allowPinnedRotation.
    destruct (find _ (staticBodies world)) as [body|] eqn:E; [|reflexivity].
    apply find_some in E as [Hin Hid]. apply Z.eqb_eq in Hid.
    exfalso. now apply (Hn body).
  - intros body Hf world' h'. unfold world', h', allowPinnedRotation. rewrite Hf.
    cbv zeta. cbn [fst snd dynamicBodies staticBodies disabledBodies].
    apply find_some in Hf as [Hin Hid]. apply Z.eqb_eq in Hid.
    assert (Hp : pinned (upd body (set_static false) (upd body (set_pinned true)
                   (upd body (fun b => set_inertia
                      (calculateInertia (type b) (mass b) (bounds b) (width b) (height b)) b)
                      (upd body (set_mass m) h))) body) = true)
      by (rewrite !upd_same; reflexivity).
    assert (Hc : center (upd body (set_static false) (upd body (set_pinned true)
                   (upd body (fun b => set_inertia
                      (calculateInertia (type b) (mass b) (bounds b) (width b) (height b)) b)
                      (upd body (set_mass m) h))) body) = center (h body))
      by (rewrite !upd_same; reflexivity).
    split; [exact Hin|]. split; [exact Hid|].
    split; [reflexivity|]. split; [reflexivity|]. split; [reflexivity|].
    split; [exact Hp|].
    split; [rewrite !upd_same; reflexivity|].
    split; [rewrite !upd_same; reflexivity|].
    split; [rewrite !upd_same; reflexivity|].
    split; [exact Hc|].
    split; [rewrite !upd_same; reflexivity|].
    split; [rewrite !upd_same; reflexivity|].
    split; [rewrite !upd_same; reflexivity|].
    split; [intros a Ha; now rewrite !upd_other|].
    intros fps. rewrite <- Hc.
    apply (worldStep_invariant _ (immobile_stepInvariant _) body fps).
    split; [left; exact Hp | reflexivity].
Qed.

(** ** The bounds of the world *)

Lemma boxWithin_refl (mm : Vector2 * Vector2) : boxWithin mm mm.
Proof. unfold boxWithin. lra. Qed.

Lemma boxWithin_trans (a b c : Vector2 * Vector2) :
  boxWithin a b -> boxWithin b c -> boxWithin a c.
Proof. unfold boxWithin. lra. Qed.

Lemma fold_grows {B : Type} (f : Vector2 * Vector2 -> B -> Vector2 * Vector2)
    (l : list B) (mm : Vector2 * Vector2) :
  (forall a b, boxWithin a (f a b)) -> boxWithin mm (fold_left f l mm).
Proof.
  intros Hf. revert mm. induction l as [|b t IH]; intros mm; simpl; [apply boxWithin_refl|].
  apply (boxWithin_trans _ (f mm b)); [apply Hf | apply IH].
Qed.

Lemma fold_covers {B : Type} (f : Vector2 * Vector2 -> B -> Vector2 * Vector2)
    (cov : Vector2 * Vector2 -> B -> Prop) (l : list B) (mm : Vector2 * Vector2) :
  (forall a b, boxWithin a (f a b)) ->
  (forall a b, cov (f a b) b) ->
  (forall a a' b, boxWithin a a' -> cov a b -> cov a' b) ->
  forall b, In b l -> cov (fold_left f l mm) b.
Proof.
  intros Hf Hc Hm. revert mm. induction l as [|b0 t IH]; intros mm b Hin; simpl; [contradiction|].
  destruct Hin as [->|Hin]; [|now apply IH].
  apply (Hm (f mm b)); [now apply fold_grows | apply Hc].
Qed.

Lemma vertex_step_grows (acc : Vector2 * Vector2) (vert : Vector2) :
  boxWithin acc
    (newVec2 (Rmin (x (fst acc)) (x vert)) (Rmin (y (fst acc)) (y vert)),
     newVec2 (Rmax (x (snd acc)) (x vert)) (Rmax (y (snd acc)) (y vert))).
Proof.
  unfold boxWithin. cbn [fst snd]. unfold newVec2. cbn [x y].
  pose proof (Rmin_l (x (fst acc)) (x vert)). pose proof (Rmin_l (y (fst acc)) (y vert)).
  pose proof (Rmax_l (x (snd acc)) (x vert)). pose proof (Rmax_l (y (snd acc)) (y vert)).
  lra.
Qed.

Lemma inBox_within (a a' : Vector2 * Vector2) (p : Vector2) :
  boxWithin a a' -> inBox a p -> inBox a' p.
Proof. unfold boxWithin, inBox. lra. Qed.

Lemma coveredBy_within (a a' : Vector2 * Vector2) (b : Body) :
  boxWithin a a' -> coveredBy a b -> coveredBy a' b.
Proof.
  unfold coveredBy. intros Hw. destruct (type b).
  - unfold boxWithin in Hw. lra.
  - intros H v Hv. apply (inBox_within a); [exact Hw | now apply H].
Qed.

Lemma growBounds_grows (h : Heap) (mm : Vector2 * Vector2) (body : nat) :
  boxWithin mm (growBounds h mm body).
Proof.
  unfold growBounds. destruct (type (h body)).
  - unfold boxWithin. cbn [fst snd]. unfold newVec2. cbn [x y].
    pose proof (Rmin_l (x (fst mm)) (x (center (h body)) - bounds (h body))).
    pose proof (Rmin_l (y (fst mm)) (y (center (h body)) - bounds (h body))).
    pose proof (Rmax_l (x (snd mm)) (x (center (h body)) + bounds (h body))).
    pose proof (Rmax_l (y (snd mm)) (y (center (h body)) + bounds (h body))).
    lra.
  - apply fold_grows. intros a v. apply vertex_step_grows.
Qed.

Lemma growBounds_covers (h : Heap) (mm : Vector2 * Vector2) (body : nat) :
  coveredBy (growBounds h mm body) (h body).
Proof.
  unfold growBounds, coveredBy. destruct (type (h body)).
  - cbn [fst snd]. unfold newVec2. cbn [x y].
    pose proof (Rmin_r (x (fst mm)) (x (center (h body)) - bounds (h body))).
    pose proof (Rmin_r (y (fst mm)) (y (center (h body)) - bounds (h body))).
    pose proof (Rmax_r (x (snd mm)) (x (center (h body)) + bounds (h body))).
    pose proof (Rmax_r (y (snd mm)) (y (center (h body)) + bounds (h body))).
    lra.
  - intros v Hv.
    apply (fold_covers
             (fun (acc : Vector2 * Vector2) vert =>
                (newVec2 (Rmin (x (fst acc)) (x vert)) (Rmin (y (fst acc)) (y vert)),
                 newVec2 (Rmax (x (snd acc)) (x vert)) (Rmax (y (snd acc)) (y vert))))
             inBox (vertices (h body)) mm).
    + intros a v0. apply vertex_step_grows.
    + intros a v0. unfold inBox. cbn [fst snd]. unfold newVec2. cbn [x y].
      pose proof (Rmin_r (x (fst a)) (x v0)). pose proof (Rmin_r (y (fst a)) (y v0)).
      pose proof (Rmax_r (x (snd a)) (x v0)). pose proof (Rmax_r (y (snd a)) (y v0)).
      lra.
    + intros a a' p. apply inBox_within.
    + exact Hv.
Qed.

(** X30. The box [getWorldBounds] returns takes in every body it ranges
    over (the static bodies, or all bodies of the world): the square
    around each circle and every vertex of each rectangle.  It also takes
    in the square of half side [bounds] around the first body, whatever
    the shape of that body.  For an empty collection both corners are the
    origin. *)
Theorem getWorldBounds_contains (world : World) (staticOnly : bool) (h : Heap) :
  let bodies := if staticOnly then staticBodies world else allBodies world in
  (forall body, In body bodies -> coveredBy (getWorldBounds world staticOnly h) (h body))
  /\ (forall b0 t, bodies = b0 :: t ->
        boxWithin
          (newVec2 (x (center (h b0)) - bounds (h b0)) (y (center (h b0)) - bounds (h b0)),
           newVec2 (x (center (h b0)) + bounds (h b0)) (y (center (h b0)) + bounds (h b0)))
          (getWorldBounds world staticOnly h))
  /\ (bodies = [] -> getWorldBounds world staticOnly h = (newVec2 0 0, newVec2 0 0)).
Proof.
  intros bodies. unfold getWorldBounds. fold bodies.
  destruct bodies as [|b0 t] eqn:E.
  - split; [intros body []|]. split; [discriminate | reflexivity].
  - split; [|split; [|discriminate]].
    + intros body Hin.
      apply (fold_covers (growBounds h) (fun mm b => coveredBy mm (h b)) (b0 :: t)).
      * intros a b. apply growBounds_grows.
      * intros a b. apply growBounds_covers.
      * intros a a' b. apply coveredBy_within.
      * exact Hin.
    + intros b1 t1 Heq. injection Heq as <- <-.
      apply fold_grows. intros a b. apply growBounds_grows.
Qed.
